(** * MidGen: the melody generator of [midgen_gui.py]

    A shallow embedding of [GeneratorWorker] (the generation engine and its
    MIDI export) and of [MainWindow.start_generation] (the input validator),
    with the properties the specification states about them.

    Conventions of the embedding.
    - Python [int] is [Z]; [str] is [string]; a [dict] literal is a [gmap].
    - Python [float] is IEEE 754 binary64.  A finite binary64 value is carried
      as the rational it denotes, and every arithmetic operation returns the
      round-to-nearest, ties-to-even value of the exact result ([b64]).
    - [random], the operating system, the music21 library and the
      interpreter's [int(text)] are the environment.  The random draws are
      an arbitrary stream.  The file system holds the names that exist,
      the file each leads to and the content of each file; which name a
      path stands for ([entry_at]), which file operation the system refuses
      and with what message ([io_fault]), and how much of the data is on
      the disk when the write or the close fails ([spill]) are given by the
      world and never decided by the model.  music21 and [int] are interfaces ([Music21],
      [Builtins]).
    - Everything the engine does that can be observed from outside (a signal
      emitted, an element appended to the part, a file operation) is logged,
      in order, in the [trace] of the state. *)

From Stdlib Require Import ZArith QArith Qround Qabs Qpower Qminmax Lia Lqa List Ascii String.
From Stdlib Require PrimFloat FloatOps SpecFloat Uint63.
From stdpp Require Import base gmap strings list pretty sorting.
Import ListNotations.
Local Open Scope Z_scope.

(** ** Binary64 arithmetic *)

(** [ilog2 x] is the binary exponent of a positive rational:
    [2 ^ ilog2 x <= x < 2 ^ (ilog2 x + 1)]. *)
Definition ilog2 (x : Q) : Z :=
  let e0 := Z.log2 (Qnum x) - Z.log2 (Zpos (Qden x)) in
  if Qle_bool (2 ^ e0) x then e0 else e0 - 1.

(** Nearest integer, ties to even. *)
Definition rne (x : Q) : Z :=
  let f := Qfloor x in
  match Qcompare (x - inject_Z f) (1 # 2) with
  | Lt => f
  | Gt => f + 1
  | Eq => if Z.even f then f else f + 1
  end.

(** Exponent of the unit in the last place: 53 significant bits, and the
    subnormal range below [2 ^ -1022]. *)
Definition ulp_exp (x : Q) : Z := Z.max (ilog2 x - 52) (-1074).

Definition b64_pos (x : Q) : Q :=
  let s := ulp_exp x in Qred (inject_Z (rne (x / 2 ^ s)) * 2 ^ s).

(** The binary64 number nearest to [x] (overflow is handled where it can
    happen, in [float_of_int]). *)
Definition b64 (x : Q) : Q :=
  match Qcompare x 0 with
  | Eq => 0%Q
  | Gt => b64_pos x
  | Lt => (- b64_pos (- x))%Q
  end.

Definition float := Q.

Definition fadd (x y : float) : float := b64 (x + y).
Definition fmul (x y : float) : float := b64 (x * y).
Definition fdiv (x y : float) : float := b64 (x / y).

(** [a / b] on two ints: the correctly rounded quotient. *)
Definition int_truediv (a b : Z) : float := b64 (inject_Z a / inject_Z b).

(** [float(n)], implicit in [n / 60.0]; [None] is Python's OverflowError,
    raised from [2 ^ 1024 - 2 ^ 970] on. *)
Definition float_of_int (n : Z) : option float :=
  if Z.abs n <? 2 ^ 1024 - 2 ^ 970 then Some (b64 (inject_Z n)) else None.

(** [x // 4.0].  The quotient of a binary64 number by 4 and its floor are
    binary64 numbers, so this operation does not round. *)
Definition float_floordiv (x y : float) : float := inject_Z (Qfloor (x / y)).

(** [int(x)] truncates towards zero. *)
Definition int_of_float (x : float) : Z := Z.quot (Qnum x) (Zpos (Qden x)).

(** [max(a, b)] keeps its first argument unless the second is greater. *)
Definition py_max (a b : float) : float := if Qlt_le_dec a b then b else a.

(** *** The same operations on the kernel's hardware floats

    [b64] is checked below against the primitive binary64 operations on the
    expressions of the engine. *)

Definition Q_of_prim (f : PrimFloat.float) : option Q :=
  match FloatOps.Prim2SF f with
  | SpecFloat.S754_zero _ => Some 0%Q
  | SpecFloat.S754_finite sign m e =>
      Some (Qred ((if sign then -1 else 1) * inject_Z (Zpos m) * 2 ^ e))
  | _ => None
  end.

(** Exact for [|z| < 2 ^ 53]. *)
Definition prim_of_Z (z : Z) : PrimFloat.float :=
  if z <? 0 then PrimFloat.opp (PrimFloat.of_uint63 (Uint63.of_Z (- z)))
  else PrimFloat.of_uint63 (Uint63.of_Z z).

Definition same_value (hw : PrimFloat.float) (x : float) : bool :=
  match Q_of_prim hw with
  | Some q => Qeq_bool q x
  | None => false
  end.

Definition hw_percent (i measures : Z) : PrimFloat.float :=
  PrimFloat.mul (PrimFloat.div (prim_of_Z i) (prim_of_Z measures)) (prim_of_Z 100).

Definition hw_beats (length_times_tempo : Z) : PrimFloat.float :=
  PrimFloat.div (prim_of_Z length_times_tempo) (prim_of_Z 60).

Definition hw_chord (base crazy : Z) : PrimFloat.float :=
  PrimFloat.mul (prim_of_Z base)
    (PrimFloat.add (prim_of_Z 1) (PrimFloat.div (prim_of_Z (- crazy)) (prim_of_Z 20))).

Definition hw_note (crazy : Z) : PrimFloat.float :=
  if 0 <=? crazy then
    PrimFloat.div (prim_of_Z 1)
      (PrimFloat.add (prim_of_Z 1) (PrimFloat.div (prim_of_Z crazy) (prim_of_Z 10)))
  else
    PrimFloat.mul (prim_of_Z 1)
      (PrimFloat.add (prim_of_Z 1) (PrimFloat.div (prim_of_Z (Z.abs crazy)) (prim_of_Z 10))).

(** ** Python helpers *)

(** [range(n)]. *)
Definition range (n : Z) : list Z := map Z.of_nat (seq 0 (Z.to_nat n)).

(** [d.get(k, default)]. *)
Definition dict_get {V : Type} (d : gmap string V) (k : string) (dflt : V) : V :=
  default dflt (d !! k).

(** [os.path.join] (POSIX). *)
Definition is_slash (c : ascii) : bool := Ascii.eqb c "/".

Definition ends_with_slash (s : string) : bool :=
  match rev (list_ascii_of_string s) with
  | c :: _ => is_slash c
  | [] => false
  end.

Definition path_join (a b : string) : string :=
  match b with
  | String "/" _ => b
  | _ => if (String.eqb a "" || ends_with_slash a)%bool then a +:+ b else a +:+ "/" +:+ b
  end.

(** ** music21, as far as the engine uses it *)

(** The objects appended to the part. *)
Inductive element (P : Type) : Type :=
  | MetronomeMark (number : Z)
  | TimeSignature (value : string)
  | Key (tonic mode : string)
  | Chord (notes : list P) (quarterLength : float)
  | Note (p : P) (quarterLength : float).

Arguments MetronomeMark {P} number.
Arguments TimeSignature {P} value.
Arguments Key {P} tonic mode.
Arguments Chord {P} notes quarterLength.
Arguments Note {P} p quarterLength.

(** What [except Exception as e] catches: the class and [str(e)]. *)
Record exception := Exception { exc_class : string; exc_str : string }.

Inductive result (A : Type) : Type :=
  | Ok (a : A)
  | Raise (e : exception).

Arguments Ok {A} a.
Arguments Raise {A} e.

Class Music21 := {
  pitch : Type;
  (** [key.Key(tonic, 'major').getPitches()] *)
  getPitches : string -> list pitch;
  (** [p.transpose(interval)] *)
  transpose : pitch -> string -> pitch;
  (** [midi.translate.streamToMidiFile(score)], and the bytes [write()] produces *)
  streamToMidiFile : list (element pitch) -> result (list Byte.byte)
}.

(** ** Python's own [int]

    [int(text)] on a [str] belongs to the interpreter: which texts it reads
    (signs, underscores, white space, the decimal digits of every script, a
    limit on the number of digits) and what its ValueError says vary with the
    interpreter, and the window's code depends on none of it.  On a [str] it
    raises nothing but ValueError: [int_str] gives the value, or [str] of that
    error. *)
Class Builtins := {
  int_str : string -> Z + string
}.

(** ** The world the engine runs in *)

Inductive signal : Type :=
  | progress_changed (percent : Z)
  | finished (path : string)
  | error (msg : string).

Inductive syscall : Type :=
  | SysOpen (path : string)
  | SysWrite (path : string)
  | SysClose (path : string)
  | SysReplace (src dst : string).

Inductive effect (P : Type) : Type :=
  | Emit (sg : signal)
  | Append (e : element P)
  | Sys (c : syscall).

Arguments Emit {P} sg.
Arguments Append {P} e.
Arguments Sys {P} c.

(** The steps of the export at which the operating system may refuse:
    [tempfile.gettempdir()] and the four file operations. *)
Inductive io_step : Type := AtTempdir | AtOpen | AtWrite | AtClose | AtReplace.

Definition io_step_eqb (a b : io_step) : bool :=
  match a, b with
  | AtTempdir, AtTempdir
  | AtOpen, AtOpen | AtWrite, AtWrite | AtClose, AtClose | AtReplace, AtReplace => true
  | _, _ => false
  end.

(** The files of the machine.  A name is a directory entry; a file is what
    a name leads to and what holds a content.  Several names may lead to
    one file: hard links, and a symbolic link, which is held as one more
    name of the file it leads to. *)
Record file_system := FileSystem {
  names : gmap string string;               (* the names that exist, and the file of each *)
  contents : gmap string (list Byte.byte)   (* the content of each file *)
}.

Section Model.
Context `{m21 : Music21} `{py : Builtins}.

(** Whether a call of the export fails, and with what message, is not the
    program's to say: a missing or unwritable directory, a destination that
    is empty, ends in a slash or lies under a regular file or on another
    device, a full disk, a [write()] that music21 gives up.  The world holds
    the answer in [io_fault], the model derives none of it from the paths,
    and a call that is not refused has its effect.  Which name a path stands
    for, once the directories on its way are resolved, is the world's as
    well ([entry_at]): two spellings of one path are one name. *)
Record state := State {
  rand : nat -> N;                        (* what [random] will draw, in order *)
  drawn : nat;                            (* how many draws were consumed *)
  dirs : gset string;                     (* the directories that exist *)
  files : file_system;                    (* the names and the files that exist *)
  entry_at : string -> string;            (* the name a path stands for *)
  new_file : string -> string;            (* the file made when a name leading to none is opened *)
  io_fault : option (io_step * string);   (* the step refused, and [str] of its error *)
  spill : nat;                            (* bytes on disk if the write or the close fails *)
  tempdir : string;                       (* what [tempfile.gettempdir()] returns *)
  part : list (element pitch);            (* the [stream.Part] being built *)
  trace : list (effect pitch)             (* everything observable, oldest first *)
}.

Definition set_drawn (n : nat) (s : state) : state :=
  State (rand s) n (dirs s) (files s) (entry_at s) (new_file s) (io_fault s) (spill s)
        (tempdir s) (part s) (trace s).
Definition set_files (f : file_system) (s : state) : state :=
  State (rand s) (drawn s) (dirs s) f (entry_at s) (new_file s) (io_fault s) (spill s)
        (tempdir s) (part s) (trace s).
Definition set_part (p : list (element pitch)) (s : state) : state :=
  State (rand s) (drawn s) (dirs s) (files s) (entry_at s) (new_file s) (io_fault s) (spill s)
        (tempdir s) p (trace s).
Definition log (e : effect pitch) (s : state) : state :=
  State (rand s) (drawn s) (dirs s) (files s) (entry_at s) (new_file s) (io_fault s) (spill s)
        (tempdir s) (part s) (trace s ++ [e]).

(** Computations that read and change the state and may raise. *)
Definition action (A : Type) : Type := state -> result A * state.

Definition ret {A : Type} (a : A) : action A := fun s => (Ok a, s).
Definition raise {A : Type} (cls msg : string) : action A := fun s => (Raise (Exception cls msg), s).
Definition bind {A B : Type} (m : action A) (k : A -> action B) : action B :=
  fun s => match m s with
           | (Ok a, s') => k a s'
           | (Raise e, s') => (Raise e, s')
           end.

Notation "x <- m ;; k" := (bind m (fun x => k))
  (at level 100, m at next level, right associativity).
Notation "m ;; k" := (bind m (fun _ => k))
  (at level 100, right associativity).

(** [for x in l: body]. *)
Fixpoint for_each {A : Type} (l : list A) (body : A -> action unit) : action unit :=
  match l with
  | [] => ret tt
  | x :: l' => body x ;; for_each l' body
  end.

(** [l[i]]; a negative index counts from the end. *)
Definition index {A : Type} (l : list A) (i : Z) : action A :=
  let j := if i <? 0 then i + Z.of_nat (List.length l) else i in
  match (if j <? 0 then None else nth_error l (Z.to_nat j)) with
  | Some a => ret a
  | None => raise "IndexError" "list index out of range"
  end.

(** *** The [random] module *)

Definition draw : action N := fun s => (Ok (rand s (drawn s)), set_drawn (S (drawn s)) s).

Definition random_choice {A : Type} (l : list A) : action A :=
  match l with
  | [] => raise "IndexError" "Cannot choose from an empty sequence"
  | a :: _ => n <- draw ;; ret (nth (N.to_nat (n mod N.of_nat (List.length l))) l a)
  end.

(** [random.random()]: a multiple of [2 ^ -53] in [[0, 1)]. *)
Definition random_random : action float :=
  n <- draw ;; ret (Qred (Z.of_N n mod 2 ^ 53 # 2 ^ 53)).

Definition random_randint (a b : Z) : action Z :=
  n <- draw ;; ret (a + Z.of_N n mod (b - a + 1)).

(** *** Signals and the part *)

Definition emit (sg : signal) : action unit := fun s => (Ok tt, log (Emit sg) s).

Definition part_append (e : element pitch) : action unit :=
  fun s => (Ok tt, log (Append e) (set_part (part s ++ [e]) s)).

(** *** Files *)

Definition syscall_at (step : io_step) (c : syscall) : action unit :=
  fun s =>
    let s' := log (Sys c) s in
    match io_fault s with
    | Some (step', msg) =>
        if io_step_eqb step step' then (Raise (Exception "OSError" msg), s') else (Ok tt, s')
    | None => (Ok tt, s')
    end.

Definition no_such_file (what : string) : exception :=
  Exception "FileNotFoundError" ("[Errno 2] No such file or directory: " +:+ what).

(** [tempfile.gettempdir()]: the directory, unless the machine has none that
    can be used. *)
Definition gettempdir : action string :=
  fun s =>
    match io_fault s with
    | Some (AtTempdir, msg) => (Raise (Exception "FileNotFoundError" msg), s)
    | _ => (Ok (tempdir s), s)
    end.

(** The file a path leads to, or will lead to once it is opened for
    writing. *)
Definition file_at (s : state) (path : string) : string :=
  default (new_file s (entry_at s path)) (names (files s) !! entry_at s path).

(** What reading a path gives; [None] where the path leads to no file. *)
Definition read_file (s : state) (path : string) : option (list Byte.byte) :=
  match names (files s) !! entry_at s path with
  | Some file => contents (files s) !! file
  | None => None
  end.

Definition write_to (file : string) (data : list Byte.byte) (fs : file_system) : file_system :=
  FileSystem (names fs) (<[file := data]> (contents fs)).

(** [midi_file.open(path, 'wb')]: the file the path leads to is emptied; where
    the path leads to none, one is made under its name. *)
Definition file_open_wb (path : string) : action unit :=
  syscall_at AtOpen (SysOpen path) ;;
  fun s => (Ok tt, set_files (FileSystem (<[entry_at s path := file_at s path]>
                                            (names (files s)))
                                         (<[file_at s path := []]> (contents (files s)))) s).

(** [midi_file.write()] on a buffered file: refused or not, the file holds
    the first [spill] bytes of the data until the close completes it. *)
Definition file_write (path : string) (data : list Byte.byte) : action unit :=
  fun s =>
    syscall_at AtWrite (SysWrite path)
      (set_files (write_to (file_at s path) (take (spill s) data) (files s)) s).

(** [midi_file.close()] flushes the rest; a refusal leaves the file as the
    write left it. *)
Definition file_close (path : string) (data : list Byte.byte) : action unit :=
  syscall_at AtClose (SysClose path) ;;
  fun s => (Ok tt, set_files (write_to (file_at s path) data (files s)) s).

(** [os.replace(src, dst)], an atomic rename: the name of the destination
    is given to the file of the source, whatever it led to before, and the
    name of the source is no more.  No content changes; the file the
    destination led to keeps its content under the other names it has, and
    where it has none it stays in [contents], out of reach of every path.
    (Where the two names lead to one file already, what the system does
    depends on how they do: for two hard links it does nothing.  The
    properties below that speak of a completed export are stated for a
    destination that does not lead to the staging file.) *)
Definition os_replace (src dst : string) : action unit :=
  syscall_at AtReplace (SysReplace src dst) ;;
  fun s =>
    match names (files s) !! entry_at s src with
    | None => (Raise (no_such_file ("'" +:+ src +:+ "' -> '" +:+ dst +:+ "'")), s)
    | Some file =>
        (Ok tt, set_files (FileSystem (<[entry_at s dst := file]>
                                         (delete (entry_at s src) (names (files s))))
                                      (contents (files s))) s)
    end.

(** ** GeneratorWorker *)

Record GeneratorWorker := Worker {
  tempo : Z;
  pattern : string;
  length : Z;
  save_path : string;
  crazy : Z
}.

(** [GeneratorWorker.__init__] *)
Definition init (tempo_bpm : Z) (pattern_type : string) (length_sec : Z)
    (save_path : string) (craziness : Z) : GeneratorWorker :=
  {| tempo := tempo_bpm;
     pattern := pattern_type;
     length := Z.min length_sec 60;
     save_path := save_path;
     crazy := Z.max (-10) (Z.min 10 craziness) |}.

Definition possible_keys : list string := ["C"; "D"; "E"; "F"; "G"; "A"; "B"]%string.

(** [beats_needed = self.length * self.tempo / 60.0] *)
Definition beats_needed (self : GeneratorWorker) : option float :=
  option_map (fun x => fdiv x 60%Q) (float_of_int (length self * tempo self)).

(** [measures = int(beats_needed // 4) + 1] *)
Definition measures_of (beats : float) : Z := int_of_float (float_floordiv beats 4%Q) + 1.

Definition measure_count (self : GeneratorWorker) : option Z :=
  option_map measures_of (beats_needed self).

(** [percent = int(i / measures * 100)] *)
Definition percent_of (i measures : Z) : Z :=
  int_of_float (fmul (int_truediv i measures) 100%Q).

(** [base_len = {'PAD':4,'CHORD':2,'BRASS':2}.get(self.pattern,1)] *)
Definition base_len (pattern : string) : Z :=
  dict_get {[ "PAD"%string := 4; "CHORD"%string := 2; "BRASS"%string := 2 ]} pattern 1.

(** [length_factor = 1 + (-self.crazy/20)] *)
Definition length_factor (crazy : Z) : float := fadd 1%Q (int_truediv (- crazy) 20).

(** [max(0.25, base_len * length_factor)] *)
Definition chord_quarterLength (pattern : string) (crazy : Z) : float :=
  py_max (1 # 4)%Q (fmul (inject_Z (base_len pattern)) (length_factor crazy)).

(** The note length of lines 93 to 97. *)
Definition note_duration (crazy : Z) : float :=
  if 0 <=? crazy then fdiv 1%Q (fadd 1%Q (int_truediv crazy 10))
  else fmul 1%Q (fadd 1%Q (int_truediv (Z.abs crazy) 10)).

Definition note_quarterLength (crazy : Z) : float := py_max (1 # 8)%Q (note_duration crazy).

(** [count = {'ARP':3,'PLUCK':4,'RAND': random.randint(2,6)}.get(self.pattern,2)]:
    the dict display draws from [random] whatever the pattern is. *)
Definition note_count (pattern : string) : action Z :=
  r <- random_randint 2 6 ;;
  ret (dict_get {[ "ARP"%string := 3; "PLUCK"%string := 4; "RAND"%string := r ]} pattern 2).

(** The body of [for idx in range(count)]. *)
Definition melody_note (self : GeneratorWorker) (ks : string) (chord_notes : list pitch)
    (idx : Z) : action unit :=
  p <- (if String.eqb (pattern self) "ARP" then
          index chord_notes (idx mod Z.of_nat (List.length chord_notes))
        else if String.eqb (pattern self) "PLUCK" then random_choice chord_notes
        else random_choice (getPitches ks)) ;;
  part_append (Note p (note_quarterLength (crazy self))).

(** The accent of lines 78 to 81; [and] draws only when [self.crazy > 5]. *)
Definition accent (self : GeneratorWorker) (chord_notes : list pitch) : action unit :=
  if 5 <? crazy self then
    r <- random_random ;;
    if Qlt_le_dec r (int_truediv (crazy self - 5) 10)
    then part_append (Chord chord_notes (1 # 2)%Q)
    else ret tt
  else ret tt.

(** The body of [for i in range(measures)]. *)
Definition measure (self : GeneratorWorker) (ks : string) (measures i : Z) : action unit :=
  emit (progress_changed (percent_of i measures)) ;;
  degree <- random_choice [1; 4; 5] ;;
  root <- index (getPitches ks) (degree - 1) ;;
  let chord_notes := [root; transpose root "M3"; transpose root "P5"] in
  part_append (Chord chord_notes (chord_quarterLength (pattern self) (crazy self))) ;;
  accent self chord_notes ;;
  count <- note_count (pattern self) ;;
  for_each (range count) (melody_note self ks chord_notes).

Definition tmp_path (s : state) : string := path_join (tempdir s) "midgen_temp.mid".

(** Lines 103 to 108. *)
Definition export (self : GeneratorWorker) : action unit :=
  fun s =>
    match streamToMidiFile (part s) with
    | Raise e => (Raise e, s)
    | Ok data =>
        (dir <- gettempdir ;;
         let tmp_path := path_join dir "midgen_temp.mid" in
         file_open_wb tmp_path ;;
         file_write tmp_path data ;;
         file_close tmp_path data ;;
         os_replace tmp_path (save_path self)) s
    end.

(** The [try] block of [run], from line 49 on.  The constructors of lines
    49 to 57 are taken to return.  music21 reads the number of a tempo mark
    as a float, so this covers every tempo that fits one. *)
Definition generate (self : GeneratorWorker) : action unit :=
  (fun s => (Ok tt, set_part [] s)) ;;
  part_append (MetronomeMark (tempo self)) ;;
  part_append (TimeSignature "4/4") ;;
  ks <- random_choice possible_keys ;;
  part_append (Key ks "major") ;;
  measures <- (match measure_count self with
               | Some m => ret m
               | None => raise "OverflowError" "int too large to convert to float"
               end) ;;
  for_each (range measures) (measure self ks measures) ;;
  emit (progress_changed 100) ;;
  export self ;;
  emit (finished (save_path self)).

(** [GeneratorWorker.run] *)
Definition run (self : GeneratorWorker) (s : state) : state :=
  match generate self s with
  | (Ok _, s') => s'
  | (Raise e, s') => log (Emit (error (exc_str e))) s'
  end.

(** ** Reading a trace *)

Definition signals_of (t : list (effect pitch)) : list signal :=
  omap (fun e => match e with Emit sg => Some sg | _ => None end) t.

Definition elements_of (t : list (effect pitch)) : list (element pitch) :=
  omap (fun e => match e with Append x => Some x | _ => None end) t.

Definition syscalls_of (t : list (effect pitch)) : list syscall :=
  omap (fun e => match e with Sys c => Some c | _ => None end) t.

(** The progress values among the signals. *)
Definition progress_of (t : list (effect pitch)) : list Z :=
  omap (fun sg => match sg with progress_changed v => Some v | _ => None end) (signals_of t).

(** The paths opened for writing. *)
Definition staged (t : list (effect pitch)) : list string :=
  omap (fun c => match c with SysOpen p => Some p | _ => None end) (syscalls_of t).

(** What happened between two states of one history. *)
Definition since (s s' : state) : list (effect pitch) :=
  drop (List.length (trace s)) (trace s').

(** [extends s s' l]: from [s] to [s'] the engine logged [l], appended to the
    part the elements of [l], possibly drew from [random], and touched
    nothing else. *)
Record extends (s s' : state) (l : list (effect pitch)) : Prop := {
  ext_rand : rand s' = rand s;
  ext_dirs : dirs s' = dirs s;
  ext_files : files s' = files s;
  ext_fault : io_fault s' = io_fault s;
  ext_tempdir : tempdir s' = tempdir s;
  ext_trace : trace s' = trace s ++ l;
  ext_part : part s' = part s ++ elements_of l;
  ext_entry_at : entry_at s' = entry_at s;
  ext_spill : spill s' = spill s;
  ext_new_file : new_file s' = new_file s
}.

(** [io_extends s s' calls]: from [s] to [s'] the engine issued [calls]; the
    files may have changed, the rest has not. *)
Record io_extends (s s' : state) (calls : list syscall) : Prop := {
  io_rand : rand s' = rand s;
  io_drawn : drawn s' = drawn s;
  io_dirs : dirs s' = dirs s;
  io_io_fault : io_fault s' = io_fault s;
  io_tempdir : tempdir s' = tempdir s;
  io_part : part s' = part s;
  io_trace : trace s' = trace s ++ map Sys calls;
  io_entry_at : entry_at s' = entry_at s;
  io_spill : spill s' = spill s;
  io_new_file : new_file s' = new_file s
}.

(** The triad built on a root (line 70). *)
Definition triad (root : pitch) : list pitch :=
  [root; transpose root "M3"; transpose root "P5"].

(** The trace of one iteration of the measure loop: the progress signal,
    then the elements appended. *)
Definition measure_trace (measures i : Z) (evs : list (element pitch)) : list (effect pitch) :=
  Emit (progress_changed (percent_of i measures)) :: map Append evs.

Definition loop_trace (measures : Z) (idxs : list Z) (blocks : list (list (element pitch)))
    : list (effect pitch) :=
  concat (zip_with (measure_trace measures) idxs blocks).

Definition header (self : GeneratorWorker) (ks : string) : list (effect pitch) :=
  [Append (MetronomeMark (tempo self)); Append (TimeSignature "4/4"); Append (Key ks "major")].

(** The pitch a melody note may take, by pattern (lines 86 to 91). *)
Definition pitch_ok (self : GeneratorWorker) (ks : string) (chord_notes : list pitch)
    (idx : Z) (p : pitch) : Prop :=
  if String.eqb (pattern self) "ARP" then
    nth_error chord_notes (Z.to_nat (idx mod Z.of_nat (List.length chord_notes))) = Some p
  else if String.eqb (pattern self) "PLUCK" then p ∈ chord_notes
  else p ∈ getPitches ks.

(** The values line 84 can give to [count]. *)
Definition note_count_ok (pattern : string) (count : Z) : Prop :=
  exists r, 2 <= r <= 6 /\
    count = dict_get {[ "ARP"%string := 3; "PLUCK"%string := 4; "RAND"%string := r ]} pattern 2.

(** What one iteration of the measure loop appends to the part: nothing when
    the root cannot be read from the scale, and otherwise the chord, the
    accent if any, and the melody. *)
Inductive measure_events (self : GeneratorWorker) (ks : string)
    : result unit -> list (element pitch) -> Prop :=
  | measure_failed (e : exception) : measure_events self ks (Raise e) []
  | measure_played (root : pitch) (acc : list (element pitch)) (count : Z) (ps : list pitch) :
      root ∈ getPitches ks ->
      acc = [] \/ (5 < crazy self /\ acc = [Chord (triad root) (1 # 2)%Q]) ->
      note_count_ok (pattern self) count ->
      Forall2 (pitch_ok self ks (triad root)) (range count) ps ->
      measure_events self ks (Ok tt)
        (Chord (triad root) (chord_quarterLength (pattern self) (crazy self))
           :: acc ++ map (fun p => Note p (note_quarterLength (crazy self))) ps).

(** The files after a complete export: the staging file holds the data and
    has the name of the destination, not its own. *)
Definition exported (staging_name name file : string) (data : list Byte.byte)
    (fs : file_system) : file_system :=
  FileSystem (<[name := file]> (delete staging_name (names fs)))
             (<[file := data]> (contents fs)).

(** From the opening to the closing the staging path has its name and its
    file, whose content alone changes. *)
Definition staging (s s' : state) (path : string) (data : list Byte.byte) : Prop :=
  files s' = FileSystem (<[entry_at s path := file_at s path]> (names (files s)))
                        (<[file_at s path := data]> (contents (files s))).

(** What an export that fails may leave changed: the name and the file of
    the staging path, nothing else. *)
Definition staging_only (s s' : state) : Prop :=
  (forall name, name <> entry_at s (tmp_path s) ->
                names (files s') !! name = names (files s) !! name) /\
  (forall file, file <> file_at s (tmp_path s) ->
                contents (files s') !! file = contents (files s) !! file).

(** The file operations of a complete export, in order. *)
Definition export_calls (self : GeneratorWorker) (s : state) : list syscall :=
  [SysOpen (tmp_path s); SysWrite (tmp_path s); SysClose (tmp_path s);
   SysReplace (tmp_path s) (save_path self)].

(** The three ways a run can go, with the history each leaves behind:
    the beat count does not fit a float; a measure fails; or every measure
    is generated and the export is attempted. *)
Inductive run_outcome (self : GeneratorWorker) (s s' : state) : Prop :=
  | run_overflow (ks : string) :
      ks ∈ possible_keys ->
      measure_count self = None ->
      trace s' = trace s ++ header self ks
                   ++ [Emit (error "int too large to convert to float")] ->
      files s' = files s ->
      dirs s' = dirs s ->
      entry_at s' = entry_at s ->
      run_outcome self s s'
  | run_measure_failed (ks : string) (measures : Z) (played : list (list (element pitch)))
        (msg : string) :
      ks ∈ possible_keys ->
      measure_count self = Some measures ->
      (List.length played < List.length (range measures))%nat ->
      Forall (measure_events self ks (Ok tt)) played ->
      trace s' = trace s ++ header self ks
                   ++ loop_trace measures (range measures) (played ++ [[]])
                   ++ [Emit (error msg)] ->
      files s' = files s ->
      dirs s' = dirs s ->
      entry_at s' = entry_at s ->
      run_outcome self s s'
  | run_exported (ks : string) (measures : Z) (blocks : list (list (element pitch)))
        (n : nat) (last : signal) :
      ks ∈ possible_keys ->
      measure_count self = Some measures ->
      List.length blocks = List.length (range measures) ->
      Forall (measure_events self ks (Ok tt)) blocks ->
      trace s' = trace s ++ header self ks
                   ++ loop_trace measures (range measures) blocks
                   ++ Emit (progress_changed 100)
                   :: map Sys (take n (export_calls self s)) ++ [Emit last] ->
      part s' = elements_of (header self ks ++ loop_trace measures (range measures) blocks) ->
      dirs s' = dirs s ->
      entry_at s' = entry_at s ->
      (last = finished (save_path self) /\ n = 4%nat /\
       io_fault s = None /\
       exists data, streamToMidiFile (part s') = Ok data /\
                    files s' = exported (entry_at s (tmp_path s))
                                 (entry_at s (save_path self))
                                 (file_at s (tmp_path s)) data (files s))
      \/ (exists msg, last = error msg /\ staging_only s s') ->
      run_outcome self s s'.

(** ** The formulas of the specification, in exact arithmetic *)

(** Base length by pattern type: PAD 4, CHORD 2, BRASS 2, all others 1. *)
Definition spec_base_length (pattern : string) : Z :=
  if String.eqb pattern "PAD" then 4
  else if String.eqb pattern "CHORD" then 2
  else if String.eqb pattern "BRASS" then 2
  else 1.

(** [max(0.25, baseLength * (1 + (-craziness/20)))] *)
Definition spec_chord_duration (pattern : string) (craziness : Z) : Q :=
  Qmax (1 # 4) (inject_Z (spec_base_length pattern) * (1 + - inject_Z craziness / 20)).

(** [1 / (1 + craziness/10)] from 0 up, [1 * (1 + |craziness|/10)] below,
    and the floor 0.125. *)
Definition spec_note_duration (craziness : Z) : Q :=
  Qmax (1 # 8) (if 0 <=? craziness then 1 / (1 + inject_Z craziness / 10)
                else 1 * (1 + inject_Z (Z.abs craziness) / 10)).

(** The floors of the data model: chords at least 0.25, notes at least 0.125. *)
Definition duration_floor (e : element pitch) : Prop :=
  match e with
  | Chord _ d => (1 # 4 <= d)%Q
  | Note _ d => (1 # 8 <= d)%Q
  | _ => True
  end.

(** The values of craziness after clamping. *)
Definition crazy_values : list Z := map (fun n => Z.of_nat n - 10) (seq 0 21).

(** ** MainWindow *)

Inductive dialog : Type :=
  | warning (title text : string)
  | information (title text : string)
  | critical (title text : string).

Record MainWindow := Window {
  tempo_input : string;
  type_combo : string;
  length_input : string;
  crazy_slider : Z;
  save_path_edit : string;
  btn_generate_enabled : bool;
  progress_bar : Z;
  percent_label : string;
  dialogs : list dialog;               (* the message boxes shown, oldest first *)
  worker : option GeneratorWorker
}.

Definition show (d : dialog) (w : MainWindow) : MainWindow :=
  Window (tempo_input w) (type_combo w) (length_input w) (crazy_slider w) (save_path_edit w)
         (btn_generate_enabled w) (progress_bar w) (percent_label w) (dialogs w ++ [d])
         (worker w).
Definition set_enabled (b : bool) (w : MainWindow) : MainWindow :=
  Window (tempo_input w) (type_combo w) (length_input w) (crazy_slider w) (save_path_edit w)
         b (progress_bar w) (percent_label w) (dialogs w) (worker w).
Definition set_progress (v : Z) (w : MainWindow) : MainWindow :=
  Window (tempo_input w) (type_combo w) (length_input w) (crazy_slider w) (save_path_edit w)
         (btn_generate_enabled w) v (pretty v +:+ "%") (dialogs w) (worker w).
Definition set_worker (g : GeneratorWorker) (w : MainWindow) : MainWindow :=
  Window (tempo_input w) (type_combo w) (length_input w) (crazy_slider w) (save_path_edit w)
         (btn_generate_enabled w) (progress_bar w) (percent_label w) (dialogs w) (Some g).

(** The [try] block of [start_generation]: tempo, length and destination,
    or the ValueError raised, be it by [int] or by one of the two checks. *)
Definition read_inputs (w : MainWindow) : result (Z * Z * string) :=
  match int_str (tempo_input w) with
  | inr msg => Raise (Exception "ValueError" msg)
  | inl tempo =>
      match int_str (length_input w) with
      | inr msg => Raise (Exception "ValueError" msg)
      | inl length =>
          if (length <? 1) || (60 <? length)
          then Raise (Exception "ValueError" "Length out of range")
          else if String.eqb (save_path_edit w) ""
          then Raise (Exception "ValueError" "No save path specified")
          else Ok (tempo, length, save_path_edit w)
      end
  end.

(** The slots connected to the worker's signals. *)
Definition deliver (sg : signal) (w : MainWindow) : MainWindow :=
  match sg with
  | progress_changed val => set_progress val w
  | finished path =>
      set_enabled true (show (information "Done" ("MIDI saved to:" +:+ String "010" path)) w)
  | error msg => set_enabled true (show (critical "Error" msg) w)
  end.

(** [MainWindow.start_generation], the worker's thread run to its end and
    its signals delivered in the order of emission. *)
Definition start_generation (w : MainWindow) (s : state) : MainWindow * state :=
  match read_inputs w with
  | Raise e => (show (warning "Input Error" (exc_str e)) w, s)
  | Ok (tempo, length, save_to) =>
      let g := init tempo (type_combo w) length save_to (crazy_slider w) in
      let s' := run g s in
      let emitted := signals_of (since s s') in
      (foldl (fun w sg => deliver sg w) (set_worker g (set_enabled false w)) emitted, s')
  end.

(** ** The measure, with the scale degree of its chord *)

(** One iteration of the measure loop seen with the degree drawn at line 68:
    the root is the pitch at index [degree - 1] of the scale; where the scale
    has no such index the iteration raises IndexError and appends nothing. *)
Inductive measure_detail (self : GeneratorWorker) (ks : string)
    : result unit -> list (element pitch) -> Prop :=
  | detail_failed (degree : Z) :
      degree ∈ [1; 4; 5] ->
      nth_error (getPitches ks) (Z.to_nat (degree - 1)) = None ->
      measure_detail self ks (Raise (Exception "IndexError" "list index out of range")) []
  | detail_played (degree : Z) (root : pitch) (rest : list (element pitch)) :
      degree ∈ [1; 4; 5] ->
      nth_error (getPitches ks) (Z.to_nat (degree - 1)) = Some root ->
      measure_events self ks (Ok tt)
        (Chord (triad root) (chord_quarterLength (pattern self) (crazy self)) :: rest) ->
      measure_detail self ks (Ok tt)
        (Chord (triad root) (chord_quarterLength (pattern self) (crazy self)) :: rest).

(** ** The draws a measure takes from [random] *)

Definition notes_in (evs : list (element pitch)) : nat :=
  List.length (List.filter (fun e => match e with Note _ _ => true | _ => false end) evs).

(** A measure that appends nothing stopped after the draw of its degree.
    Otherwise it drew the degree, the chance of an accent when the craziness
    is above 5, the [randint] of line 84 whatever the pattern, and one pitch
    per melody note unless the pattern is ARP. *)
Definition draws_of (self : GeneratorWorker) (evs : list (element pitch)) : nat :=
  match evs with
  | [] => 1
  | _ :: _ => (2 + (if (5 <? crazy self)%Z then 1 else 0)
                 + (if String.eqb (pattern self) "ARP" then 0 else notes_in evs))%nat
  end.

(** The key [random.choice(possible_keys)] picks on a draw. *)
Definition key_of_draw (n : N) : string := nth (N.to_nat (n mod 7)) possible_keys "C"%string.

(** ** [MainWindow.browse_file] *)

(** [str.lower] on ASCII letters; other bytes are kept, which is all the
    test against ['.mid'] can see. *)
Definition ascii_lower (c : ascii) : ascii :=
  let n := nat_of_ascii c in
  if ((65 <=? n) && (n <=? 90))%nat then ascii_of_nat (n + 32) else c.

Definition lower (s : string) : string :=
  string_of_list_ascii (map ascii_lower (list_ascii_of_string s)).

Fixpoint starts_with (l prefix : list ascii) : bool :=
  match prefix, l with
  | [], _ => true
  | p :: prefix', c :: l' => Ascii.eqb p c && starts_with l' prefix'
  | _ :: _, [] => false
  end.

(** [s.endswith(suffix)] *)
Definition endswith (s suffix : string) : bool :=
  starts_with (rev (list_ascii_of_string s)) (rev (list_ascii_of_string suffix)).

Definition set_save_path (path : string) (w : MainWindow) : MainWindow :=
  Window (tempo_input w) (type_combo w) (length_input w) (crazy_slider w) path
         (btn_generate_enabled w) (progress_bar w) (percent_label w) (dialogs w) (worker w).

(** [MainWindow.browse_file]; [chosen] is the path the save dialog returns,
    empty when the dialog is cancelled. *)
Definition browse_file (chosen : string) (w : MainWindow) : MainWindow :=
  if String.eqb chosen "" then w
  else set_save_path (if endswith (lower chosen) ".mid" then chosen else chosen +:+ ".mid") w.

(** ** What the properties of the engine are stated with *)

(** The lengths a worker made by [__init__] can give: chords from 0.5 to 6
    quarter notes, notes from 0.5 to 2. *)
Definition duration_range (e : element pitch) : Prop :=
  match e with
  | Chord _ d => (1 # 2 <= d <= 6)%Q
  | Note _ d => (1 # 2 <= d <= 2)%Q
  | _ => True
  end.

(** The number of melody notes of a measure, by pattern (line 84). *)
Definition melody_size_ok (pat : string) (n : nat) : Prop :=
  if String.eqb pat "ARP" then n = 3%nat
  else if String.eqb pat "PLUCK" then n = 4%nat
  else if String.eqb pat "RAND" then (2 <= n <= 6)%nat
  else n = 2%nat.

(** The pitches the melody of a measure is taken from (lines 86 to 91). *)
Definition pitch_pool (self : GeneratorWorker) (ks : string) (root : pitch) : list pitch :=
  if (String.eqb (pattern self) "ARP" || String.eqb (pattern self) "PLUCK")%bool
  then triad root else getPitches ks.

Definition is_note (e : element pitch) : Prop :=
  match e with Note _ _ => True | _ => False end.

(** The number of file operations begun when the operating system refuses
    at a step, and the files the export leaves behind then. *)
Definition calls_until (step : io_step) : nat :=
  match step with
  | AtTempdir => 0 | AtOpen => 1 | AtWrite => 2 | AtClose => 3 | AtReplace => 4
  end.

(** [name] and [file] are those of the staging path, [on_disk] how much of
    a write is on disk before the close. *)
Definition left_behind (step : io_step) (name file : string) (on_disk : nat)
    (data : list Byte.byte) (fs : file_system) : file_system :=
  match step with
  | AtTempdir | AtOpen => fs
  | AtWrite | AtClose =>
      FileSystem (<[name := file]> (names fs)) (<[file := take on_disk data]> (contents fs))
  | AtReplace =>
      FileSystem (<[name := file]> (names fs)) (<[file := data]> (contents fs))
  end.

(** How an export fails: at the serialization, before any file operation,
    or at the step that is refused, after [n] file operations were begun. *)
Definition export_failure (s s' : state) (e : exception) (n : nat) : Prop :=
  (streamToMidiFile (part s) = Raise e /\ n = 0%nat /\ files s' = files s) \/
  (exists data step,
      streamToMidiFile (part s) = Ok data /\
      io_fault s = Some (step, exc_str e) /\
      n = calls_until step /\
      files s' = left_behind step (entry_at s (tmp_path s)) (file_at s (tmp_path s))
                   (spill s) data (files s)).

(** Of the [2 ^ 53] values [random.random()] takes, the number below
    [(crazy - 5) / 10] as line 78 computes it. *)
Definition accent_threshold (crazy : Z) : Z :=
  Qceiling (int_truediv (crazy - 5) 10 * inject_Z (2 ^ 53)).

End Model.

(** ** A small music21 to run the model on

    Pitches are MIDI numbers; [getPitches] lists the major scale from the
    tonic in octave 4 up to the octave above, as music21 does. *)

Definition tonic_midi (tonic : string) : Z :=
  dict_get {[ "C"%string := 60; "D"%string := 62; "E"%string := 64; "F"%string := 65;
              "G"%string := 67; "A"%string := 69; "B"%string := 71 ]} tonic 60.

Definition element_tag (e : element Z) : Byte.byte :=
  match e with
  | MetronomeMark _ => Byte.x51
  | TimeSignature _ => Byte.x58
  | Key _ _ => Byte.x59
  | Chord _ _ => Byte.x91
  | Note _ _ => Byte.x90
  end.

Definition demo_music21 : Music21 := {|
  pitch := Z;
  getPitches := fun tonic => map (fun d => tonic_midi tonic + d) [0; 2; 4; 5; 7; 9; 11; 12];
  transpose := fun p interval =>
    if String.eqb interval "M3" then p + 4
    else if String.eqb interval "P5" then p + 7 else p;
  streamToMidiFile := fun els => Ok (map element_tag els)
|}.

(** A world with a temporary directory and a home directory, nothing in
    them, every path its own name and every new file called by its name,
    and an operating system that refuses nothing. *)
Definition demo_state (draws : nat -> N) : @state demo_music21 :=
  @State demo_music21 draws 0 {[ "/tmp"%string; "/home/u"%string ]} (FileSystem ∅ ∅)
    id id None 0 "/tmp" [] [].

Definition demo_draws (n : nat) : N :=
  (((N.of_nat n + 1) * 11400714819323198485) mod 2 ^ 64)%N.


(** A world in which the staging file exists already and holds one byte,
    and the disk is full: the write is refused with nothing on disk. *)
Definition clobber_state : @state demo_music21 :=
  @State demo_music21 demo_draws 0 {[ "/tmp"%string ]}
    (FileSystem {[ "/tmp/midgen_temp.mid"%string := "/tmp/midgen_temp.mid"%string ]}
                {[ "/tmp/midgen_temp.mid"%string := [Byte.x01] ]}) id id
    (Some (AtWrite, "[Errno 28] No space left on device"%string)) 0 "/tmp" [] [].

(** The same world, where the staging file has a second name in the home
    directory. *)
Definition linked_state : @state demo_music21 :=
  @State demo_music21 demo_draws 0 {[ "/tmp"%string; "/home/u"%string ]}
    (FileSystem {[ "/tmp/midgen_temp.mid"%string := "/tmp/midgen_temp.mid"%string;
                   "/home/u/out.mid"%string := "/tmp/midgen_temp.mid"%string ]}
                {[ "/tmp/midgen_temp.mid"%string := [Byte.x01] ]}) id id
    (Some (AtWrite, "[Errno 28] No space left on device"%string)) 0 "/tmp" [] [].

(** A music21 whose serialization fails. *)
Definition mute_music21 : Music21 := {|
  pitch := Z;
  getPitches := @getPitches demo_music21;
  transpose := @transpose demo_music21;
  streamToMidiFile := fun _ => Raise (Exception "MidiException" "cannot translate stream")
|}.

Definition mute_state : @state mute_music21 :=
  @State mute_music21 demo_draws 0 {[ "/tmp"%string; "/home/u"%string ]} (FileSystem ∅ ∅)
    id id None 0 "/tmp" [] [].

(** ** A small [int] to run the window on

    It reads ASCII text as CPython 3.12 does: white space around, one
    optional sign, decimal digits with single underscores between them, at
    most 4300 digits.  It knows no digits or white space outside ASCII and
    refuses a text that holds any.  The properties of the window are proved
    for every [Builtins]; this one serves the examples, on ASCII texts. *)

Definition is_space (c : ascii) : bool :=
  let n := nat_of_ascii c in ((9 <=? n) && (n <=? 13) || (n =? 32))%nat.

Definition digit_of (c : ascii) : option Z :=
  let n := Z.of_nat (nat_of_ascii c) in
  if (48 <=? n) && (n <=? 57) then Some (n - 48) else None.

Fixpoint lstrip (s : list ascii) : list ascii :=
  match s with
  | c :: s' => if is_space c then lstrip s' else s
  | [] => []
  end.

Definition strip (s : list ascii) : list ascii := rev (lstrip (rev (lstrip s))).

Fixpoint digits_value (acc : Z) (after_digit : bool) (s : list ascii) : option Z :=
  match s with
  | [] => if after_digit then Some acc else None
  | c :: s' =>
      match digit_of c with
      | Some d => digits_value (10 * acc + d) true s'
      | None =>
          if Ascii.eqb c "_" && after_digit then digits_value acc false s' else None
      end
  end.

Definition ascii_literal (text : string) : option Z :=
  match strip (list_ascii_of_string text) with
  | "-"%char :: s => option_map Z.opp (digits_value 0 false s)
  | "+"%char :: s => digits_value 0 false s
  | s => digits_value 0 false s
  end.

Definition digit_count (text : string) : nat :=
  List.length (List.filter (fun c => match digit_of c with Some _ => true | None => false end)
                 (list_ascii_of_string text)).

Definition hex_digit (n : nat) : ascii :=
  nth n (list_ascii_of_string "0123456789abcdef") "0"%char.

Definition backslash : ascii := ascii_of_nat 92.
Definition double_quote : ascii := ascii_of_nat 34.

(** [repr] of a character, inside the quote [q]. *)
Definition repr_char (q c : ascii) : list ascii :=
  let n := nat_of_ascii c in
  if Ascii.eqb c backslash then [backslash; backslash]
  else if Ascii.eqb c q then [backslash; q]
  else if (n =? 9)%nat then [backslash; "t"%char]
  else if (n =? 10)%nat then [backslash; "n"%char]
  else if (n =? 13)%nat then [backslash; "r"%char]
  else if ((n <? 32) || (n =? 127))%nat
  then [backslash; "x"%char; hex_digit (n / 16); hex_digit (n mod 16)]
  else [c].

(** [repr(text)] for a [str] of ASCII characters: double quotes when the text
    holds a single quote and no double one. *)
Definition repr (text : string) : string :=
  let l := list_ascii_of_string text in
  let has c := existsb (Ascii.eqb c) l in
  let q := if (has "'"%char && negb (has double_quote))%bool then double_quote else "'"%char in
  string_of_list_ascii (q :: flat_map (repr_char q) l ++ [q]).

Definition demo_int (text : string) : Z + string :=
  match ascii_literal text with
  | Some n =>
      if (4300 <? digit_count text)%nat
      then inr ("Exceeds the limit (4300 digits) for integer string conversion: value has "
                +:+ pretty (Z.of_nat (digit_count text))
                +:+ " digits; use sys.set_int_max_str_digits() to increase the limit")
      else inl n
  | None =>
      inr ("invalid literal for int() with base 10: "
           +:+ string_of_list_ascii (take 200 (list_ascii_of_string (repr text))))
  end.

Definition demo_builtins : Builtins := {| int_str := demo_int |}.

(** A window filled in for ten seconds at 120 beats per minute. *)
Definition demo_window : MainWindow :=
  Window "120" "RAND" "10" 7 "/home/u/out.mid" true 0 "0%" [] None.

(** * Properties *)

(** ** Binary64 rounding *)

Lemma pow2_pos (k : Z) : (0 < 2 ^ k)%Q.
Proof. apply Qpower_0_lt. reflexivity. Qed.

Lemma pow2_add (a b : Z) : (2 ^ (a + b) == 2 ^ a * 2 ^ b)%Q.
Proof. apply Qpower_plus. discriminate. Qed.

Lemma pow2_le (a b : Z) : a <= b -> (2 ^ a <= 2 ^ b)%Q.
Proof. intros H. apply Qpower_le_compat_l; [exact H | discriminate]. Qed.

Lemma pow2_lt (a b : Z) : a < b -> (2 ^ a < 2 ^ b)%Q.
Proof. intros H. apply Qpower_lt_compat_l; [exact H | reflexivity]. Qed.

Lemma pow2_Z (k : Z) : 0 <= k -> (2 ^ k == inject_Z (2 ^ k))%Q.
Proof. intros H. symmetry. exact (Zpower_Qpower 2 k H). Qed.

Lemma pow2_succ (k : Z) : (2 ^ (k + 1) == 2 * 2 ^ k)%Q.
Proof. rewrite pow2_add. change (2 ^ 1)%Q with 2%Q. ring. Qed.

Lemma ilog2_spec (x : Q) :
  (0 < x)%Q -> (2 ^ ilog2 x <= x)%Q /\ (x < 2 ^ (ilog2 x + 1))%Q.
Proof.
  intros Hx. destruct x as [n d].
  assert (Hn : 0 < n) by (unfold Qlt in Hx; simpl in Hx; lia).
  set (a := Z.log2 n). set (b := Z.log2 (Zpos d)).
  destruct (Z.log2_spec n Hn) as [Ha1 Ha2].
  destruct (Z.log2_spec (Zpos d) (Pos2Z.is_pos d)) as [Hb1 Hb2].
  fold a in Ha1, Ha2. fold b in Hb1, Hb2.
  assert (Ha0 : 0 <= a) by apply Z.log2_nonneg.
  assert (Hb0 : 0 <= b) by apply Z.log2_nonneg.
  assert (HxD : ((n # d) * inject_Z (Zpos d) == inject_Z n)%Q).
  { unfold Qeq, Qmult, inject_Z. simpl. lia. }
  assert (Qa1 : (2 ^ a <= inject_Z n)%Q).
  { rewrite pow2_Z by lia. rewrite <- Zle_Qle. exact Ha1. }
  assert (Qa2 : (inject_Z n < 2 ^ (a + 1))%Q).
  { rewrite (pow2_Z (a + 1)) by lia. rewrite <- Zlt_Qlt. exact Ha2. }
  assert (Qb1 : (2 ^ b <= inject_Z (Zpos d))%Q).
  { rewrite pow2_Z by lia. rewrite <- Zle_Qle. exact Hb1. }
  assert (Qb2 : (inject_Z (Zpos d) < 2 ^ (b + 1))%Q).
  { rewrite (pow2_Z (b + 1)) by lia. rewrite <- Zlt_Qlt. exact Hb2. }
  assert (Hup : (n # d < 2 ^ (a - b + 1))%Q).
  { assert (E : (2 ^ (a + 1) == 2 ^ (a - b + 1) * 2 ^ b)%Q).
    { rewrite <- pow2_add. f_equiv. lia. }
    pose proof (pow2_pos b). pose proof (pow2_pos (a - b + 1)).
    rewrite E in Qa2. nra. }
  assert (Hlo : (2 ^ (a - b - 1) < n # d)%Q).
  { assert (E : (2 ^ a == 2 ^ (a - b - 1) * 2 ^ (b + 1))%Q).
    { rewrite <- pow2_add. f_equiv. lia. }
    pose proof (pow2_pos (b + 1)). pose proof (pow2_pos (a - b - 1)).
    rewrite E in Qa1. nra. }
  unfold ilog2. cbn [Qnum Qden]. fold a b.
  destruct (Qle_bool (2 ^ (a - b)) (n # d)) eqn:T.
  - apply Qle_bool_iff in T. split; [exact T | exact Hup].
  - assert (T' : ~ (2 ^ (a - b) <= n # d)%Q).
    { intros C. apply Qle_bool_iff in C. congruence. }
    apply Qnot_le_lt in T'. split.
    + apply Qlt_le_weak. exact Hlo.
    + replace (a - b - 1 + 1) with (a - b) by lia. exact T'.
Qed.

Lemma ilog2_unique (x : Q) (e : Z) :
  (2 ^ e <= x)%Q -> (x < 2 ^ (e + 1))%Q -> ilog2 x = e.
Proof.
  intros H1 H2.
  assert (Hx : (0 < x)%Q) by (pose proof (pow2_pos e); lra).
  destruct (ilog2_spec x Hx) as [L1 L2].
  destruct (Z.lt_trichotomy (ilog2 x) e) as [C | [C | C]]; [ | exact C | ].
  - assert (2 ^ (ilog2 x + 1) <= 2 ^ e)%Q by (apply pow2_le; lia). lra.
  - assert (2 ^ (e + 1) <= 2 ^ ilog2 x)%Q by (apply pow2_le; lia). lra.
Qed.

Lemma ilog2_mono (x y : Q) : (0 < x)%Q -> (x <= y)%Q -> ilog2 x <= ilog2 y.
Proof.
  intros Hx Hxy.
  destruct (ilog2_spec x Hx) as [L1 _].
  destruct (ilog2_spec y) as [_ R2]; [lra | ].
  destruct (Z_le_gt_dec (ilog2 x) (ilog2 y)) as [C | C]; [exact C | ].
  assert (2 ^ (ilog2 y + 1) <= 2 ^ ilog2 x)%Q by (apply pow2_le; lia). lra.
Qed.

Lemma ilog2_comp (x y : Q) : (0 < x)%Q -> (x == y)%Q -> ilog2 x = ilog2 y.
Proof.
  intros Hx E. destruct (ilog2_spec x Hx) as [L1 L2].
  symmetry. apply ilog2_unique; rewrite <- E; assumption.
Qed.

Lemma rne_cases (x : Q) :
  let f := Qfloor x in
  (inject_Z f <= x)%Q /\ (x < inject_Z f + 1)%Q /\
  ((rne x = f /\ (x - inject_Z f <= 1 # 2)%Q) \/
   (rne x = f + 1 /\ (1 # 2 <= x - inject_Z f)%Q)).
Proof.
  intros f. pose proof (Qfloor_le x) as H1. pose proof (Qlt_floor x) as H2.
  fold f in H1, H2. rewrite inject_Z_plus in H2. change (inject_Z 1) with 1%Q in H2.
  split; [exact H1 | split; [exact H2 | ]].
  unfold rne. fold f.
  destruct (Qcompare_spec (x - inject_Z f) (1 # 2)) as [E | E | E].
  - destruct (Z.even f); [left | right]; split; try reflexivity; lra.
  - left. split; [reflexivity | lra].
  - right. split; [reflexivity | lra].
Qed.

Lemma rne_Z (n : Z) : rne (inject_Z n) = n.
Proof.
  unfold rne. rewrite Qfloor_Z.
  destruct (Qcompare_spec (inject_Z n - inject_Z n) (1 # 2)) as [E | E | E];
    [lra | reflexivity | lra].
Qed.

Lemma rne_comp (x y : Q) : (x == y)%Q -> rne x = rne y.
Proof.
  intros E. unfold rne. rewrite (Qfloor_comp x y E).
  assert (C : Qcompare (x - inject_Z (Qfloor y)) (1 # 2)
            = Qcompare (y - inject_Z (Qfloor y)) (1 # 2)) by (rewrite E; reflexivity).
  rewrite C. reflexivity.
Qed.

Lemma rne_mono (x y : Q) : (x <= y)%Q -> rne x <= rne y.
Proof.
  intros Hxy. pose proof (Qfloor_resp_le x y Hxy) as Hf.
  destruct (rne_cases x) as (X1 & X2 & X3). destruct (rne_cases y) as (Y1 & Y2 & Y3).
  destruct (Z.eq_dec (Qfloor x) (Qfloor y)) as [E | NE].
  - unfold rne. rewrite E in *.
    destruct (Qcompare_spec (x - inject_Z (Qfloor y)) (1 # 2)) as [A | A | A];
    destruct (Qcompare_spec (y - inject_Z (Qfloor y)) (1 # 2)) as [B | B | B];
    try destruct (Z.even (Qfloor y)); try lia; lra.
  - assert (Qfloor x + 1 <= Qfloor y) by lia.
    destruct X3 as [[-> _] | [-> _]]; destruct Y3 as [[-> _] | [-> _]]; lia.
Qed.

Lemma rne_err (x : Q) : (Qabs (inject_Z (rne x) - x) <= 1 # 2)%Q.
Proof.
  destruct (rne_cases x) as (X1 & X2 & [[-> X3] | [-> X3]]); apply Qabs_Qle_condition.
  - lra.
  - rewrite inject_Z_plus. change (inject_Z 1) with 1%Q. lra.
Qed.

Lemma rne_nonneg (x : Q) : (0 <= x)%Q -> 0 <= rne x.
Proof. intros H. change 0 with (rne (inject_Z 0)). apply rne_mono. exact H. Qed.

Lemma scaled_mul (x : Q) (s : Z) : (x / 2 ^ s * 2 ^ s == x)%Q.
Proof. pose proof (pow2_pos s). field. lra. Qed.

Lemma b64_pos_eq (x : Q) :
  (b64_pos x == inject_Z (rne (x / 2 ^ ulp_exp x)) * 2 ^ ulp_exp x)%Q.
Proof. unfold b64_pos. apply Qred_correct. Qed.

Lemma b64_pos_comp (x y : Q) : (0 < x)%Q -> (x == y)%Q -> b64_pos x = b64_pos y.
Proof.
  intros Hx E. unfold b64_pos, ulp_exp. rewrite (ilog2_comp x y Hx E).
  apply Qred_complete.
  rewrite (rne_comp (x / 2 ^ Z.max (ilog2 y - 52) (-1074)) (y / 2 ^ Z.max (ilog2 y - 52) (-1074)));
    [reflexivity | ].
  rewrite E. reflexivity.
Qed.

Lemma b64_pos_mono (x y : Q) : (0 < x)%Q -> (x <= y)%Q -> (b64_pos x <= b64_pos y)%Q.
Proof.
  intros Hx Hxy. assert (Hy : (0 < y)%Q) by lra.
  rewrite !b64_pos_eq.
  pose proof (ilog2_mono x y Hx Hxy) as Hl.
  destruct (ilog2_spec x Hx) as [X1 X2]. destruct (ilog2_spec y Hy) as [Y1 Y2].
  destruct (Z.eq_dec (ulp_exp x) (ulp_exp y)) as [E | NE].
  - rewrite E. pose proof (pow2_pos (ulp_exp y)) as P.
    assert (R : rne (x / 2 ^ ulp_exp y) <= rne (y / 2 ^ ulp_exp y)).
    { apply rne_mono. pose proof (scaled_mul x (ulp_exp y)). pose proof (scaled_mul y (ulp_exp y)).
      nra. }
    apply Qmult_le_compat_r; [ | lra]. rewrite <- Zle_Qle. exact R.
  - (* different binades: a power of two separates the two roundings *)
    assert (Hs : ulp_exp x < ulp_exp y /\ ulp_exp y = ilog2 y - 52 /\ ilog2 x < ilog2 y
                 /\ ilog2 x - 52 <= ulp_exp x)
      by (unfold ulp_exp in *; lia).
    destruct Hs as (Hs1 & Hs2 & Hs3 & Hsx).
    set (ex := ilog2 x) in *. set (ey := ilog2 y) in *.
    set (sx := ulp_exp x) in *. set (sy := ulp_exp y) in *.
    assert (D : (2 ^ (ex + 1) <= 2 ^ ey)%Q) by (apply pow2_le; lia).
    assert (A : (inject_Z (rne (x / 2 ^ sx)) * 2 ^ sx <= 2 ^ ey)%Q).
    { assert (K : 0 <= ey - sx) by lia.
      assert (E : (2 ^ ey == 2 ^ (ey - sx) * 2 ^ sx)%Q).
      { rewrite <- pow2_add. f_equiv. lia. }
      assert (B : rne (x / 2 ^ sx) <= 2 ^ (ey - sx)).
      { rewrite <- (rne_Z (2 ^ (ey - sx))). apply rne_mono.
        rewrite <- pow2_Z by exact K.
        pose proof (scaled_mul x sx). pose proof (pow2_pos sx).
        pose proof (pow2_pos (ey - sx)). nra. }
      rewrite Zle_Qle in B. rewrite <- pow2_Z in B by exact K.
      rewrite E. apply Qmult_le_compat_r; [exact B | ]. pose proof (pow2_pos sx). lra. }
    assert (C : (2 ^ ey <= inject_Z (rne (y / 2 ^ sy)) * 2 ^ sy)%Q).
    { assert (B : 2 ^ 52 <= rne (y / 2 ^ sy)).
      { rewrite <- (rne_Z (2 ^ 52)). apply rne_mono.
        rewrite <- pow2_Z by lia.
        assert (E : (2 ^ ey == 2 ^ 52 * 2 ^ sy)%Q).
        { rewrite <- pow2_add. f_equiv. lia. }
        pose proof (scaled_mul y sy). pose proof (pow2_pos sy).
        pose proof (pow2_pos 52). nra. }
      rewrite Zle_Qle in B. rewrite <- pow2_Z in B by lia.
      assert (E : (2 ^ ey == 2 ^ 52 * 2 ^ sy)%Q).
      { rewrite <- pow2_add. f_equiv. lia. }
      rewrite E. apply Qmult_le_compat_r; [exact B | ]. pose proof (pow2_pos sy). lra. }
    lra.
Qed.

Lemma b64_pos_nonneg (x : Q) : (0 < x)%Q -> (0 <= b64_pos x)%Q.
Proof.
  intros Hx. rewrite b64_pos_eq. pose proof (pow2_pos (ulp_exp x)) as P.
  apply Qmult_le_0_compat; [ | lra].
  change 0%Q with (inject_Z 0). rewrite <- Zle_Qle. apply rne_nonneg.
  pose proof (scaled_mul x (ulp_exp x)). nra.
Qed.

Lemma b64_0 : b64 0 = 0%Q.
Proof. reflexivity. Qed.

Lemma b64_of_pos (x : Q) : (0 < x)%Q -> b64 x = b64_pos x.
Proof.
  intros H. unfold b64. destruct (Qcompare_spec x 0) as [E | E | E]; [lra | lra | reflexivity].
Qed.

Lemma b64_of_neg (x : Q) : (x < 0)%Q -> b64 x = (- b64_pos (- x))%Q.
Proof.
  intros H. unfold b64. destruct (Qcompare_spec x 0) as [E | E | E]; [lra | reflexivity | lra].
Qed.

Lemma b64_comp (x y : Q) : (x == y)%Q -> b64 x = b64 y.
Proof.
  intros E. destruct (Qcompare_spec x 0) as [C | C | C].
  - unfold b64. rewrite <- E. 
    destruct (Qcompare_spec x 0) as [D | D | D]; [reflexivity | lra | lra].
  - rewrite (b64_of_neg x C), (b64_of_neg y) by lra.
    rewrite (b64_pos_comp (- x) (- y)); [reflexivity | lra | rewrite E; reflexivity].
  - rewrite (b64_of_pos x C), (b64_of_pos y) by lra.
    apply b64_pos_comp; assumption.
Qed.

#[export] Instance b64_proper : Proper (Qeq ==> Qeq) b64.
Proof. intros x y E. rewrite (b64_comp x y E). reflexivity. Qed.

Lemma b64_nonneg (x : Q) : (0 <= x)%Q -> (0 <= b64 x)%Q.
Proof.
  intros H. unfold b64. destruct (Qcompare_spec x 0) as [E | E | E]; [lra | lra | ].
  apply b64_pos_nonneg. exact E.
Qed.

Lemma b64_nonpos (x : Q) : (x <= 0)%Q -> (b64 x <= 0)%Q.
Proof.
  intros H. unfold b64. destruct (Qcompare_spec x 0) as [E | E | E]; [lra | | lra].
  pose proof (b64_pos_nonneg (- x)). lra.
Qed.

(** Rounding to nearest preserves the order: the property every bound below rests on. *)
Lemma b64_mono (x y : Q) : (x <= y)%Q -> (b64 x <= b64 y)%Q.
Proof.
  intros Hxy.
  destruct (Qlt_le_dec 0 x) as [Px | Nx].
  - rewrite (b64_of_pos x Px), (b64_of_pos y) by lra. apply b64_pos_mono; assumption.
  - destruct (Qlt_le_dec y 0) as [Ny | Py].
    + rewrite (b64_of_neg x), (b64_of_neg y) by lra.
      pose proof (b64_pos_mono (- y) (- x)). lra.
    + pose proof (b64_nonpos x Nx). pose proof (b64_nonneg y Py). lra.
Qed.

Lemma b64_opp (x : Q) : (b64 (- x) == - b64 x)%Q.
Proof.
  destruct (Qcompare_spec x 0) as [C | C | C].
  - rewrite (b64_comp x 0 C), (b64_comp (- x) 0) by lra. reflexivity.
  - rewrite (b64_of_neg x C), (b64_of_pos (- x)) by lra. ring.
  - rewrite (b64_of_pos x C), (b64_of_neg (- x)) by lra.
    rewrite (b64_pos_comp (- - x) x); [reflexivity | lra | ring].
Qed.

(** A value that is a multiple of its own unit in the last place is a binary64 number. *)
Lemma b64_pos_exact (x : Q) (m : Z) :
  (0 < x)%Q -> (x == inject_Z m * 2 ^ ulp_exp x)%Q -> (b64_pos x == x)%Q.
Proof.
  intros Hx E. rewrite b64_pos_eq.
  assert (S : (x / 2 ^ ulp_exp x == inject_Z m)%Q).
  { pose proof (pow2_pos (ulp_exp x)). rewrite E at 1. field. lra. }
  rewrite (rne_comp _ _ S), rne_Z. symmetry. exact E.
Qed.

Lemma ilog2_Z_bound (n k : Z) : 0 < n -> 0 <= k -> n < 2 ^ k -> ilog2 (inject_Z n) < k.
Proof.
  intros Hn Hk Hlt.
  assert (Hq : (0 < inject_Z n)%Q) by (change 0%Q with (inject_Z 0); rewrite <- Zlt_Qlt; exact Hn).
  destruct (ilog2_spec _ Hq) as [L _].
  destruct (Z_lt_ge_dec (ilog2 (inject_Z n)) k) as [C | C]; [exact C | exfalso].
  assert (2 ^ k <= 2 ^ ilog2 (inject_Z n))%Q by (apply pow2_le; lia).
  assert (inject_Z n < 2 ^ k)%Q by (rewrite pow2_Z by exact Hk; rewrite <- Zlt_Qlt; exact Hlt).
  lra.
Qed.

(** Integers below 2^53 convert to binary64 without rounding. *)
Lemma b64_int (n : Z) : Z.abs n < 2 ^ 53 -> (b64 (inject_Z n) == inject_Z n)%Q.
Proof.
  assert (P : forall k, 0 < k -> k < 2 ^ 53 -> (b64_pos (inject_Z k) == inject_Z k)%Q).
  { intros k K0 K1.
    assert (Hq : (0 < inject_Z k)%Q) by (change 0%Q with (inject_Z 0); rewrite <- Zlt_Qlt; exact K0).
    pose proof (ilog2_Z_bound k 53 K0 ltac:(lia) K1) as Hl.
    set (s := ulp_exp (inject_Z k)).
    assert (Hs : s <= 0) by (unfold s, ulp_exp; lia).
    apply (b64_pos_exact _ (k * 2 ^ (- s))); [exact Hq | fold s].
    rewrite inject_Z_mult, <- pow2_Z by lia.
    rewrite <- Qmult_assoc, <- pow2_add. replace (- s + s) with 0 by lia.
    change (2 ^ 0)%Q with 1%Q. ring. }
  intros H. destruct (Z.lt_trichotomy n 0) as [C | [C | C]].
  - rewrite b64_of_neg by (change 0%Q with (inject_Z 0); rewrite <- Zlt_Qlt; exact C).
    rewrite (b64_pos_comp _ (inject_Z (- n))).
    + rewrite P by lia. rewrite inject_Z_opp. ring.
    + change 0%Q with (inject_Z 0). rewrite <- inject_Z_opp, <- Zlt_Qlt. lia.
    + rewrite inject_Z_opp. reflexivity.
  - subst n. reflexivity.
  - rewrite b64_of_pos by (change 0%Q with (inject_Z 0); rewrite <- Zlt_Qlt; exact C).
    apply P; lia.
Qed.

(** Rounding moves a value by at most half a unit in the last place. *)
Lemma b64_pos_err (x : Q) :
  (0 < x)%Q -> (Qabs (b64_pos x - x) <= 2 ^ (ulp_exp x - 1))%Q.
Proof.
  intros Hx. rewrite b64_pos_eq.
  set (s := ulp_exp x). pose proof (rne_err (x / 2 ^ s)) as R.
  pose proof (scaled_mul x s) as S. pose proof (pow2_pos s) as P.
  assert (E : (2 ^ s == 2 * 2 ^ (s - 1))%Q).
  { rewrite <- pow2_succ. f_equiv. lia. }
  apply Qabs_Qle_condition in R. apply Qabs_Qle_condition.
  set (r := inject_Z (rne (x / 2 ^ s))) in *. set (t := (x / 2 ^ s)%Q) in *.
  pose proof (pow2_pos (s - 1)). split; nra.
Qed.

Lemma int_of_float_floor (x : float) : (0 <= x)%Q -> int_of_float x = Qfloor x.
Proof.
  intros H. destruct x as [n d]. unfold int_of_float, Qfloor. cbn [Qnum Qden].
  apply Z.quot_div_nonneg; [ | lia]. unfold Qle in H. simpl in H. lia.
Qed.

Lemma Qfloor_unique (q : Q) (k : Z) :
  (inject_Z k <= q)%Q -> (q < inject_Z k + 1)%Q -> Qfloor q = k.
Proof.
  intros H1 H2. pose proof (Qfloor_le q) as F1. pose proof (Qlt_floor q) as F2.
  rewrite inject_Z_plus in F2. change (inject_Z 1) with 1%Q in F2.
  assert (A : (inject_Z k < inject_Z (Qfloor q) + 1)%Q) by lra.
  assert (B : (inject_Z (Qfloor q) < inject_Z k + 1)%Q) by lra.
  change 1%Q with (inject_Z 1) in A, B. rewrite <- inject_Z_plus, <- Zlt_Qlt in A, B. lia.
Qed.

Lemma truediv_le (i j M : Z) :
  1 <= M -> i <= j -> (inject_Z i / inject_Z M <= inject_Z j / inject_Z M)%Q.
Proof.
  intros HM Hij.
  assert (P : (0 < inject_Z M)%Q) by (change 0%Q with (inject_Z 0); rewrite <- Zlt_Qlt; lia).
  apply Qmult_le_compat_r; [rewrite <- Zle_Qle; exact Hij | ].
  apply Qlt_le_weak, Qinv_lt_0_compat, P.
Qed.

Lemma percent_of_mono (i j M : Z) : 1 <= M -> 0 <= i -> i <= j -> percent_of i M <= percent_of j M.
Proof.
  intros HM Hi Hij. unfold percent_of, fmul, int_truediv.
  assert (P : (0 < inject_Z M)%Q) by (change 0%Q with (inject_Z 0); rewrite <- Zlt_Qlt; lia).
  assert (Z0 : forall k, 0 <= k -> (0 <= b64 (inject_Z k / inject_Z M))%Q).
  { intros k Hk. apply b64_nonneg. apply Qle_shift_div_l; [exact P | ].
    rewrite Qmult_0_l. change 0%Q with (inject_Z 0). rewrite <- Zle_Qle. exact Hk. }
  pose proof (Z0 i Hi) as Qi. pose proof (Z0 j ltac:(lia)) as Qj.
  pose proof (b64_mono _ _ (truediv_le i j M HM Hij)) as Hq.
  rewrite !int_of_float_floor by (apply b64_nonneg; nra).
  apply Qfloor_resp_le, b64_mono. nra.
Qed.

Lemma percent_of_range (i M : Z) : 1 <= M -> 0 <= i < M -> 0 <= percent_of i M <= 100.
Proof.
  intros HM [Hi HiM]. unfold percent_of, fmul, int_truediv.
  assert (P : (0 < inject_Z M)%Q) by (change 0%Q with (inject_Z 0); rewrite <- Zlt_Qlt; lia).
  assert (L : (0 <= inject_Z i / inject_Z M)%Q).
  { apply Qle_shift_div_l; [exact P | ]. rewrite Qmult_0_l.
    change 0%Q with (inject_Z 0). rewrite <- Zle_Qle. exact Hi. }
  assert (U : (inject_Z i / inject_Z M <= 1)%Q).
  { apply Qle_shift_div_r; [exact P | ]. rewrite Qmult_1_l. rewrite <- Zle_Qle. lia. }
  pose proof (b64_nonneg _ L) as Q0. pose proof (b64_mono _ _ U) as Q1.
  change (b64 1) with 1%Q in Q1.
  rewrite int_of_float_floor by (apply b64_nonneg; nra).
  split.
  - apply (Z.le_trans _ (Qfloor (b64 0))); [discriminate | ].
    apply Qfloor_resp_le, b64_mono. nra.
  - apply (Z.le_trans _ (Qfloor (b64 100))); [ | discriminate].
    apply Qfloor_resp_le, b64_mono. nra.
Qed.

Lemma percent_of_below_100 (i M : Z) : 1 <= M <= 2 ^ 53 -> 0 <= i < M -> percent_of i M < 100.
Proof.
  intros [HM HB] [Hi HiM]. unfold percent_of, fmul, int_truediv.
  assert (P : (0 < inject_Z M)%Q) by (change 0%Q with (inject_Z 0); rewrite <- Zlt_Qlt; lia).
  assert (L : (0 <= inject_Z i / inject_Z M)%Q).
  { apply Qle_shift_div_l; [exact P | ]. rewrite Qmult_0_l.
    change 0%Q with (inject_Z 0). rewrite <- Zle_Qle. exact Hi. }
  assert (U : (inject_Z i / inject_Z M <= 1 - (1 # 2 ^ 53))%Q).
  { apply Qle_shift_div_r; [exact P | ].
    assert (A : (inject_Z i <= inject_Z M - 1)%Q).
    { assert (A' : (inject_Z i + 1 <= inject_Z M)%Q).
      { change 1%Q with (inject_Z 1). rewrite <- inject_Z_plus, <- Zle_Qle. lia. }
      lra. }
    assert (B : (inject_Z M <= inject_Z (2 ^ 53))%Q) by (rewrite <- Zle_Qle; exact HB).
    change (inject_Z (2 ^ 53)) with (9007199254740992 # 1)%Q in B.
    change (1 # 2 ^ 53)%Q with (1 # 9007199254740992)%Q. lra. }
  pose proof (b64_nonneg _ L) as Q0. pose proof (b64_mono _ _ U) as Q1.
  set (q := b64 (inject_Z i / inject_Z M)) in *.
  set (c := b64 (1 - (1 # 2 ^ 53))) in *.
  rewrite int_of_float_floor by (apply b64_nonneg; nra).
  assert (T : (b64 (q * 100) <= b64 (c * 100))%Q) by (apply b64_mono; nra).
  apply Qfloor_resp_le in T.
  replace (Qfloor (b64 (c * 100))) with 99 in T by (vm_compute; reflexivity). lia.
Qed.

(** *** [b64] against the hardware

    On the expressions of the engine the rounding function gives what the
    processor gives: the progress of every measure of every count up to 120,
    the beats of every length with tempos up to 400, and the chord and note
    lengths of every craziness. *)

Lemma percent_as_hardware :
  forallb (fun m => forallb (fun i =>
      same_value (hw_percent (Z.of_nat i) (Z.of_nat m))
                 (fmul (int_truediv (Z.of_nat i) (Z.of_nat m)) 100%Q))
    (seq 0 m)) (seq 1 120) = true.
Proof. vm_compute. reflexivity. Qed.

Lemma beats_as_hardware :
  forallb (fun t => forallb (fun l =>
      same_value (hw_beats (Z.of_nat l * Z.of_nat t))
                 (fdiv (b64 (inject_Z (Z.of_nat l * Z.of_nat t))) 60%Q))
    (seq 1 60)) (seq 1 400) = true.
Proof. vm_compute. reflexivity. Qed.

Lemma durations_as_hardware :
  forallb (fun c =>
      same_value (hw_note c) (note_duration c) &&
      forallb (fun b => same_value (hw_chord b c) (fmul (inject_Z b) (length_factor c)))
              [1; 2; 4])
    (map (fun n => Z.of_nat n - 10) (seq 0 21)) = true.
Proof. vm_compute. reflexivity. Qed.

(** Binary64 is not exact arithmetic: with 50 measures the 30th reports 57,
    one below the exact floor of 100 * 29 / 50. *)
Lemma percent_of_29_50 : percent_of 29 50 = 57 /\ 100 * 29 / 50 = 58.
Proof. split; vm_compute; reflexivity. Qed.

Lemma ilog2_lt (x : Q) (k : Z) : (0 < x)%Q -> (x < 2 ^ k)%Q -> ilog2 x < k.
Proof.
  intros Hx Hk. destruct (ilog2_spec x Hx) as [L _].
  destruct (Z_lt_ge_dec (ilog2 x) k) as [C | C]; [exact C | exfalso].
  assert (2 ^ k <= 2 ^ ilog2 x)%Q by (apply pow2_le; lia). lra.
Qed.

Lemma int_of_float_Z (k : Z) : int_of_float (inject_Z k) = k.
Proof. unfold int_of_float, inject_Z. cbn [Qnum Qden]. apply Z.quot_1_r. Qed.

Lemma b64_err_below (x : Q) (k : Z) :
  (0 <= x)%Q -> (x < 2 ^ k)%Q -> -1021 <= k -> (Qabs (b64 x - x) <= 2 ^ (k - 54))%Q.
Proof.
  intros Hx Hk Hmin. destruct (Qlt_le_dec 0 x) as [P | Z0].
  - rewrite (b64_of_pos x P). pose proof (b64_pos_err x P) as E.
    pose proof (ilog2_lt x k P Hk) as L.
    assert (2 ^ (ulp_exp x - 1) <= 2 ^ (k - 54))%Q by (apply pow2_le; unfold ulp_exp; lia).
    lra.
  - rewrite (b64_comp x 0) by lra. change (b64 0) with 0%Q.
    pose proof (pow2_pos (k - 54)). apply Qabs_Qle_condition. lra.
Qed.

(** The binary64 progress is the exact [floor(100 * i / M)] or one below it
    (see [percent_of_29_50]). *)
Lemma percent_of_near_floor (i M : Z) :
  1 <= M < 2 ^ 45 -> 0 <= i < M -> 100 * i / M - 1 <= percent_of i M <= 100 * i / M.
Proof.
  intros [HM HB] [Hi HiM]. set (F := 100 * i / M).
  assert (HF : F * M <= 100 * i < (F + 1) * M).
  { unfold F. pose proof (Z.mul_div_le (100 * i) M ltac:(lia)).
    pose proof (Z.mul_succ_div_gt (100 * i) M ltac:(lia)). lia. }
  assert (P : (0 < inject_Z M)%Q) by (change 0%Q with (inject_Z 0); rewrite <- Zlt_Qlt; lia).
  set (x := (inject_Z i / inject_Z M)%Q).
  assert (Ex : (x * inject_Z M == inject_Z i)%Q) by (unfold x; field; lra).
  assert (X0 : (0 <= x)%Q).
  { apply Qle_shift_div_l; [exact P | ]. rewrite Qmult_0_l.
    change 0%Q with (inject_Z 0). rewrite <- Zle_Qle. exact Hi. }
  assert (X1 : (x < 1)%Q).
  { apply Qlt_shift_div_r; [exact P | ]. rewrite Qmult_1_l. rewrite <- Zlt_Qlt. exact HiM. }
  (* the exact value sits between F and F + 1 - 1/M *)
  assert (L : (inject_Z F <= 100 * x)%Q).
  { assert (A : (inject_Z F * inject_Z M <= 100 * inject_Z i)%Q).
    { change 100%Q with (inject_Z 100). rewrite <- !inject_Z_mult, <- Zle_Qle. lia. }
    rewrite <- Ex in A. nra. }
  assert (BM : (inject_Z M < 2 ^ 45)%Q).
  { rewrite (pow2_Z 45) by lia. rewrite <- Zlt_Qlt. exact HB. }
  change (2 ^ 45)%Q with 35184372088832%Q in BM.
  assert (U : (100 * x + (1 # 35184372088832) < inject_Z F + 1)%Q).
  { assert (A : (100 * inject_Z i + 1 <= (inject_Z F + 1) * inject_Z M)%Q).
    { change 100%Q with (inject_Z 100). change 1%Q with (inject_Z 1).
      rewrite <- !inject_Z_mult, <- !inject_Z_plus, <- inject_Z_mult, <- Zle_Qle. lia. }
    rewrite <- Ex in A. nra. }
  (* the two roundings move it by less than 2 ^ -46 *)
  pose proof (b64_err_below x 0 X0 X1 ltac:(lia)) as E1.
  change (2 ^ (0 - 54))%Q with (1 # 18014398509481984)%Q in E1.
  apply Qabs_Qle_condition in E1.
  set (q := b64 x) in *.
  assert (Q0 : (0 <= q)%Q) by (apply b64_nonneg; exact X0).
  assert (Q1 : (q <= 1)%Q).
  { change 1%Q with (b64 1). apply b64_mono. lra. }
  pose proof (b64_err_below (q * 100) 7 ltac:(nra) ltac:(change (2 ^ 7)%Q with 128%Q; lra)
                ltac:(lia)) as E2.
  change (2 ^ (7 - 54))%Q with (1 # 140737488355328)%Q in E2.
  apply Qabs_Qle_condition in E2.
  unfold percent_of, fmul, int_truediv. fold x q.
  set (p := b64 (q * 100)) in *.
  assert (P0 : (0 <= p)%Q) by (apply b64_nonneg; nra).
  rewrite int_of_float_floor by exact P0.
  split.
  - assert (A : (inject_Z (F - 1) <= p)%Q).
    { replace (F - 1) with (F + -1) by lia. rewrite inject_Z_plus.
      change (inject_Z (-1)) with (-1)%Q. lra. }
    apply Qfloor_resp_le in A. rewrite Qfloor_Z in A. exact A.
  - assert (A : (p < inject_Z (F + 1))%Q).
    { rewrite inject_Z_plus. change (inject_Z 1) with 1%Q. lra. }
    pose proof (Qfloor_le p) as B.
    assert (C : (inject_Z (Qfloor p) < inject_Z (F + 1))%Q) by lra.
    rewrite <- Zlt_Qlt in C. lia.
Qed.

(** ** The measure count *)

(** Below [2 ^ 51] beats-seconds the binary64 computation of lines 60 and 61
    agrees with integer arithmetic. *)
Lemma measures_of_exact (x : Z) :
  0 <= x < 2 ^ 51 -> measures_of (fdiv (b64 (inject_Z x)) 60%Q) = x / 240 + 1.
Proof.
  intros [Hx0 Hx1]. unfold measures_of, float_floordiv. rewrite int_of_float_Z. f_equal.
  unfold fdiv. rewrite (b64_comp (b64 (inject_Z x) / 60) (inject_Z x / 60)).
  2:{ rewrite b64_int by lia. reflexivity. }
  set (k := x / 240). set (y := (inject_Z x / 60)%Q).
  assert (Hk : 240 * k <= x < 240 * k + 240).
  { unfold k. pose proof (Z.mul_div_le x 240 ltac:(lia)).
    pose proof (Z.mul_succ_div_gt x 240 ltac:(lia)). lia. }
  assert (Lx : (240 * inject_Z k <= inject_Z x)%Q).
  { change 240%Q with (inject_Z 240). rewrite <- inject_Z_mult, <- Zle_Qle. lia. }
  assert (Ux : (inject_Z x + 1 <= 240 * inject_Z k + 240)%Q).
  { change 240%Q with (inject_Z 240). change 1%Q with (inject_Z 1).
    rewrite <- inject_Z_mult, <- !inject_Z_plus, <- Zle_Qle. lia. }
  assert (Bx : (inject_Z x < 2251799813685248)%Q).
  { change 2251799813685248%Q with (inject_Z (2 ^ 51)). rewrite <- Zlt_Qlt. exact Hx1. }
  assert (Ey : (60 * y == inject_Z x)%Q) by (unfold y; field).
  assert (Lo : (4 * inject_Z k <= b64 y)%Q).
  { rewrite <- (b64_int (4 * k)) by lia. apply b64_mono.
    rewrite inject_Z_mult. change (inject_Z 4) with 4%Q. lra. }
  assert (Hi : (b64 y < 4 * inject_Z k + 4)%Q).
  { destruct (Z.eq_dec x 0) as [-> | Nx].
    - rewrite (b64_comp y 0) by (unfold y; reflexivity).
      change (b64 0) with 0%Q. assert (0 <= k) by lia.
      assert (0 <= inject_Z k)%Q by (change 0%Q with (inject_Z 0); rewrite <- Zle_Qle; lia).
      lra.
    - assert (Px : (1 <= inject_Z x)%Q).
      { change 1%Q with (inject_Z 1). rewrite <- Zle_Qle. lia. }
      assert (Py : (0 < y)%Q) by lra.
      rewrite (b64_of_pos y Py). pose proof (b64_pos_err y Py) as E.
      apply Qabs_Qle_condition in E.
      assert (Hl : ilog2 y < 46).
      { apply ilog2_lt; [exact Py | ]. change (2 ^ 46)%Q with 70368744177664%Q. lra. }
      assert (Hu : (2 ^ (ulp_exp y - 1) <= 2 ^ (-8))%Q).
      { apply pow2_le. unfold ulp_exp. lia. }
      change (2 ^ (-8))%Q with (1 # 256)%Q in Hu. lra. }
  apply Qfloor_unique.
  - apply Qle_shift_div_l; [reflexivity | lra].
  - apply Qlt_shift_div_r; [reflexivity | lra].
Qed.

(** ** The engine: how a computation extends the history *)

Section Facts.
Context `{m21 : Music21} `{py : Builtins}.

Lemma bind_inv {A B : Type} (m : action A) (k : A -> action B) (s : state)
    (r : result B) (s' : state) :
  bind m k s = (r, s') ->
  (exists a s1, m s = (Ok a, s1) /\ k a s1 = (r, s')) \/
  (exists e, m s = (Raise e, s') /\ r = Raise e).
Proof.
  unfold bind. destruct (m s) as [[a | e] s1]; intros H.
  - left. exists a, s1. split; [reflexivity | exact H].
  - right. exists e. inversion H; subst. split; reflexivity.
Qed.

Lemma extends_refl (s : state) : extends s s [].
Proof. split; try reflexivity; simpl; rewrite app_nil_r; reflexivity. Qed.

Lemma elements_of_app (l1 l2 : list (effect pitch)) :
  elements_of (l1 ++ l2) = elements_of l1 ++ elements_of l2.
Proof. unfold elements_of. apply omap_app. Qed.

Lemma extends_trans (s1 s2 s3 : state) (l1 l2 : list (effect pitch)) :
  extends s1 s2 l1 -> extends s2 s3 l2 -> extends s1 s3 (l1 ++ l2).
Proof.
  intros [] []. split; try congruence.
  - rewrite app_assoc. congruence.
  - rewrite elements_of_app, app_assoc. congruence.
Qed.

Lemma extends_draw (s : state) : extends s (set_drawn (S (drawn s)) s) [].
Proof. split; try reflexivity; simpl; rewrite app_nil_r; reflexivity. Qed.

Lemma extends_emit (sg : signal) (s : state) : extends s (log (Emit sg) s) [Emit sg].
Proof. split; try reflexivity. simpl. rewrite app_nil_r. reflexivity. Qed.

Lemma extends_append (e : element pitch) (s : state) :
  extends s (log (Append e) (set_part (part s ++ [e]) s)) [Append e].
Proof. split; reflexivity. Qed.

Lemma elements_of_map_Append (evs : list (element pitch)) : elements_of (map Append evs) = evs.
Proof. induction evs as [| e evs IH]; [reflexivity | ]. cbn. unfold elements_of in IH. rewrite IH. reflexivity. Qed.

Lemma nth_mod_elem {A : Type} (a : A) (l : list A) (n : N) :
  nth (N.to_nat (n mod N.of_nat (List.length (a :: l)))) (a :: l) a ∈ a :: l.
Proof.
  apply list_elem_of_In, nth_In.
  pose proof (N.mod_upper_bound n (N.of_nat (List.length (a :: l)))) as B.
  cbn [List.length] in *. lia.
Qed.

Lemma random_choice_spec {A : Type} (l : list A) (s : state) (r : result A) (s' : state) :
  random_choice l s = (r, s') ->
  extends s s' [] /\
  match r with
  | Ok a => a ∈ l
  | Raise _ => l = []
  end.
Proof.
  destruct l as [| a l]; unfold random_choice, raise, bind, draw, ret;
    intros H; injection H as <- <-.
  - split; [apply extends_refl | reflexivity].
  - split; [apply extends_draw | apply nth_mod_elem].
Qed.

Lemma index_spec {A : Type} (l : list A) (i : Z) (s : state) (r : result A) (s' : state) :
  index l i s = (r, s') ->
  s' = s /\
  match r with
  | Ok a => a ∈ l
  | Raise _ => True
  end.
Proof.
  unfold index.
  destruct (if (if i <? 0 then i + Z.of_nat (List.length l) else i) <? 0 then None
            else nth_error l (Z.to_nat (if i <? 0 then i + Z.of_nat (List.length l) else i)))
    as [a |] eqn:E; cbn; intros H; inversion H; subst; clear H; split; try reflexivity.
  destruct (_ <? 0) in E; [discriminate | ].
  apply list_elem_of_In. eapply nth_error_In. exact E.
Qed.

Lemma melody_note_spec (self : GeneratorWorker) (ks : string) (root : pitch) (idx : Z)
    (s : state) (r : result unit) (s' : state) :
  getPitches ks <> [] ->
  melody_note self ks (triad root) idx s = (r, s') ->
  r = Ok tt /\
  exists p, extends s s' [Append (Note p (note_quarterLength (crazy self)))] /\
            pitch_ok self ks (triad root) idx p.
Proof.
  intros Hne H. unfold melody_note in H.
  apply bind_inv in H as [(p & s1 & Hp & H) | (e & Hp & _)].
  - unfold part_append in H. injection H as <- <-. split; [reflexivity | ].
    exists p. unfold pitch_ok.
    destruct (String.eqb (pattern self) "ARP");
      [ | destruct (String.eqb (pattern self) "PLUCK")].
    + unfold index in Hp. cbn [List.length triad] in Hp |- *.
      change (Z.of_nat 3) with 3 in Hp |- *.
      pose proof (Z.mod_pos_bound idx 3 ltac:(lia)) as B.
      destruct (idx mod 3 <? 0) eqn:E; [apply Z.ltb_lt in E; lia | ].
      rewrite E in Hp.
      destruct (nth_error (triad root) (Z.to_nat (idx mod 3))) as [q |] eqn:N.
      * injection Hp as -> ->.
        split; [apply extends_append | reflexivity].
      * exfalso. apply nth_error_None in N. cbn in N. lia.
    + apply random_choice_spec in Hp as [X Hin].
      split; [ | exact Hin].
      apply (extends_trans _ _ _ [] _ X), extends_append.
    + apply random_choice_spec in Hp as [X Hin].
      split; [ | exact Hin].
      apply (extends_trans _ _ _ [] _ X), extends_append.
  - exfalso.
    destruct (String.eqb (pattern self) "ARP");
      [ | destruct (String.eqb (pattern self) "PLUCK")].
    + unfold index in Hp. cbn [List.length triad] in Hp.
      change (Z.of_nat 3) with 3 in Hp.
      pose proof (Z.mod_pos_bound idx 3 ltac:(lia)) as B.
      destruct (idx mod 3 <? 0) eqn:E; [apply Z.ltb_lt in E; lia | ].
      rewrite E in Hp.
      destruct (nth_error (triad root) (Z.to_nat (idx mod 3))) as [q |] eqn:N;
        [discriminate | ].
      apply nth_error_None in N. cbn in N. lia.
    + apply random_choice_spec in Hp as [_ Hin]. discriminate.
    + apply random_choice_spec in Hp as [_ Hin]. contradiction.
Qed.

Lemma melody_spec (self : GeneratorWorker) (ks : string) (root : pitch) (idxs : list Z)
    (s : state) (r : result unit) (s' : state) :
  getPitches ks <> [] ->
  for_each idxs (melody_note self ks (triad root)) s = (r, s') ->
  r = Ok tt /\
  exists ps, extends s s' (map Append (map (fun p => Note p (note_quarterLength (crazy self))) ps))
             /\ Forall2 (pitch_ok self ks (triad root)) idxs ps.
Proof.
  intros Hne. revert s. induction idxs as [| idx idxs IH]; intros s H.
  - cbn in H. injection H as <- <-. split; [reflexivity | ].
    exists []. split; [apply extends_refl | constructor].
  - cbn [for_each] in H. apply bind_inv in H as [([] & s1 & H1 & H) | (e & H1 & _)].
    + apply (melody_note_spec _ _ _ _ _ _ _ Hne) in H1 as [_ (p & X1 & P1)].
      apply IH in H as [-> (ps & X2 & P2)]. split; [reflexivity | ].
      exists (p :: ps). split; [ | constructor; assumption].
      exact (extends_trans _ _ _ _ _ X1 X2).
    + apply (melody_note_spec _ _ _ _ _ _ _ Hne) in H1 as [C _]. discriminate.
Qed.

Lemma accent_spec (self : GeneratorWorker) (chord_notes : list pitch)
    (s : state) (r : result unit) (s' : state) :
  accent self chord_notes s = (r, s') ->
  r = Ok tt /\
  exists acc, extends s s' (map Append acc) /\
              (acc = [] \/ (5 < crazy self /\ acc = [Chord chord_notes (1 # 2)%Q])).
Proof.
  unfold accent. destruct (5 <? crazy self) eqn:C.
  - apply Z.ltb_lt in C. unfold random_random, bind, draw, ret.
    cbv beta iota.
    match goal with |- context [Qlt_le_dec ?a ?b] => destruct (Qlt_le_dec a b) end;
      intros H; injection H as <- <-; (split; [reflexivity | ]).
    + exists [Chord chord_notes (1 # 2)%Q]. split; [ | right; split; [exact C | reflexivity]].
      exact (extends_trans _ _ _ [] _ (extends_draw s)
               (extends_append _ (set_drawn (S (drawn s)) s))).
    + exists []. split; [apply extends_draw | left; reflexivity].
  - intros H. injection H as <- <-. split; [reflexivity | ].
    exists []. split; [apply extends_refl | left; reflexivity].
Qed.

Lemma note_count_spec (pat : string) (s : state) (r : result Z) (s' : state) :
  note_count pat s = (r, s') ->
  exists count, r = Ok count /\ extends s s' [] /\ note_count_ok pat count.
Proof.
  unfold note_count, random_randint, bind, draw, ret. intros H. injection H as <- <-.
  eexists. split; [reflexivity | split; [apply extends_draw | ]].
  exists (2 + Z.of_N (rand s (drawn s)) mod (6 - 2 + 1)). split; [ | reflexivity].
  pose proof (Z.mod_pos_bound (Z.of_N (rand s (drawn s))) (6 - 2 + 1) ltac:(lia)). lia.
Qed.

(** One iteration of the measure loop. *)
Lemma measure_spec (self : GeneratorWorker) (ks : string) (measures i : Z)
    (s : state) (r : result unit) (s' : state) :
  measure self ks measures i s = (r, s') ->
  exists evs, extends s s' (measure_trace measures i evs) /\ measure_events self ks r evs.
Proof.
  intros H. unfold measure in H.
  apply bind_inv in H as [([] & s1 & H1 & H) | (e & H1 & _)]; [ | discriminate].
  unfold emit in H1. injection H1 as <-.
  pose proof (extends_emit (progress_changed (percent_of i measures)) s) as X0.
  set (s1 := log _ s) in *. clearbody s1.
  apply bind_inv in H as [(degree & s2 & H2 & H) | (e & H2 & _)].
  2:{ apply random_choice_spec in H2 as [_ C]. discriminate. }
  apply random_choice_spec in H2 as [X2 _].
  apply bind_inv in H as [(root & s3 & H3 & H) | (e & H3 & ->)].
  2:{ apply index_spec in H3 as [-> _]. exists []. split; [ | constructor].
      exact (extends_trans _ _ _ _ _ X0 X2). }
  apply index_spec in H3 as [-> Hroot].
  fold (triad root) in H.
  apply bind_inv in H as [([] & s4 & H4 & H) | (e & H4 & _)]; [ | discriminate].
  unfold part_append in H4. injection H4 as <-.
  pose proof (extends_append
    (Chord (triad root) (chord_quarterLength (pattern self) (crazy self))) s2) as X4.
  set (s4 := log _ _) in *. clearbody s4.
  apply bind_inv in H as [([] & s5 & H5 & H) | (e & H5 & _)].
  2:{ apply accent_spec in H5 as [C _]. discriminate. }
  apply accent_spec in H5 as [_ (acc & X5 & Hacc)].
  apply bind_inv in H as [(count & s6 & H6 & H) | (e & H6 & _)].
  2:{ apply note_count_spec in H6 as (c & C & _). discriminate. }
  apply note_count_spec in H6 as (c & C & X6 & Hcount). injection C as <-.
  assert (Hne : getPitches ks <> []).
  { intros E. rewrite E in Hroot. inversion Hroot. }
  apply (melody_spec _ _ _ _ _ _ _ Hne) in H as [-> (ps & X7 & Hps)].
  exists (Chord (triad root) (chord_quarterLength (pattern self) (crazy self))
            :: acc ++ map (fun p => Note p (note_quarterLength (crazy self))) ps).
  split; [ | econstructor; eassumption].
  pose proof (extends_trans _ _ _ _ _ X0
               (extends_trans _ _ _ _ _ X2
                 (extends_trans _ _ _ _ _ X4
                   (extends_trans _ _ _ _ _ X5
                     (extends_trans _ _ _ _ _ X6 X7))))) as X.
  unfold measure_trace. cbn [map]. rewrite map_app. exact X.
Qed.

(** The measure loop: one block per index, and a failing iteration ends it
    after its progress signal. *)
Lemma loop_spec (self : GeneratorWorker) (ks : string) (measures : Z) (idxs : list Z)
    (s : state) (r : result unit) (s' : state) :
  for_each idxs (measure self ks measures) s = (r, s') ->
  exists blocks,
    extends s s' (loop_trace measures idxs blocks) /\
    match r with
    | Ok _ => List.length blocks = List.length idxs /\
              Forall (measure_events self ks (Ok tt)) blocks
    | Raise _ => exists played, blocks = played ++ [[]] /\
                 (List.length played < List.length idxs)%nat /\
                 Forall (measure_events self ks (Ok tt)) played
    end.
Proof.
  revert s. induction idxs as [| i idxs IH]; intros s H.
  - cbn in H. injection H as <- <-. exists []. split; [apply extends_refl | ].
    split; [reflexivity | constructor].
  - cbn [for_each] in H. apply bind_inv in H as [([] & s1 & H1 & H) | (e & H1 & ->)].
    + apply measure_spec in H1 as (evs & X1 & E1).
      apply IH in H as (blocks & X2 & Hr).
      exists (evs :: blocks). split.
      * unfold loop_trace. cbn [zip_with concat]. exact (extends_trans _ _ _ _ _ X1 X2).
      * destruct r as [[] | e].
        -- destruct Hr as [L F]. split; [cbn; congruence | constructor; assumption].
        -- destruct Hr as (played & -> & L & F). exists (evs :: played).
           split; [reflexivity | split; [cbn; lia | constructor; assumption]].
    + apply measure_spec in H1 as (evs & X1 & E1). inversion E1; subst.
      exists [[]]. split.
      * unfold loop_trace. cbn [zip_with]. rewrite zip_with_nil_r. cbn [concat].
        rewrite app_nil_r. exact X1.
      * exists []. split; [reflexivity | split; [cbn; lia | constructor]].
Qed.

(** *** The export *)

Lemma io_extends_refl (s : state) : io_extends s s [].
Proof. split; try reflexivity. cbn. rewrite app_nil_r. reflexivity. Qed.

Lemma io_extends_trans (s1 s2 s3 : state) (c1 c2 : list syscall) :
  io_extends s1 s2 c1 -> io_extends s2 s3 c2 -> io_extends s1 s3 (c1 ++ c2).
Proof.
  intros [] []. split; try congruence.
  rewrite map_app, app_assoc. congruence.
Qed.

Lemma syscall_at_spec (step : io_step) (c : syscall) (s : state) (r : result unit) (s' : state) :
  syscall_at step c s = (r, s') ->
  s' = log (Sys c) s /\
  match r with
  | Ok _ => forall msg, io_fault s <> Some (step, msg)
  | Raise e => e = Exception "OSError" (exc_str e) /\ io_fault s = Some (step, exc_str e)
  end.
Proof.
  unfold syscall_at. destruct (io_fault s) as [[step' msg] |].
  - destruct (io_step_eqb step step') eqn:E; intros H; injection H as <- <-;
      (split; [reflexivity | ]).
    + cbn [exc_str]. split; [reflexivity | ].
      destruct step, step'; try discriminate E; reflexivity.
    + intros msg' C. injection C as C1 C2. subst step'. destruct step; discriminate E.
  - intros H. injection H as <- <-. split; [reflexivity | ]. intros msg C. discriminate.
Qed.

Lemma gettempdir_spec (s : state) (r : result string) (s' : state) :
  gettempdir s = (r, s') ->
  s' = s /\
  match r with
  | Ok d => d = tempdir s /\ forall msg, io_fault s <> Some (AtTempdir, msg)
  | Raise e => io_fault s = Some (AtTempdir, exc_str e)
  end.
Proof.
  unfold gettempdir. destruct (io_fault s) as [[[] msg] |]; intros H; injection H as <- <-;
    (split; [reflexivity | ]); try reflexivity; (split; [reflexivity | ]);
    intros msg' C; discriminate.
Qed.

Lemma file_open_wb_spec (path : string) (s : state) (r : result unit) (s' : state) :
  file_open_wb path s = (r, s') ->
  io_extends s s' [SysOpen path] /\
  match r with
  | Ok _ => files s' = FileSystem (<[entry_at s path := file_at s path]> (names (files s)))
                                  (<[file_at s path := []]> (contents (files s))) /\
            forall msg, io_fault s <> Some (AtOpen, msg)
  | Raise e => files s' = files s /\ io_fault s = Some (AtOpen, exc_str e)
  end.
Proof.
  intros H. unfold file_open_wb in H.
  apply bind_inv in H as [([] & s1 & H1 & H) | (e & H1 & ->)];
    apply syscall_at_spec in H1 as [-> R1].
  - injection H as <- <-. split; [split; reflexivity | ]. split; [reflexivity | exact R1].
  - split; [split; reflexivity | ]. split; [reflexivity | apply R1].
Qed.

Lemma file_write_spec (path : string) (data : list Byte.byte)
    (s : state) (r : result unit) (s' : state) :
  file_write path data s = (r, s') ->
  io_extends s s' [SysWrite path] /\
  files s' = write_to (file_at s path) (take (spill s) data) (files s) /\
  match r with
  | Ok _ => forall msg, io_fault s <> Some (AtWrite, msg)
  | Raise e => io_fault s = Some (AtWrite, exc_str e)
  end.
Proof.
  intros H. unfold file_write in H. apply syscall_at_spec in H as [-> R].
  split; [split; reflexivity | ]. split; [reflexivity | ].
  destruct r; [exact R | apply R].
Qed.

Lemma file_close_spec (path : string) (data : list Byte.byte)
    (s : state) (r : result unit) (s' : state) :
  file_close path data s = (r, s') ->
  io_extends s s' [SysClose path] /\
  match r with
  | Ok _ => files s' = write_to (file_at s path) data (files s) /\
            forall msg, io_fault s <> Some (AtClose, msg)
  | Raise e => files s' = files s /\ io_fault s = Some (AtClose, exc_str e)
  end.
Proof.
  intros H. unfold file_close in H.
  apply bind_inv in H as [([] & s1 & H1 & H) | (e & H1 & ->)];
    apply syscall_at_spec in H1 as [-> R1].
  - injection H as <- <-. split; [split; reflexivity | ]. split; [reflexivity | exact R1].
  - split; [split; reflexivity | ]. split; [reflexivity | apply R1].
Qed.

Lemma os_replace_spec (src dst : string) (s : state) (r : result unit) (s' : state) :
  os_replace src dst s = (r, s') ->
  io_extends s s' [SysReplace src dst] /\
  match r with
  | Ok _ => (exists file, names (files s) !! entry_at s src = Some file /\
                          files s' = FileSystem (<[entry_at s dst := file]>
                                                   (delete (entry_at s src) (names (files s))))
                                                (contents (files s))) /\
            forall msg, io_fault s <> Some (AtReplace, msg)
  | Raise e => files s' = files s /\
               (io_fault s = Some (AtReplace, exc_str e) \/
                names (files s) !! entry_at s src = None)
  end.
Proof.
  intros H. unfold os_replace in H.
  apply bind_inv in H as [([] & s1 & H1 & H) | (e & H1 & ->)];
    apply syscall_at_spec in H1 as [-> R1].
  - change (files (log (Sys (SysReplace src dst)) s)) with (files s) in H.
    change (entry_at (log (Sys (SysReplace src dst)) s)) with (entry_at s) in H.
    destruct (names (files s) !! entry_at s src) as [file |] eqn:F.
    + injection H as <- <-. split; [split; reflexivity | ]. split; [ | exact R1].
      exists file. split; reflexivity.
    + injection H as <- <-. split; [split; reflexivity | ].
      split; [reflexivity | right; reflexivity].
  - split; [split; reflexivity | ]. split; [reflexivity | left; apply R1].
Qed.

Lemma staging_file_at (s s' : state) (path : string) (data : list Byte.byte)
    (calls : list syscall) :
  io_extends s s' calls -> staging s s' path data -> file_at s' path = file_at s path.
Proof.
  intros X F. unfold staging in F. unfold file_at at 1.
  rewrite (io_entry_at _ _ _ X), (io_new_file _ _ _ X), F. cbn [names].
  rewrite lookup_insert_eq. reflexivity.
Qed.

Lemma staging_write (s s' s2 : state) (path : string) (data data' : list Byte.byte)
    (calls : list syscall) :
  io_extends s s' calls -> staging s s' path data ->
  files s2 = write_to (file_at s' path) data' (files s') ->
  staging s s2 path data'.
Proof.
  intros X F W. unfold staging. rewrite W, (staging_file_at _ _ _ _ _ X F).
  unfold staging in F. rewrite F. unfold write_to. cbn [names contents].
  rewrite insert_insert_eq. reflexivity.
Qed.

Lemma staging_staging_only (s s' : state) (data : list Byte.byte) :
  staging s s' (tmp_path s) data -> staging_only s s'.
Proof.
  unfold staging. intros F. split; intros x Hx; rewrite F; cbn [names contents];
    apply lookup_insert_ne; congruence.
Qed.

Lemma staging_only_refl (s s' : state) : files s' = files s -> staging_only s s'.
Proof. intros F. split; intros x _; rewrite F; reflexivity. Qed.

Lemma staging_left_behind (s s' : state) (step : io_step) (data data' : list Byte.byte) :
  staging s s' (tmp_path s) data' ->
  match step with
  | AtWrite | AtClose => data' = take (spill s) data
  | AtReplace => data' = data
  | _ => False
  end ->
  files s' = left_behind step (entry_at s (tmp_path s)) (file_at s (tmp_path s))
               (spill s) data (files s).
Proof. unfold staging. intros F E. destruct step; try contradiction; subst data'; exact F. Qed.

Lemma export_spec (self : GeneratorWorker) (s : state) (r : result unit) (s' : state) :
  export self s = (r, s') ->
  exists n, io_extends s s' (take n (export_calls self s)) /\
  match r with
  | Ok _ => n = 4%nat /\ io_fault s = None /\
            exists data, streamToMidiFile (part s) = Ok data /\
              files s' = exported (entry_at s (tmp_path s)) (entry_at s (save_path self))
                           (file_at s (tmp_path s)) data (files s)
  | Raise e => staging_only s s' /\ export_failure s s' e n
  end.
Proof.
  unfold export, export_failure. destruct (streamToMidiFile (part s)) as [data | e] eqn:Hd.
  2:{ intros H. injection H as <- <-. exists 0%nat.
      split; [apply io_extends_refl | ].
      split; [apply staging_only_refl; reflexivity | left; tauto]. }
  intros H.
  apply bind_inv in H as [(dir & s0 & H0 & H) | (e & H0 & ->)];
    apply gettempdir_spec in H0 as [-> R0].
  2:{ exists 0%nat. split; [apply io_extends_refl | ].
      split; [apply staging_only_refl; reflexivity | ].
      right. exists data, AtTempdir. repeat split; assumption. }
  destruct R0 as [-> R0]. cbv zeta in H. fold (tmp_path s) in H.
  apply bind_inv in H as [([] & s1 & H1 & H) | (e & H1 & ->)];
    apply file_open_wb_spec in H1 as [X1 F1].
  2:{ exists 1%nat. split; [exact X1 | ]. destruct F1 as [F1 R1].
      split; [apply staging_only_refl; exact F1 | ].
      right. exists data, AtOpen. repeat split; assumption. }
  destruct F1 as [F1 R1]. fold (staging s s1 (tmp_path s) []) in F1.
  apply bind_inv in H as [([] & s2 & H2 & H) | (e & H2 & ->)];
    apply file_write_spec in H2 as (X2 & F2 & R2);
    apply (staging_write _ _ _ _ _ _ _ X1 F1) in F2;
    rewrite (io_spill _ _ _ X1) in F2; rewrite (io_io_fault _ _ _ X1) in R2;
    pose proof (io_extends_trans _ _ _ _ _ X1 X2) as X12.
  2:{ exists 2%nat. split; [exact X12 | ].
      split; [exact (staging_staging_only _ _ _ F2) | ].
      right. exists data, AtWrite. split; [reflexivity | ]. split; [exact R2 | ].
      split; [reflexivity | ]. apply (staging_left_behind _ _ AtWrite data _ F2). reflexivity. }
  apply bind_inv in H as [([] & s3 & H3 & H) | (e & H3 & ->)];
    apply file_close_spec in H3 as [X3 F3];
    pose proof (io_extends_trans _ _ _ _ _ X12 X3) as X13.
  2:{ exists 3%nat. split; [exact X13 | ]. destruct F3 as [F3 R3].
      rewrite (io_io_fault _ _ _ X12) in R3.
      unfold staging in F2. rewrite <- F3 in F2.
      split; [exact (staging_staging_only _ _ _ F2) | ].
      right. exists data, AtClose. split; [reflexivity | ]. split; [exact R3 | ].
      split; [reflexivity | ]. apply (staging_left_behind _ _ AtClose data _ F2). reflexivity. }
  destruct F3 as [F3 R3]. apply (staging_write _ _ _ _ _ _ _ X12 F2) in F3.
  rewrite (io_io_fault _ _ _ X12) in R3.
  apply os_replace_spec in H as [X4 F4].
  pose proof (io_extends_trans _ _ _ _ _ X13 X4) as X.
  exists 4%nat. split; [exact X | ].
  destruct r as [[] | e].
  - destruct F4 as [(file & L & F) R4]. split; [reflexivity | ].
    rewrite (io_io_fault _ _ _ X13) in R4.
    split.
    { destruct (io_fault s) as [[step msg] |]; [exfalso | reflexivity].
      destruct step; [apply (R0 msg) | apply (R1 msg) | apply (R2 msg) | apply (R3 msg)
                     | apply (R4 msg)]; reflexivity. }
    exists data. split; [reflexivity | ].
    rewrite (io_entry_at _ _ _ X13) in L, F. unfold staging in F3.
    rewrite F3 in L, F. cbn [names contents] in L, F.
    rewrite lookup_insert_eq in L. injection L as <-.
    rewrite F, delete_insert_eq. reflexivity.
  - destruct F4 as [F4 R4]. rewrite (io_io_fault _ _ _ X13), (io_entry_at _ _ _ X13) in R4.
    pose proof F3 as F3'. unfold staging in F3'. rewrite <- F4 in F3'.
    split; [exact (staging_staging_only _ _ _ F3') | ].
    right. exists data, AtReplace. split; [reflexivity | ]. split.
    { destruct R4 as [R4 | R4]; [exact R4 | ].
      unfold staging in F3. rewrite F3 in R4. cbn [names] in R4.
      rewrite lookup_insert_eq in R4. discriminate. }
    split; [reflexivity | ]. apply (staging_left_behind _ _ AtReplace data _ F3'). reflexivity.
Qed.

(** *** The whole run *)

Lemma tmp_path_tempdir (s1 s2 : state) : tempdir s1 = tempdir s2 -> tmp_path s1 = tmp_path s2.
Proof. unfold tmp_path. intros ->. reflexivity. Qed.

Lemma export_calls_tempdir (self : GeneratorWorker) (s1 s2 : state) :
  tempdir s1 = tempdir s2 -> export_calls self s1 = export_calls self s2.
Proof. unfold export_calls. intros E. rewrite (tmp_path_tempdir _ _ E). reflexivity. Qed.

Ltac state_simpl :=
  cbn [trace part files dirs tempdir io_fault entry_at new_file spill rand drawn
       set_part set_files set_drawn log] in *.

Lemma file_at_ext (s1 s2 : state) (path : string) :
  files s1 = files s2 -> entry_at s1 = entry_at s2 -> new_file s1 = new_file s2 ->
  file_at s1 path = file_at s2 path.
Proof. unfold file_at. intros -> -> ->. reflexivity. Qed.

Lemma staging_only_ext (s1 s2 s' : state) :
  files s1 = files s2 -> entry_at s1 = entry_at s2 -> new_file s1 = new_file s2 ->
  tempdir s1 = tempdir s2 ->
  staging_only s1 s' -> staging_only s2 s'.
Proof.
  intros F E N T [H1 H2]. unfold staging_only.
  rewrite <- (file_at_ext s1 s2 _ F E N), <- E, <- F. unfold tmp_path in *. rewrite <- T.
  split; assumption.
Qed.

(** Every run takes one of the three courses of [run_outcome]. *)
Lemma run_spec (self : GeneratorWorker) (s : state) : run_outcome self s (run self s).
Proof.
  unfold run. destruct (generate self s) as [r s'] eqn:H. unfold generate in H.
  apply bind_inv in H as [([] & s1 & H1 & H) | (e & H1 & _)]; [ | discriminate].
  injection H1 as <-.
  apply bind_inv in H as [([] & s2 & H2 & H) | (e & H2 & _)]; [ | discriminate].
  unfold part_append in H2. injection H2 as <-.
  pose proof (extends_append (MetronomeMark (tempo self)) (set_part [] s)) as X2.
  set (s2 := log _ _) in *. clearbody s2.
  apply bind_inv in H as [([] & s3 & H3 & H) | (e & H3 & _)]; [ | discriminate].
  unfold part_append in H3. injection H3 as <-.
  pose proof (extends_append (TimeSignature "4/4") s2) as X3.
  set (s3 := log _ _) in *. clearbody s3.
  apply bind_inv in H as [(ks & s4 & H4 & H) | (e & H4 & _)].
  2:{ apply random_choice_spec in H4 as [_ C]. discriminate. }
  apply random_choice_spec in H4 as [X4 Hks].
  apply bind_inv in H as [([] & s5 & H5 & H) | (e & H5 & _)]; [ | discriminate].
  unfold part_append in H5. injection H5 as <-.
  pose proof (extends_trans _ _ _ _ _ X2
                (extends_trans _ _ _ _ _ X3
                   (extends_trans _ _ _ _ _ X4 (extends_append (Key ks "major") s4)))) as Xh.
  change ([Append (MetronomeMark (tempo self))] ++ [Append (TimeSignature "4/4")] ++ [] ++
          [Append (Key ks "major")]) with (header self ks) in Xh.
  set (s5 := log _ _) in *. clearbody s5. clear X2 X3 X4 s2 s3 s4.
  destruct (measure_count self) as [measures |] eqn:HM.
  - apply bind_inv in H as [(m & s6 & H6 & H) | (e & H6 & _)]; [ | discriminate].
    injection H6 as <- <-.
    apply bind_inv in H as [([] & s7 & H7 & H) | (e & H7 & ->)].
    + apply loop_spec in H7 as (blocks & X7 & L & F).
      pose proof (extends_trans _ _ _ _ _ Xh X7) as Xg.
      pose proof (ext_trace _ _ _ Xg) as T7. pose proof (ext_part _ _ _ Xg) as P7.
      pose proof (ext_files _ _ _ Xg) as F7. pose proof (ext_dirs _ _ _ Xg) as D7.
      pose proof (ext_tempdir _ _ _ Xg) as E7. pose proof (ext_fault _ _ _ Xg) as O7.
      pose proof (ext_entry_at _ _ _ Xg) as A7. pose proof (ext_new_file _ _ _ Xg) as N7.
      state_simpl.
      apply bind_inv in H as [([] & s8 & H8 & H) | (e & H8 & _)]; [ | discriminate].
      unfold emit in H8. injection H8 as <-.
      set (s8 := log (Emit (progress_changed 100)) s7) in *.
      assert (E8 : tempdir s8 = tempdir s) by exact E7.
      apply bind_inv in H as [([] & s9 & H9 & H) | (e & H9 & ->)];
        apply export_spec in H9 as (n & X9 & R9);
        pose proof (io_trace _ _ _ X9) as T9; pose proof (io_part _ _ _ X9) as P9;
        pose proof (io_dirs _ _ _ X9) as D9; pose proof (io_entry_at _ _ _ X9) as A9;
        rewrite (export_calls_tempdir self s8 s E8) in T9;
        change (trace s8) with (trace s7 ++ [Emit (progress_changed 100)]) in T9;
        change (part s8) with (part s7) in P9, R9;
        change (dirs s8) with (dirs s7) in D9;
        change (entry_at s8) with (entry_at s7) in A9;
        change (io_fault s8) with (io_fault s7) in R9;
        rewrite ?O7 in R9.
      * destruct R9 as (-> & D & data & Hd & Fs).
        unfold emit in H. injection H as <- <-.
        apply (run_exported self s _ ks measures blocks 4 (finished (save_path self)));
          try assumption; state_simpl.
        -- rewrite T9, T7, <- !app_assoc. reflexivity.
        -- rewrite P9, P7. reflexivity.
        -- congruence.
        -- congruence.
        -- left. split; [reflexivity | split; [reflexivity | ]]. split; [exact D | ].
           exists data. split; [rewrite P9; exact Hd | ]. rewrite Fs.
           rewrite (file_at_ext s8 s _ F7 A7 N7), (tmp_path_tempdir s8 s E8).
           change (entry_at s8) with (entry_at s7). change (files s8) with (files s7).
           rewrite A7, F7. reflexivity.
      * apply (run_exported self s _ ks measures blocks n (error (exc_str e)));
          try assumption; state_simpl.
        -- rewrite T9, T7, <- !app_assoc. reflexivity.
        -- rewrite P9, P7. reflexivity.
        -- congruence.
        -- congruence.
        -- right. exists (exc_str e). split; [reflexivity | ].
           exact (staging_only_ext s8 s _ F7 A7 N7 E8 (proj1 R9)).
    + apply loop_spec in H7 as (blocks & X7 & played & -> & L & F).
      pose proof (extends_trans _ _ _ _ _ Xh X7) as Xg.
      pose proof (ext_trace _ _ _ Xg) as T7.
      pose proof (ext_files _ _ _ Xg) as F7. pose proof (ext_dirs _ _ _ Xg) as D7.
      pose proof (ext_entry_at _ _ _ Xg) as A7.
      state_simpl.
      apply (run_measure_failed self s _ ks measures played (exc_str e));
        try assumption; state_simpl.
      rewrite T7, <- !app_assoc. reflexivity.
  - apply bind_inv in H as [(m & s6 & H6 & H) | (e & H6 & ->)]; [discriminate | ].
    injection H6 as <- <-.
    pose proof (ext_trace _ _ _ Xh) as T7.
    pose proof (ext_files _ _ _ Xh) as F7. pose proof (ext_dirs _ _ _ Xh) as D7.
    pose proof (ext_entry_at _ _ _ Xh) as A7.
    state_simpl.
    apply (run_overflow self s _ ks); try assumption; state_simpl.
    rewrite T7, <- !app_assoc. reflexivity.
Qed.

(** *** Reading the history of a run *)

Lemma since_trace (s s' : state) (t : list (effect pitch)) :
  trace s' = trace s ++ t -> since s s' = t.
Proof. intros E. unfold since. rewrite E. apply drop_app_length. Qed.

Lemma signals_of_app (t1 t2 : list (effect pitch)) :
  signals_of (t1 ++ t2) = signals_of t1 ++ signals_of t2.
Proof. apply omap_app. Qed.

Lemma progress_of_app (t1 t2 : list (effect pitch)) :
  progress_of (t1 ++ t2) = progress_of t1 ++ progress_of t2.
Proof. unfold progress_of. rewrite signals_of_app. apply omap_app. Qed.

Lemma syscalls_of_app (t1 t2 : list (effect pitch)) :
  syscalls_of (t1 ++ t2) = syscalls_of t1 ++ syscalls_of t2.
Proof. apply omap_app. Qed.

Lemma signals_of_Append (evs : list (element pitch)) : signals_of (map Append evs) = [].
Proof. induction evs as [| e evs IH]; [reflexivity | exact IH]. Qed.

Lemma signals_of_Sys (cs : list syscall) : signals_of (map Sys cs) = [].
Proof. induction cs as [| c cs IH]; [reflexivity | exact IH]. Qed.

Lemma elements_of_Sys (cs : list syscall) : elements_of (map Sys cs) = [].
Proof. induction cs as [| c cs IH]; [reflexivity | exact IH]. Qed.

Lemma syscalls_of_Append (evs : list (element pitch)) : syscalls_of (map Append evs) = [].
Proof. induction evs as [| e evs IH]; [reflexivity | exact IH]. Qed.

Lemma syscalls_of_Sys (cs : list syscall) : syscalls_of (map Sys cs) = cs.
Proof.
  induction cs as [| c cs IH]; [reflexivity | ]. cbn. unfold syscalls_of in IH.
  rewrite IH. reflexivity.
Qed.

Lemma progress_of_measure (measures i : Z) (evs : list (element pitch)) :
  progress_of (measure_trace measures i evs) = [percent_of i measures].
Proof.
  unfold measure_trace, progress_of. cbn. fold (signals_of (map Append evs)).
  rewrite signals_of_Append. reflexivity.
Qed.

Lemma progress_of_loop (measures : Z) (idxs : list Z) (blocks : list (list (element pitch))) :
  progress_of (loop_trace measures idxs blocks)
  = map (fun i => percent_of i measures) (take (List.length blocks) idxs).
Proof.
  revert blocks. induction idxs as [| i idxs IH]; intros [| evs blocks]; try reflexivity.
  unfold loop_trace. cbn [zip_with concat List.length take map].
  rewrite progress_of_app, progress_of_measure. cbn. f_equal. apply IH.
Qed.

Lemma elements_of_loop (measures : Z) (idxs : list Z) (blocks : list (list (element pitch))) :
  (List.length blocks <= List.length idxs)%nat ->
  elements_of (loop_trace measures idxs blocks) = concat blocks.
Proof.
  revert blocks. induction idxs as [| i idxs IH]; intros [| evs blocks] L;
    try reflexivity; cbn in L; [lia | ].
  unfold loop_trace. cbn [zip_with concat]. rewrite elements_of_app.
  unfold measure_trace. change (elements_of (Emit ?x :: ?l)) with (elements_of l).
  rewrite elements_of_map_Append. f_equal. apply IH. lia.
Qed.

Lemma syscalls_of_loop (measures : Z) (idxs : list Z) (blocks : list (list (element pitch))) :
  syscalls_of (loop_trace measures idxs blocks) = [].
Proof.
  revert blocks. induction idxs as [| i idxs IH]; intros [| evs blocks]; try reflexivity.
  unfold loop_trace. cbn [zip_with concat]. rewrite syscalls_of_app.
  unfold measure_trace. change (syscalls_of (Emit ?x :: ?l)) with (syscalls_of l).
  rewrite syscalls_of_Append. apply IH.
Qed.

(** The part of the history every run shares: the header, then one block
    per measure begun, then signals and file operations only. *)
Lemma run_blocks (self : GeneratorWorker) (s : state) :
  exists ks measures blocks tail,
    ks ∈ possible_keys /\
    since s (run self s) = header self ks ++ loop_trace measures (range measures) blocks ++ tail /\
    (List.length blocks <= List.length (range measures))%nat /\
    Forall (fun evs => evs = [] \/ measure_events self ks (Ok tt) evs) blocks /\
    elements_of tail = [].
Proof.
  destruct (run_spec self s) as [ks Hks HM T _ _ _ | ks m played msg Hks HM L F T _ _ _
                                | ks m blocks n last Hks HM L F T _ _ _ _].
  - exists ks, 0, [], [Emit (error "int too large to convert to float")].
    split; [assumption | ]. split; [apply since_trace; exact T | ].
    split; [cbn; lia | ]. split; [constructor | reflexivity].
  - exists ks, m, (played ++ [[]]), [Emit (error msg)].
    split; [assumption | ]. split; [apply since_trace; exact T | ].
    split; [rewrite length_app; cbn; lia | ]. split; [ | reflexivity].
    apply Forall_app. split; [ | repeat constructor].
    eapply Forall_impl; [exact F | ]. intros evs E. right. exact E.
  - exists ks, m, blocks, (Emit (progress_changed 100)
                            :: map Sys (take n (export_calls self s)) ++ [Emit last]).
    split; [assumption | ]. split; [apply since_trace; exact T | ].
    split; [lia | ]. split.
    + eapply Forall_impl; [exact F | ]. intros evs E. right. exact E.
    + change (elements_of (Emit ?x :: ?l)) with (elements_of l).
      rewrite elements_of_app, elements_of_Sys. reflexivity.
Qed.

(** ** Durations *)

Lemma py_max_lb (a b : float) : (a <= py_max a b)%Q.
Proof. unfold py_max. destruct (Qlt_le_dec a b); lra. Qed.

Lemma crazy_values_complete (c : Z) : -10 <= c <= 10 -> In c crazy_values.
Proof.
  intros H. unfold crazy_values. apply in_map_iff. exists (Z.to_nat (c + 10)).
  split; [lia | apply in_seq; lia].
Qed.

Lemma base_len_spec (pat : string) : base_len pat = spec_base_length pat.
Proof.
  unfold base_len, spec_base_length, dict_get.
  destruct (String.eqb_spec pat "PAD") as [-> | N1]; [reflexivity | ].
  destruct (String.eqb_spec pat "CHORD") as [-> | N2]; [reflexivity | ].
  destruct (String.eqb_spec pat "BRASS") as [-> | N3]; [reflexivity | ].
  rewrite !lookup_insert_ne, lookup_singleton_ne by congruence. reflexivity.
Qed.

Lemma spec_base_length_cases (pat : string) :
  spec_base_length pat = 1 \/ spec_base_length pat = 2 \/ spec_base_length pat = 4.
Proof.
  unfold spec_base_length.
  destruct (String.eqb pat "PAD"); [tauto | ].
  destruct (String.eqb pat "CHORD"); [tauto | ].
  destruct (String.eqb pat "BRASS"); tauto.
Qed.

(** On the clamped range the binary64 chord length is the exact value of
    the formula up to rounding. *)
Lemma chord_quarterLength_close (pat : string) (c : Z) :
  -10 <= c <= 10 ->
  (Qabs (chord_quarterLength pat c - spec_chord_duration pat c) <= 1 # 2 ^ 51)%Q.
Proof.
  intros Hc. unfold chord_quarterLength, spec_chord_duration. rewrite base_len_spec.
  assert (T : forallb (fun c => forallb (fun b =>
             Qle_bool (Qabs (py_max (1 # 4) (fmul (inject_Z b) (length_factor c))
                             - Qmax (1 # 4) (inject_Z b * (1 + - inject_Z c / 20))))
                      (1 # 2 ^ 51)) [1; 2; 4]) crazy_values = true)
    by (vm_compute; reflexivity).
  rewrite forallb_forall in T. specialize (T c (crazy_values_complete c Hc)).
  rewrite forallb_forall in T. apply Qle_bool_iff, T.
  destruct (spec_base_length_cases pat) as [-> | [-> | ->]]; cbn; tauto.
Qed.

Lemma note_quarterLength_close (c : Z) :
  -10 <= c <= 10 ->
  (Qabs (note_quarterLength c - spec_note_duration c) <= 1 # 2 ^ 53)%Q.
Proof.
  intros Hc.
  assert (T : forallb (fun c =>
             Qle_bool (Qabs (note_quarterLength c - spec_note_duration c)) (1 # 2 ^ 53))
             crazy_values = true)
    by (vm_compute; reflexivity).
  rewrite forallb_forall in T. apply Qle_bool_iff, T, crazy_values_complete, Hc.
Qed.

Lemma measure_events_floor (self : GeneratorWorker) (ks : string) (evs : list (element pitch)) :
  measure_events self ks (Ok tt) evs -> Forall duration_floor evs.
Proof.
  intros H. inversion H as [| root acc count ps Hroot Hacc Hcount Hps]; subst.
  constructor; [apply py_max_lb | ]. apply Forall_app. split.
  - destruct Hacc as [-> | [_ ->]]; repeat constructor. cbn. lra.
  - apply Forall_forall. intros e He. apply list_elem_of_fmap in He as (p & -> & _).
    apply py_max_lb.
Qed.

(** The elements a run appended, block by block. *)
Lemma run_elements (self : GeneratorWorker) (s : state) :
  exists ks blocks,
    elements_of (since s (run self s)) = elements_of (header self ks) ++ concat blocks /\
    Forall (fun evs => evs = [] \/ measure_events self ks (Ok tt) evs) blocks.
Proof.
  destruct (run_blocks self s) as (ks & m & blocks & tail & _ & T & L & F & E).
  exists ks, blocks. split; [ | exact F].
  rewrite T, !elements_of_app, E, app_nil_r, (elements_of_loop _ _ _ L). reflexivity.
Qed.

(** C6. Every chord the engine appends, accents included, lasts at least
    0.25 quarter notes and every note at least 0.125, whatever the
    configuration, the random draws and the course of the run. *)
Theorem durations_bounded_below (self : GeneratorWorker) (s : state) :
  Forall duration_floor (elements_of (since s (run self s))).
Proof.
  destruct (run_elements self s) as (ks & blocks & -> & F).
  apply Forall_app. split; [repeat constructor | ].
  apply Forall_concat. eapply Forall_impl; [exact F | ].
  intros evs [-> | E]; [constructor | exact (measure_events_floor _ _ _ E)].
Qed.

(** C4. In every measure the chord the engine appends lasts
    [max(0.25, base_len * (1 + (-crazy/20)))] quarter notes, evaluated in
    binary64 as the code writes it, where [base_len] is 4 for PAD, 2 for
    CHORD, 2 for BRASS and 1 for every other pattern; for craziness in
    [-10, 10] this is the exact value of the formula up to rounding, and it
    is exactly 4 for PAD with craziness 0. *)
Theorem chord_duration (self : GeneratorWorker) (s : state) :
  -10 <= crazy self <= 10 ->
  (exists ks measures blocks tail,
      since s (run self s)
        = header self ks ++ loop_trace measures (range measures) blocks ++ tail /\
      elements_of tail = [] /\
      Forall (fun evs => evs = [] \/
                exists notes rest,
                  evs = Chord notes
                          (py_max (1 # 4)
                             (fmul (inject_Z (base_len (pattern self)))
                                   (fadd 1%Q (int_truediv (- crazy self) 20)))) :: rest)
             blocks) /\
  base_len (pattern self) = spec_base_length (pattern self) /\
  (Qabs (chord_quarterLength (pattern self) (crazy self)
         - spec_chord_duration (pattern self) (crazy self)) <= 1 # 2 ^ 51)%Q /\
  chord_quarterLength "PAD" 0 = 4%Q.
Proof.
  intros Hc. split; [ | split; [apply base_len_spec | split]].
  - destruct (run_blocks self s) as (ks & m & blocks & tail & _ & T & _ & F & E).
    exists ks, m, blocks, tail. split; [exact T | split; [exact E | ]].
    eapply Forall_impl; [exact F | ]. intros evs [-> | H]; [left; reflexivity | right].
    inversion H as [| root acc count ps _ _ _ _]; subst. eexists _, _. reflexivity.
  - apply chord_quarterLength_close, Hc.
  - vm_compute. reflexivity.
Qed.

Lemma measure_events_notes (self : GeneratorWorker) (ks : string) (evs : list (element pitch)) :
  measure_events self ks (Ok tt) evs ->
  Forall (fun e => match e with
                   | Note _ d => d = note_quarterLength (crazy self)
                   | _ => True
                   end) evs.
Proof.
  intros H. inversion H as [| root acc count ps Hroot Hacc Hcount Hps]; subst.
  constructor; [exact I | ]. apply Forall_app. split.
  - destruct Hacc as [-> | [_ ->]]; repeat constructor.
  - apply Forall_forall. intros e He. apply list_elem_of_fmap in He as (p & -> & _).
    reflexivity.
Qed.

(** C5. Every melodic note the engine appends lasts
    [max(0.125, 1 / (1 + crazy/10))] quarter notes when the craziness is 0
    or more and [max(0.125, 1 * (1 + |crazy|/10))] when it is negative,
    evaluated in binary64 as the code writes it; for craziness in [-10, 10]
    this is the exact value of the formula up to rounding, it is exactly
    0.5 at craziness 10 and exactly 2 at craziness -10. *)
Theorem note_duration_formula (self : GeneratorWorker) (s : state) :
  -10 <= crazy self <= 10 ->
  Forall (fun e => match e with
                   | Note _ d => d = note_quarterLength (crazy self)
                   | _ => True
                   end) (elements_of (since s (run self s))) /\
  note_quarterLength (crazy self)
    = py_max (1 # 8)
        (if 0 <=? crazy self then fdiv 1%Q (fadd 1%Q (int_truediv (crazy self) 10))
         else fmul 1%Q (fadd 1%Q (int_truediv (Z.abs (crazy self)) 10))) /\
  (Qabs (note_quarterLength (crazy self) - spec_note_duration (crazy self)) <= 1 # 2 ^ 53)%Q /\
  note_quarterLength 10 = (1 # 2)%Q /\
  note_quarterLength (-10) = 2%Q.
Proof.
  intros Hc. split; [ | split; [reflexivity | split; [ | split]]].
  - destruct (run_elements self s) as (ks & blocks & -> & F).
    apply Forall_app. split; [repeat constructor | ].
    apply Forall_concat. eapply Forall_impl; [exact F | ].
    intros evs [-> | E]; [constructor | exact (measure_events_notes _ _ _ E)].
  - apply note_quarterLength_close, Hc.
  - vm_compute. reflexivity.
  - vm_compute. reflexivity.
Qed.

(** C7. With the pattern ARP every measure carries three melodic notes, and
    the k-th of them (k = 0, 1, 2) is the tone at index k modulo 3 of the
    triad of that measure, so every melodic pitch is one of the three chord
    tones. *)
Theorem arpeggio_notes (self : GeneratorWorker) (s : state) :
  pattern self = "ARP"%string ->
  exists ks measures blocks tail,
    since s (run self s)
      = header self ks ++ loop_trace measures (range measures) blocks ++ tail /\
    elements_of tail = [] /\
    Forall (fun evs => evs = [] \/
              exists root acc ps,
                evs = Chord (triad root) (chord_quarterLength "ARP" (crazy self))
                        :: acc ++ map (fun p => Note p (note_quarterLength (crazy self))) ps /\
                (acc = [] \/ acc = [Chord (triad root) (1 # 2)%Q]) /\
                Forall2 (fun k p => nth_error (triad root) (Z.to_nat (k mod 3)) = Some p)
                        [0; 1; 2] ps /\
                Forall (fun p => p ∈ triad root) ps)
           blocks.
Proof.
  intros Hp.
  destruct (run_blocks self s) as (ks & m & blocks & tail & _ & T & _ & F & E).
  exists ks, m, blocks, tail. split; [exact T | split; [exact E | ]].
  eapply Forall_impl; [exact F | ]. intros evs [-> | H]; [left; reflexivity | right].
  inversion H as [| root acc count ps Hroot Hacc Hcount Hps]; subst.
  exists root, acc, ps. rewrite Hp in *.
  destruct Hcount as (r & _ & ->). unfold dict_get in Hps.
  rewrite lookup_insert_eq in Hps. cbn [default] in Hps.
  change (range 3) with [0; 1; 2] in Hps.
  assert (Hps' : Forall2 (fun k p => nth_error (triad root) (Z.to_nat (k mod 3)) = Some p)
                   [0; 1; 2] ps).
  { eapply Forall2_impl; [exact Hps | ]. intros k p Hk. unfold pitch_ok in Hk.
    rewrite Hp in Hk. exact Hk. }
  split; [reflexivity | ]. split; [destruct Hacc as [-> | [_ ->]]; tauto | ].
  split; [exact Hps' | ].
  clear - Hps'. induction Hps' as [| k p ks' ps' Hk _ IH]; constructor; [ | exact IH].
  apply list_elem_of_In. eapply nth_error_In. exact Hk.
Qed.

(** ** Progress *)

Lemma range_elem (i n : Z) : i ∈ range n <-> 0 <= i < n.
Proof.
  unfold range. rewrite list_elem_of_fmap. split.
  - intros (k & -> & Hk). apply elem_of_seq in Hk. lia.
  - intros H. exists (Z.to_nat i). split; [lia | apply elem_of_seq; lia].
Qed.

Lemma seq_sorted (a k : nat) : StronglySorted (fun i j => (i <= j)%nat) (seq a k).
Proof.
  revert a. induction k as [| k IH]; intros a; cbn; constructor; [apply IH | ].
  apply Forall_forall. intros j Hj. apply elem_of_seq in Hj. lia.
Qed.

Lemma range_sorted (n : Z) : StronglySorted (fun i j => 0 <= i <= j) (range n).
Proof.
  unfold range.
  apply (StronglySorted_fmap Z.of_nat (fun i j => (i <= j)%nat) (fun i j => 0 <= i <= j));
    [intros i j H; lia | apply seq_sorted].
Qed.

Lemma percent_of_sorted (measures : Z) :
  1 <= measures ->
  StronglySorted Z.le (map (fun i => percent_of i measures) (range measures) ++ [100]).
Proof.
  intros HM. apply StronglySorted_app_2.
  - intros v w Hv Hw. apply list_elem_of_fmap in Hv as (i & -> & Hi).
    apply range_elem in Hi. apply list_elem_of_singleton in Hw as ->.
    apply (percent_of_range i measures HM Hi).
  - apply (StronglySorted_fmap (fun i => percent_of i measures)
             (fun i j => 0 <= i <= j) Z.le);
      [intros i j [Hi Hij]; apply percent_of_mono; assumption | apply range_sorted].
  - repeat constructor.
Qed.

Lemma signals_of_loop (measures : Z) (idxs : list Z) (blocks : list (list (element pitch))) :
  signals_of (loop_trace measures idxs blocks)
  = map (fun i => progress_changed (percent_of i measures)) (take (List.length blocks) idxs).
Proof.
  revert blocks. induction idxs as [| i idxs IH]; intros [| evs blocks]; try reflexivity.
  unfold loop_trace. cbn [zip_with concat List.length take map].
  rewrite signals_of_app. unfold measure_trace.
  change (signals_of (Emit ?x :: ?l)) with (x :: signals_of l).
  rewrite signals_of_Append. cbn [app]. f_equal. apply IH.
Qed.

(** C1, as the code has it. With a measure count M from 1 up (below 2^45,
    far above what a run can finish), the history of a run is the header, then for each measure
    i begun the signal [progress_changed (int(i / M * 100))] followed by the
    elements of that measure, then, once all M measures are done,
    [progress_changed 100] and the export.  The value reported for measure
    i is the floor of the binary64 product, which is the exact
    [floor(100 * i / M)] or one below it, and is below 100; the progress
    values are non-decreasing and in [0, 100]; and a run that ends in
    [finished] reported all M of them and then 100. *)
Theorem progress_reports (self : GeneratorWorker) (s : state) (measures : Z) :
  measure_count self = Some measures ->
  1 <= measures < 2 ^ 45 ->
  let t := since s (run self s) in
  let per_measure := map (fun i => percent_of i measures) (range measures) in
  (exists ks blocks tail,
      t = header self ks ++ loop_trace measures (range measures) blocks ++ tail /\
      (List.length blocks <= List.length (range measures))%nat /\
      ((exists msg, tail = [Emit (error msg)]) \/
       (List.length blocks = List.length (range measures) /\
        exists calls last,
          tail = Emit (progress_changed 100) :: map Sys calls ++ [Emit last] /\
          (last = finished (save_path self) \/ exists msg, last = error msg)))) /\
  Forall (fun i => percent_of i measures = Qfloor (fmul (int_truediv i measures) 100%Q) /\
                   100 * i / measures - 1 <= percent_of i measures <= 100 * i / measures /\
                   0 <= percent_of i measures < 100) (range measures) /\
  progress_of t `prefix_of` (per_measure ++ [100]) /\
  StronglySorted Z.le (progress_of t) /\
  Forall (fun v => 0 <= v <= 100) (progress_of t) /\
  (forall path, finished path ∈ signals_of t -> progress_of t = per_measure ++ [100]).
Proof.
  intros HM [M1 M2] t per_measure.
  pose proof (eq_refl : per_measure = map (fun i => percent_of i measures) (range measures))
    as Epm.
  clearbody per_measure.
  assert (Hper : Forall (fun i => percent_of i measures
                                  = Qfloor (fmul (int_truediv i measures) 100%Q) /\
                                  100 * i / measures - 1 <= percent_of i measures
                                    <= 100 * i / measures /\
                                  0 <= percent_of i measures < 100) (range measures)).
  { apply Forall_forall. intros i Hi. apply range_elem in Hi.
    pose proof (percent_of_range i measures M1 Hi).
    pose proof (percent_of_below_100 i measures ltac:(lia) Hi).
    pose proof (percent_of_near_floor i measures (conj M1 M2) Hi).
    split; [ | split; [assumption | lia]]. unfold percent_of. apply int_of_float_floor.
    apply b64_nonneg. assert (0 <= int_truediv i measures)%Q; [ | nra].
    apply b64_nonneg. apply Qle_shift_div_l.
    - change 0%Q with (inject_Z 0). rewrite <- Zlt_Qlt. lia.
    - rewrite Qmult_0_l. change 0%Q with (inject_Z 0). rewrite <- Zle_Qle. lia. }
  assert (Hfull : StronglySorted Z.le (per_measure ++ [100]) /\
                  Forall (fun v => 0 <= v <= 100) (per_measure ++ [100])).
  { rewrite Epm. split; [apply percent_of_sorted; exact M1 | ].
    apply Forall_app. split; [ | repeat constructor; lia].
    apply Forall_fmap. eapply Forall_impl; [exact Hper | ].
    intros i (_ & _ & H). unfold compose. lia. }
  assert (Hpre : forall l, l `prefix_of` (per_measure ++ [100]) ->
                 StronglySorted Z.le l /\ Forall (fun v => 0 <= v <= 100) l).
  { intros l [k Hk]. destruct Hfull as [S B]. rewrite Hk in S, B. split.
    - exact (StronglySorted_app_1_l _ _ _ S).
    - apply Forall_app in B. tauto. }
  assert (Hcases :
    (exists ks blocks tail,
      t = header self ks ++ loop_trace measures (range measures) blocks ++ tail /\
      (List.length blocks <= List.length (range measures))%nat /\
      ((exists msg, tail = [Emit (error msg)]) \/
       (List.length blocks = List.length (range measures) /\
        exists calls last,
          tail = Emit (progress_changed 100) :: map Sys calls ++ [Emit last] /\
          (last = finished (save_path self) \/ exists msg, last = error msg)))) /\
    progress_of t `prefix_of` (per_measure ++ [100]) /\
    (forall path, finished path ∈ signals_of t -> progress_of t = per_measure ++ [100])).
  { unfold t.
    destruct (run_spec self s) as [ks Hks HM' T _ _ _ | ks m played msg Hks HM' L F T _ _ _
                                  | ks m blocks n last Hks HM' L F T _ _ _ Hl];
      [congruence | | ]; assert (m = measures) by congruence; subst m.
    - rewrite (since_trace _ _ _ T). split; [ | split].
      + exists ks, (played ++ [[]]), [Emit (error msg)]. split; [reflexivity | ].
        split; [rewrite length_app; cbn; lia | left; exists msg; reflexivity].
      + rewrite !progress_of_app, progress_of_loop.
        change (progress_of (header self ks)) with (@nil Z).
        change (progress_of [Emit (error msg)]) with (@nil Z).
        rewrite app_nil_r. cbn [app]. rewrite Epm.
        apply prefix_app_r.
        exists (map (fun i => percent_of i measures)
                  (drop (List.length (played ++ [[]])) (range measures))).
        rewrite <- map_app, take_drop. reflexivity.
      + intros path Hin. exfalso.
        rewrite !signals_of_app, signals_of_loop in Hin.
        change (signals_of (header self ks)) with (@nil signal) in Hin.
        change (signals_of [Emit (error msg)]) with [error msg] in Hin.
        cbn [app] in Hin.
        apply elem_of_app in Hin as [Hin | Hin].
        * apply list_elem_of_fmap in Hin as (i & C & _). discriminate.
        * apply list_elem_of_singleton in Hin. discriminate.
    - rewrite (since_trace _ _ _ T).
      assert (P : progress_of (header self ks ++ loop_trace measures (range measures) blocks
                    ++ Emit (progress_changed 100)
                       :: map Sys (take n (export_calls self s)) ++ [Emit last])
                  = per_measure ++ progress_of [Emit (progress_changed 100); Emit last]).
      { rewrite Epm, !progress_of_app, progress_of_loop, L, firstn_all.
        change (progress_of (header self ks)) with (@nil Z). cbn [app].
        change (Emit (progress_changed 100) :: ?l) with ([Emit (progress_changed 100)] ++ l).
        rewrite !progress_of_app.
        assert (E : progress_of (map Sys (take n (export_calls self s))) = [])
          by (unfold progress_of; rewrite signals_of_Sys; reflexivity).
        rewrite E. reflexivity. }
      split; [ | split].
      + exists ks, blocks, (Emit (progress_changed 100)
                             :: map Sys (take n (export_calls self s)) ++ [Emit last]).
        split; [reflexivity | ]. split; [lia | right]. split; [exact L | ].
        exists (take n (export_calls self s)), last. split; [reflexivity | ].
        destruct Hl as [(E & _) | (msg & E & _)]; [left; exact E | right; eauto].
      + rewrite P. destruct Hl as [(E & _) | (msg & E & _)]; rewrite E; reflexivity.
      + intros path _. rewrite P. destruct Hl as [(E & _) | (msg & E & _)]; rewrite E; reflexivity. }
  destruct Hcases as (C1 & C2 & C3). destruct (Hpre _ C2) as [S B]. tauto.
Qed.

(** ** The measure count and the length cap *)

(** C2. For a configuration with a positive tempo and a duration of at least
    one second (and a product below 2^51, far above any tempo a run can
    finish) the measure count is [floor(length * tempo / 60 / 4) + 1], which
    is at least 1; tempo 120 and 10 seconds give 6 measures. *)
Theorem measure_count_formula (self : GeneratorWorker) :
  0 < tempo self ->
  1 <= length self ->
  length self * tempo self < 2 ^ 51 ->
  measure_count self = Some (Qfloor (inject_Z (length self * tempo self) / 60 / 4) + 1) /\
  1 <= Qfloor (inject_Z (length self * tempo self) / 60 / 4) + 1 /\
  (forall pattern_type save_to craziness,
      measure_count (init 120 pattern_type 10 save_to craziness) = Some 6).
Proof.
  intros Ht Hl Hb. set (x := length self * tempo self) in *.
  assert (Hx : 0 <= x < 2 ^ 51) by (unfold x; nia).
  assert (E : Qfloor (inject_Z x / 60 / 4) = x / 240).
  { rewrite (Zdiv_Qdiv x 240). apply Qfloor_comp.
    change (inject_Z 240) with 240%Q. field. }
  rewrite E. split; [ | split].
  - unfold measure_count, beats_needed, float_of_int. fold x.
    assert (B : (Z.abs x <? 2 ^ 1024 - 2 ^ 970) = true).
    { apply Z.ltb_lt. apply Z.lt_trans with (2 ^ 51); [lia | reflexivity]. }
    rewrite B. cbn [option_map]. f_equal. apply measures_of_exact. exact Hx.
  - pose proof (Z.div_pos x 240 ltac:(lia) ltac:(lia)). lia.
  - intros pattern_type save_to craziness. vm_compute. reflexivity.
Qed.

(** C3, as the code has it. The engine caps the requested length at 60 and
    does nothing else to it: the stored length is [min(length_sec, 60)], so
    it never exceeds 60, 10000 becomes 60, and it is this value the beat
    count is computed from. *)
Theorem length_capped (tempo_bpm length_sec craziness : Z) (pattern_type save_to : string) :
  length (init tempo_bpm pattern_type length_sec save_to craziness) = Z.min length_sec 60 /\
  length (init tempo_bpm pattern_type length_sec save_to craziness) <= 60 /\
  beats_needed (init tempo_bpm pattern_type length_sec save_to craziness)
    = option_map (fun x => fdiv x 60%Q) (float_of_int (Z.min length_sec 60 * tempo_bpm)) /\
  length (init tempo_bpm pattern_type 10000 save_to craziness) = 60.
Proof.
  cbn [init length]. split; [reflexivity | ]. split; [lia | ].
  split; reflexivity.
Qed.

(** ** The export *)

Lemma signals_of_progress_only (self : GeneratorWorker) (ks : string) (measures : Z)
    (blocks : list (list (element pitch))) :
  Forall (fun sg => exists v, sg = progress_changed v)
         (signals_of (header self ks ++ loop_trace measures (range measures) blocks)).
Proof.
  rewrite signals_of_app, signals_of_loop.
  change (signals_of (header self ks)) with (@nil signal). cbn [app].
  apply Forall_forall. intros sg Hsg. apply list_elem_of_fmap in Hsg as (i & -> & _).
  eexists. reflexivity.
Qed.

Lemma file_at_entry (s : state) (p q : string) :
  entry_at s p = entry_at s q -> file_at s p = file_at s q.
Proof. unfold file_at. intros ->. reflexivity. Qed.

Lemma read_file_ext (s s' : state) (path : string) :
  files s' = files s -> entry_at s' = entry_at s -> read_file s' path = read_file s path.
Proof. unfold read_file. intros -> ->. reflexivity. Qed.

(** A path that does not lead to the staging file reads the same after an
    export that failed. *)
Lemma read_file_kept (s s' : state) (path : string) :
  entry_at s' = entry_at s ->
  staging_only s s' ->
  file_at s path <> file_at s (tmp_path s) ->
  read_file s' path = read_file s path.
Proof.
  intros E [H1 H2] Hne. unfold read_file. rewrite E.
  assert (He : entry_at s path <> entry_at s (tmp_path s)).
  { intros C. apply Hne. apply file_at_entry. exact C. }
  rewrite (H1 _ He).
  destruct (names (files s) !! entry_at s path) as [file |] eqn:N; [ | reflexivity].
  apply H2. intros ->. apply Hne. unfold file_at at 1. rewrite N. reflexivity.
Qed.

(** After a complete export the destination reads the data, and the staging
    path reads nothing unless it is the name of the destination. *)
Lemma read_file_exported (s s' : state) (dst : string) (data : list Byte.byte) :
  entry_at s' = entry_at s ->
  files s' = exported (entry_at s (tmp_path s)) (entry_at s dst)
               (file_at s (tmp_path s)) data (files s) ->
  read_file s' dst = Some data /\
  (entry_at s dst <> entry_at s (tmp_path s) -> read_file s' (tmp_path s) = None).
Proof.
  intros E F. unfold read_file. rewrite E, F. unfold exported. cbn [names contents].
  rewrite !lookup_insert_eq. split; [reflexivity | ].
  intros Hne. rewrite lookup_insert_ne by congruence. rewrite lookup_delete_eq. reflexivity.
Qed.

(** C9, as the code has it. When the destination does not lead to the
    staging file (it is not the staging path, another spelling of it, or a
    link to its file), a run ends in exactly one terminal signal, after
    progress signals only, and its file operations are an initial part of:
    open the staging file, write, close, replace the destination by it.  If
    the signal is [finished], all four were done, nothing was refused, the
    destination reads the serialized part and the staging path reads
    nothing; if it is [error], the destination reads what it read before
    the run (nothing, or its prior content).  Whenever a step of the export
    is refused, as the replacing is when the directory of the destination
    does not exist, the run ends in [error]. *)
Theorem export_atomic (self : GeneratorWorker) (s : state) :
  file_at s (save_path self) <> file_at s (tmp_path s) ->
  let s' := run self s in
  let t := since s s' in
  exists pre final,
    t = pre ++ [Emit final] /\
    Forall (fun sg => exists v, sg = progress_changed v) (signals_of pre) /\
    syscalls_of t `prefix_of` export_calls self s /\
    dirs s' = dirs s /\
    ((final = finished (save_path self) /\
      syscalls_of t = export_calls self s /\
      io_fault s = None /\
      exists data, streamToMidiFile (part s') = Ok data /\
                   read_file s' (save_path self) = Some data /\
                   read_file s' (tmp_path s) = None)
     \/ (exists msg, final = error msg /\
                     read_file s' (save_path self) = read_file s (save_path self))) /\
    (io_fault s <> None ->
     exists msg, final = error msg /\
                 read_file s' (save_path self) = read_file s (save_path self)).
Proof.
  intros Hne s' t. unfold t, s'. clear t s'.
  assert (He : entry_at s (save_path self) <> entry_at s (tmp_path s)).
  { intros C. apply Hne. apply file_at_entry. exact C. }
  destruct (run_spec self s) as [ks Hks HM T Fs Ds As | ks m played msg Hks HM L F T Fs Ds As
                                | ks m blocks n final Hks HM L F T P Ds As Hl];
    rewrite (since_trace _ _ _ T).
  - exists (header self ks), (error "int too large to convert to float").
    split; [reflexivity | ]. split; [repeat constructor | ].
    split; [apply prefix_nil | ]. split; [exact Ds | ].
    rewrite (read_file_ext _ _ _ Fs As).
    split; [right | intros _]; eexists; split; reflexivity.
  - exists (header self ks ++ loop_trace m (range m) (played ++ [[]])), (error msg).
    split; [rewrite <- app_assoc; reflexivity | ].
    split; [apply signals_of_progress_only | ].
    split.
    { rewrite !syscalls_of_app, syscalls_of_loop. apply prefix_nil. }
    split; [exact Ds | ].
    rewrite (read_file_ext _ _ _ Fs As).
    split; [right | intros _]; eexists; split; reflexivity.
  - exists (header self ks ++ loop_trace m (range m) blocks
            ++ Emit (progress_changed 100) :: map Sys (take n (export_calls self s))), final.
    assert (Hsys : syscalls_of (header self ks ++ loop_trace m (range m) blocks
                     ++ Emit (progress_changed 100)
                        :: map Sys (take n (export_calls self s)) ++ [Emit final])
                   = take n (export_calls self s)).
    { rewrite !syscalls_of_app, syscalls_of_loop.
      change (syscalls_of (header self ks)) with (@nil syscall).
      change (syscalls_of (Emit ?x :: ?l)) with (syscalls_of l).
      rewrite syscalls_of_app, syscalls_of_Sys. cbn. apply app_nil_r. }
    rewrite Hsys.
    split; [rewrite <- !app_assoc; reflexivity | ].
    split.
    { rewrite app_assoc, signals_of_app. apply Forall_app. split.
      - apply signals_of_progress_only.
      - change (signals_of (Emit ?x :: ?l)) with (x :: signals_of l).
        rewrite signals_of_Sys. repeat constructor. eexists. reflexivity. }
    split; [apply prefix_take | ]. split; [exact Ds | ].
    destruct Hl as [(-> & -> & Hf & data & Hd & Fs) | (msg & -> & Fs)].
    + destruct (read_file_exported s _ (save_path self) data As Fs) as [R1 R2].
      split.
      * left. split; [reflexivity | ]. split; [reflexivity | ]. split; [exact Hf | ].
        exists data. split; [exact Hd | ]. split; [exact R1 | exact (R2 He)].
      * intros C. contradiction.
    + pose proof (read_file_kept s _ (save_path self) As Fs Hne) as K.
      split; [right | intros _]; exists msg; split; try reflexivity; exact K.
Qed.

Lemma staged_take_export_calls (self : GeneratorWorker) (s : state) (n : nat) :
  omap (fun c => match c with SysOpen p => Some p | _ => None end)
       (take n (export_calls self s))
  = match n with O => [] | S _ => [tmp_path s] end.
Proof. destruct n as [| [| [| [| [| n]]]]]; reflexivity. Qed.

(** The staging paths of one run. *)
Lemma staged_run (self : GeneratorWorker) (s : state) :
  (staged (since s (run self s)) = [] \/ staged (since s (run self s)) = [tmp_path s]) /\
  (forall path, finished path ∈ signals_of (since s (run self s)) ->
                staged (since s (run self s)) = [tmp_path s]).
Proof.
  destruct (run_spec self s) as [ks Hks HM T Fs Ds As | ks m played msg Hks HM L F T Fs Ds As
                                | ks m blocks n final Hks HM L F T P Ds As Hl];
    rewrite (since_trace _ _ _ T).
  - split; [left; reflexivity | ]. intros path Hin.
    apply list_elem_of_singleton in Hin. discriminate.
  - assert (E : staged (header self ks ++ loop_trace m (range m) (played ++ [[]])
                        ++ [Emit (error msg)]) = []).
    { unfold staged. rewrite !syscalls_of_app, syscalls_of_loop. reflexivity. }
    split; [left; exact E | ]. intros path Hin. exfalso.
    rewrite !signals_of_app, signals_of_loop in Hin.
    change (signals_of (header self ks)) with (@nil signal) in Hin.
    change (signals_of [Emit (error msg)]) with [error msg] in Hin. cbn [app] in Hin.
    apply elem_of_app in Hin as [Hin | Hin].
    + apply list_elem_of_fmap in Hin as (i & C & _). discriminate.
    + apply list_elem_of_singleton in Hin. discriminate.
  - assert (E : staged (header self ks ++ loop_trace m (range m) blocks
                        ++ Emit (progress_changed 100)
                           :: map Sys (take n (export_calls self s)) ++ [Emit final])
                = match n with O => [] | S _ => [tmp_path s] end).
    { unfold staged. rewrite !syscalls_of_app, syscalls_of_loop.
      change (syscalls_of (header self ks)) with (@nil syscall).
      change (syscalls_of (Emit ?x :: ?l)) with (syscalls_of l).
      rewrite syscalls_of_app, syscalls_of_Sys. cbn [app syscalls_of omap].
      rewrite app_nil_r. apply staged_take_export_calls. }
    rewrite E. split; [destruct n; tauto | ].
    intros path Hin. destruct Hl as [(_ & -> & _) | (msg & -> & _)]; [reflexivity | ].
    exfalso. rewrite !signals_of_app, signals_of_loop in Hin.
    change (signals_of (header self ks)) with (@nil signal) in Hin.
    change (signals_of (Emit ?x :: ?l)) with (x :: signals_of l) in Hin.
    rewrite signals_of_app, signals_of_Sys in Hin. cbn [app] in Hin.
    apply elem_of_app in Hin as [Hin | Hin].
    + apply list_elem_of_fmap in Hin as (i & C & _). discriminate.
    + apply elem_of_cons in Hin as [C | Hin]; [discriminate | ].
      apply list_elem_of_singleton in Hin. discriminate.
Qed.

(** C10. Whatever the configuration, the destination and the random draws,
    a run stages its output in the file [midgen_temp.mid] of the
    temporary directory and nowhere else, and a run that ends in
    [finished] did stage there; so any two runs that see the same
    temporary directory stage in one and the same file. *)
Theorem staging_path_fixed (self1 self2 : GeneratorWorker) (s1 s2 : state) :
  tempdir s1 = tempdir s2 ->
  let tmp := path_join (tempdir s1) "midgen_temp.mid" in
  let staged1 := staged (since s1 (run self1 s1)) in
  let staged2 := staged (since s2 (run self2 s2)) in
  (staged1 = [] \/ staged1 = [tmp]) /\
  (staged2 = [] \/ staged2 = [tmp]) /\
  (forall path, finished path ∈ signals_of (since s1 (run self1 s1)) -> staged1 = [tmp]) /\
  (forall path, finished path ∈ signals_of (since s2 (run self2 s2)) -> staged2 = [tmp]) /\
  (forall p1 p2, p1 ∈ staged1 -> p2 ∈ staged2 -> p1 = p2).
Proof.
  intros E tmp staged1 staged2.
  destruct (staged_run self1 s1) as [A1 B1]. destruct (staged_run self2 s2) as [A2 B2].
  assert (T1 : tmp_path s1 = tmp) by reflexivity.
  assert (T2 : tmp_path s2 = tmp) by (unfold tmp_path, tmp; rewrite E; reflexivity).
  rewrite T1 in A1, B1. rewrite T2 in A2, B2.
  split; [exact A1 | ]. split; [exact A2 | ]. split; [exact B1 | ]. split; [exact B2 | ].
  intros p1 p2 H1 H2. unfold staged1, staged2 in *.
  destruct A1 as [A1 | A1]; rewrite A1 in H1; [inversion H1 | ].
  destruct A2 as [A2 | A2]; rewrite A2 in H2; [inversion H2 | ].
  apply list_elem_of_singleton in H1, H2. congruence.
Qed.

(** ** The validator *)

(** C8, as the code has it. When [int] reads an integer from the tempo
    field and from the length field, whatever their texts are, and the
    length is below 1 or above 60, [start_generation] shows the
    warning "Length out of range" (title "Input Error") and returns: no
    worker is made, and the engine's world (files, signals, random draws)
    is left as it was. *)
Theorem length_out_of_range_rejected (w : MainWindow) (s : state) (tempo_bpm length_sec : Z) :
  int_str (tempo_input w) = inl tempo_bpm ->
  int_str (length_input w) = inl length_sec ->
  length_sec < 1 \/ 60 < length_sec ->
  start_generation w s = (show (warning "Input Error" "Length out of range") w, s) /\
  worker (fst (start_generation w s)) = worker w /\
  btn_generate_enabled (fst (start_generation w s)) = btn_generate_enabled w.
Proof.
  intros Ht Hl Hr.
  assert (E : start_generation w s
              = (show (warning "Input Error" "Length out of range") w, s)).
  { unfold start_generation, read_inputs. rewrite Ht, Hl.
    assert (B : (length_sec <? 1) || (60 <? length_sec) = true).
    { apply orb_true_iff. destruct Hr; [left | right]; apply Z.ltb_lt; assumption. }
    rewrite B. reflexivity. }
  rewrite E. repeat split.
Qed.

End Facts.

(** * The theorems at work on concrete runs *)

Lemma progress_reports_witness :
  measure_count (init 120 "ARP" 10 "/home/u/out.mid" 7) = Some 6 /\
  1 <= 6 < 2 ^ 45 /\
  StronglySorted Z.le
    (progress_of (since (demo_state demo_draws)
                    (@run demo_music21 (init 120 "ARP" 10 "/home/u/out.mid" 7)
                       (demo_state demo_draws)))).
Proof.
  split; [vm_compute; reflexivity | ]. split; [lia | ].
  apply (@progress_reports demo_music21 (init 120 "ARP" 10 "/home/u/out.mid" 7)
           (demo_state demo_draws) 6); [vm_compute; reflexivity | lia].
Defined.

(** C1, the claim as stated: at 196 beats per minute and 60 seconds there
    are 50 measures, and the progress reported at measure 29 is 57, one
    below [floor(29 / 50 * 100) = 58]: the quotient 0.58 rounds down in
    binary64 and its product with 100 falls below 58. *)
Lemma progress_below_floor :
  measure_count (init 196 "ARP" 60 "/home/u/out.mid" 0) = Some 50 /\
  nth 29 (progress_of (since (demo_state demo_draws)
                         (@run demo_music21 (init 196 "ARP" 60 "/home/u/out.mid" 0)
                            (demo_state demo_draws)))) 0 = 57 /\
  Qfloor (29 / 50 * 100) = 58.
Proof. split; [ | split]; vm_compute; reflexivity. Qed.

Lemma measure_count_formula_witness :
  0 < 120 /\ 1 <= 10 /\ 10 * 120 < 2 ^ 51 /\
  measure_count (init 120 "ARP" 10 "/home/u/out.mid" 0)
    = Some (Qfloor (inject_Z (10 * 120) / 60 / 4) + 1).
Proof.
  split; [lia | ]. split; [lia | ]. split; [lia | ].
  apply (measure_count_formula (init 120 "ARP" 10 "/home/u/out.mid" 0)); cbn; lia.
Defined.

(** C3, the claim as stated: a length below 1 is not raised to 1. *)
Lemma length_below_one_kept :
  ~ (1 <= length (init 120 "ARP" 0 "/home/u/out.mid" 0) <= 60).
Proof. cbn. lia. Qed.

Lemma chord_duration_witness :
  -10 <= crazy (init 120 "PAD" 10 "/home/u/out.mid" 3) <= 10 /\
  (Qabs (chord_quarterLength "PAD" 3 - spec_chord_duration "PAD" 3) <= 1 # 2 ^ 51)%Q.
Proof.
  split; [cbn; lia | ].
  apply (@chord_duration demo_music21 (init 120 "PAD" 10 "/home/u/out.mid" 3)
           (demo_state demo_draws)).
  cbn. lia.
Defined.

Lemma note_duration_formula_witness :
  -10 <= crazy (init 120 "PLUCK" 10 "/home/u/out.mid" (-4)) <= 10 /\
  (Qabs (note_quarterLength (-4) - spec_note_duration (-4)) <= 1 # 2 ^ 53)%Q.
Proof.
  split; [cbn; lia | ].
  apply (@note_duration_formula demo_music21 (init 120 "PLUCK" 10 "/home/u/out.mid" (-4))
           (demo_state demo_draws)).
  cbn. lia.
Defined.

Lemma arpeggio_notes_witness :
  pattern (init 120 "ARP" 10 "/home/u/out.mid" 7) = "ARP"%string /\
  exists ks measures blocks tail,
    since (demo_state demo_draws)
      (@run demo_music21 (init 120 "ARP" 10 "/home/u/out.mid" 7) (demo_state demo_draws))
    = @header demo_music21 (init 120 "ARP" 10 "/home/u/out.mid" 7) ks
      ++ loop_trace measures (range measures) blocks ++ tail.
Proof.
  split; [reflexivity | ].
  destruct (@arpeggio_notes demo_music21 (init 120 "ARP" 10 "/home/u/out.mid" 7)
              (demo_state demo_draws) eq_refl) as (ks & m & blocks & tail & T & _).
  exists ks, m, blocks, tail. exact T.
Defined.

(** C8, the claim as stated: the message starts with a capital letter, and
    an unreadable tempo is reported first. *)
Lemma length_message_differs :
  fst (@start_generation demo_music21 demo_builtins
         (Window "120" "ARP" "0" 0 "/home/u/out.mid" true 0 "0%" [] None)
         (demo_state demo_draws))
    <> show (warning "Input Error" "length out of range")
         (Window "120" "ARP" "0" 0 "/home/u/out.mid" true 0 "0%" [] None) /\
  dialogs (fst (@start_generation demo_music21 demo_builtins
                  (Window "abc" "ARP" "0" 0 "/home/u/out.mid" true 0 "0%" [] None)
                  (demo_state demo_draws)))
    = [warning "Input Error" "invalid literal for int() with base 10: 'abc'"].
Proof. split; [vm_compute; discriminate | vm_compute; reflexivity]. Qed.

Lemma length_out_of_range_rejected_witness :
  @int_str demo_builtins "120" = inl 120 /\ @int_str demo_builtins "61" = inl 61 /\
  (61 < 1 \/ 60 < 61) /\
  @start_generation demo_music21 demo_builtins
    (Window "120" "ARP" "61" 0 "/home/u/out.mid" true 0 "0%" [] None) (demo_state demo_draws)
  = (show (warning "Input Error" "Length out of range")
       (Window "120" "ARP" "61" 0 "/home/u/out.mid" true 0 "0%" [] None),
     demo_state demo_draws).
Proof.
  split; [reflexivity | ]. split; [reflexivity | ]. split; [right; lia | ].
  apply (@length_out_of_range_rejected demo_music21 demo_builtins
           (Window "120" "ARP" "61" 0 "/home/u/out.mid" true 0 "0%" [] None)
           (demo_state demo_draws) 120 61); [reflexivity | reflexivity | right; lia].
Defined.

(** C9, the claim as stated: a failure in the write step leaves the
    destination emptied when the destination is the staging path, or
    another name of the staging file. *)
Lemma staging_destination_clobbered :
  read_file clobber_state "/tmp/midgen_temp.mid" = Some [Byte.x01] /\
  read_file (@run demo_music21 (init 120 "ARP" 1 "/tmp/midgen_temp.mid" 0) clobber_state)
    "/tmp/midgen_temp.mid" = Some [] /\
  last (since clobber_state
          (@run demo_music21 (init 120 "ARP" 1 "/tmp/midgen_temp.mid" 0) clobber_state))
    = Some (Emit (error "[Errno 28] No space left on device")) /\
  read_file linked_state "/home/u/out.mid" = Some [Byte.x01] /\
  read_file (@run demo_music21 (init 120 "ARP" 1 "/home/u/out.mid" 0) linked_state)
    "/home/u/out.mid" = Some [] /\
  last (since linked_state
          (@run demo_music21 (init 120 "ARP" 1 "/home/u/out.mid" 0) linked_state))
    = Some (Emit (error "[Errno 28] No space left on device")).
Proof. repeat split; vm_compute; reflexivity. Qed.

Lemma export_atomic_witness :
  file_at (demo_state demo_draws) (save_path (init 120 "ARP" 10 "/home/u/out.mid" 7))
    <> file_at (demo_state demo_draws) (tmp_path (demo_state demo_draws)) /\
  dirs (@run demo_music21 (init 120 "ARP" 10 "/home/u/out.mid" 7) (demo_state demo_draws))
    = dirs (demo_state demo_draws).
Proof.
  assert (N : file_at (demo_state demo_draws)
                (save_path (init 120 "ARP" 10 "/home/u/out.mid" 7))
              <> file_at (demo_state demo_draws) (tmp_path (demo_state demo_draws)))
    by (vm_compute; discriminate).
  split; [exact N | ].
  destruct (@export_atomic demo_music21 (init 120 "ARP" 10 "/home/u/out.mid" 7)
              (demo_state demo_draws) N) as (pre & final & _ & _ & _ & D & _).
  exact D.
Defined.

Lemma staging_path_fixed_witness :
  tempdir (demo_state demo_draws) = tempdir clobber_state /\
  forall p1 p2,
    p1 ∈ staged (since (demo_state demo_draws)
                   (@run demo_music21 (init 120 "ARP" 10 "/home/u/out.mid" 7)
                      (demo_state demo_draws))) ->
    p2 ∈ staged (since clobber_state
                   (@run demo_music21 (init 90 "PAD" 1 "/tmp/midgen_temp.mid" 0)
                      clobber_state)) ->
    p1 = p2.
Proof.
  split; [reflexivity | ].
  apply (@staging_path_fixed demo_music21 (init 120 "ARP" 10 "/home/u/out.mid" 7)
           (init 90 "PAD" 1 "/tmp/midgen_temp.mid" 0) (demo_state demo_draws) clobber_state).
  reflexivity.
Defined.

(** * More of the engine and of the window *)

Section Coverage.
Context `{m21 : Music21} `{py : Builtins}.

(** ** The course of a run, step by step *)

Lemma index_nth {A : Type} (l : list A) (i : Z) (s : state) (r : result A) (s' : state) :
  0 <= i ->
  index l i s = (r, s') ->
  s' = s /\
  match r with
  | Ok a => nth_error l (Z.to_nat i) = Some a
  | Raise e => nth_error l (Z.to_nat i) = None /\
               e = Exception "IndexError" "list index out of range"
  end.
Proof.
  intros Hi. unfold index. cbv zeta.
  assert (E1 : (i <? 0) = false) by (apply Z.ltb_ge; exact Hi). rewrite !E1.
  destruct (nth_error l (Z.to_nat i)) as [a |];
    unfold ret, raise; intros H; injection H as <- <-; repeat split; reflexivity.
Qed.

Lemma choice_degree (s : state) (r : result Z) (s' : state) :
  random_choice [1; 4; 5] s = (r, s') ->
  exists d, r = Ok d /\ d ∈ [1; 4; 5] /\ extends s s' [] /\ drawn s' = S (drawn s).
Proof.
  intros H. destruct r as [d | e].
  - pose proof H as H'. apply random_choice_spec in H as [X Hin]. exists d.
    unfold random_choice, bind, draw, ret in H'. injection H' as _ <-. tauto.
  - apply random_choice_spec in H as [_ C]. discriminate.
Qed.

Lemma random_choice_drawn {A : Type} (l : list A) (s : state) (r : result A) (s' : state) :
  l <> [] -> random_choice l s = (r, s') -> drawn s' = S (drawn s).
Proof.
  intros Hne. destruct l as [| a l]; [contradiction | ].
  unfold random_choice, bind, draw, ret. intros H. injection H as _ <-. reflexivity.
Qed.

Lemma melody_note_drawn (self : GeneratorWorker) (ks : string) (root : pitch) (idx : Z)
    (s : state) (r : result unit) (s' : state) :
  getPitches ks <> [] ->
  melody_note self ks (triad root) idx s = (r, s') ->
  drawn s' = (drawn s + if String.eqb (pattern self) "ARP" then 0 else 1)%nat.
Proof.
  intros Hne H. unfold melody_note in H.
  assert (K : forall r1 s1,
            (if String.eqb (pattern self) "ARP" then
               index (triad root) (idx mod Z.of_nat (List.length (triad root)))
             else if String.eqb (pattern self) "PLUCK" then random_choice (triad root)
             else random_choice (getPitches ks)) s = (r1, s1) ->
            drawn s1 = (drawn s + if String.eqb (pattern self) "ARP" then 0 else 1)%nat).
  { intros r1 s1. destruct (String.eqb (pattern self) "ARP");
      [ | destruct (String.eqb (pattern self) "PLUCK")]; intros Hp.
    - apply index_spec in Hp as [-> _]. lia.
    - apply random_choice_drawn in Hp; [lia | discriminate].
    - apply random_choice_drawn in Hp; [lia | exact Hne]. }
  apply bind_inv in H as [(p & s1 & Hp & H) | (e & Hp & _)].
  - unfold part_append in H. injection H as _ <-. cbn [drawn log set_part].
    exact (K _ _ Hp).
  - exact (K _ _ Hp).
Qed.

Lemma melody_drawn (self : GeneratorWorker) (ks : string) (root : pitch) (idxs : list Z)
    (s : state) (r : result unit) (s' : state) :
  getPitches ks <> [] ->
  for_each idxs (melody_note self ks (triad root)) s = (r, s') ->
  drawn s' = (drawn s + if String.eqb (pattern self) "ARP" then 0 else List.length idxs)%nat.
Proof.
  intros Hne. revert s. induction idxs as [| idx idxs IH]; intros s H.
  - cbn in H. injection H as _ <-. destruct (String.eqb (pattern self) "ARP"); cbn; lia.
  - cbn [for_each] in H. apply bind_inv in H as [([] & s1 & H1 & H) | (e & H1 & _)].
    + apply (melody_note_drawn _ _ _ _ _ _ _ Hne) in H1. apply IH in H.
      rewrite H, H1. destruct (String.eqb (pattern self) "ARP"); cbn [List.length]; lia.
    + apply (melody_note_spec _ _ _ _ _ _ _ Hne) in H1 as [C _]. discriminate.
Qed.

Lemma accent_drawn (self : GeneratorWorker) (chord_notes : list pitch)
    (s : state) (r : result unit) (s' : state) :
  accent self chord_notes s = (r, s') ->
  drawn s' = (drawn s + if (5 <? crazy self)%Z then 1 else 0)%nat.
Proof.
  unfold accent. destruct (5 <? crazy self).
  - unfold random_random, bind, draw, ret. cbv beta iota.
    match goal with |- context [Qlt_le_dec ?a ?b] => destruct (Qlt_le_dec a b) end;
      intros H; injection H as _ <-; cbn [drawn log set_part set_drawn]; lia.
  - intros H. injection H as _ <-. lia.
Qed.

Lemma note_count_drawn (pat : string) (s : state) (r : result Z) (s' : state) :
  note_count pat s = (r, s') -> drawn s' = S (drawn s).
Proof.
  unfold note_count, random_randint, bind, draw, ret. intros H. injection H as _ <-.
  reflexivity.
Qed.

Lemma notes_in_app (l1 l2 : list (element pitch)) :
  notes_in (l1 ++ l2) = (notes_in l1 + notes_in l2)%nat.
Proof. unfold notes_in. rewrite List.filter_app, length_app. reflexivity. Qed.

Lemma notes_in_notes (d : float) (ps : list pitch) :
  notes_in (map (fun p => Note p d) ps) = List.length ps.
Proof.
  induction ps as [| p ps IH]; [reflexivity | ].
  unfold notes_in in *. cbn. rewrite IH. reflexivity.
Qed.

(** One iteration of the measure loop, with its degree and its draws. *)
Lemma measure_detail_spec (self : GeneratorWorker) (ks : string) (measures i : Z)
    (s : state) (r : result unit) (s' : state) :
  measure self ks measures i s = (r, s') ->
  exists evs, extends s s' (measure_trace measures i evs) /\ measure_detail self ks r evs /\
              drawn s' = (drawn s + draws_of self evs)%nat.
Proof.
  intros H. unfold measure in H.
  apply bind_inv in H as [([] & s1 & H1 & H) | (e & H1 & _)]; [ | discriminate].
  unfold emit in H1. injection H1 as <-.
  pose proof (extends_emit (progress_changed (percent_of i measures)) s) as X0.
  assert (N0 : drawn (log (Emit (progress_changed (percent_of i measures))) s) = drawn s)
    by reflexivity.
  set (s1 := log _ s) in *. clearbody s1.
  apply bind_inv in H as [(degree & s2 & H2 & H) | (e & H2 & _)].
  2:{ apply choice_degree in H2 as (d & C & _). discriminate. }
  apply choice_degree in H2 as (d & C & Hd & X2 & N2). injection C as ->.
  assert (D0 : 0 <= d - 1).
  { apply elem_of_cons in Hd as [-> | Hd']; [lia | ].
    apply elem_of_cons in Hd' as [-> | Hd']; [lia | ].
    apply list_elem_of_singleton in Hd' as ->. lia. }
  apply bind_inv in H as [(root & s3 & H3 & H) | (e & H3 & ->)].
  2:{ apply (index_nth _ _ _ _ _ D0) in H3 as [-> [N ->]]. exists []. split.
      - exact (extends_trans _ _ _ _ _ X0 X2).
      - split; [econstructor; eassumption | ]. cbn [draws_of]. lia. }
  apply (index_nth _ _ _ _ _ D0) in H3 as [-> N].
  assert (Hroot : root ∈ getPitches ks).
  { apply list_elem_of_In. eapply nth_error_In. exact N. }
  fold (triad root) in H.
  apply bind_inv in H as [([] & s4 & H4 & H) | (e & H4 & _)]; [ | discriminate].
  unfold part_append in H4. injection H4 as <-.
  pose proof (extends_append
    (Chord (triad root) (chord_quarterLength (pattern self) (crazy self))) s2) as X4.
  assert (N4 : drawn (log (Append (Chord (triad root)
                                     (chord_quarterLength (pattern self) (crazy self))))
                        (set_part (part s2 ++ [Chord (triad root)
                                     (chord_quarterLength (pattern self) (crazy self))]) s2))
               = drawn s2) by reflexivity.
  set (s4 := log _ _) in *. clearbody s4.
  apply bind_inv in H as [([] & s5 & H5 & H) | (e & H5 & _)].
  2:{ apply accent_spec in H5 as [C _]. discriminate. }
  pose proof (accent_drawn _ _ _ _ _ H5) as N5.
  apply accent_spec in H5 as [_ (acc & X5 & Hacc)].
  apply bind_inv in H as [(count & s6 & H6 & H) | (e & H6 & _)].
  2:{ apply note_count_spec in H6 as (c & C & _). discriminate. }
  pose proof (note_count_drawn _ _ _ _ H6) as N6.
  apply note_count_spec in H6 as (c & C & X6 & Hcount). injection C as <-.
  assert (Hne : getPitches ks <> []).
  { intros E. rewrite E in Hroot. inversion Hroot. }
  pose proof (melody_drawn _ _ _ _ _ _ _ Hne H) as N7.
  apply (melody_spec _ _ _ _ _ _ _ Hne) in H as [-> (ps & X7 & Hps)].
  exists (Chord (triad root) (chord_quarterLength (pattern self) (crazy self))
            :: acc ++ map (fun p => Note p (note_quarterLength (crazy self))) ps).
  split; [ | split].
  - pose proof (extends_trans _ _ _ _ _ X0
                 (extends_trans _ _ _ _ _ X2
                   (extends_trans _ _ _ _ _ X4
                     (extends_trans _ _ _ _ _ X5
                       (extends_trans _ _ _ _ _ X6 X7))))) as X.
    unfold measure_trace. cbn [map]. rewrite map_app. exact X.
  - eapply detail_played; [exact Hd | exact N | ]. econstructor; eassumption.
  - rewrite N7, N6, N5, N4, N2, N0. cbn [draws_of].
    change (Chord ?c ?q :: ?l) with ([Chord c q] ++ l).
    rewrite !notes_in_app, notes_in_notes, (Forall2_length _ _ _ Hps).
    assert (A0 : notes_in acc = 0%nat) by (destruct Hacc as [-> | [_ ->]]; reflexivity).
    rewrite A0. change (notes_in [Chord ?c ?q]) with 0%nat.
    destruct (5 <? crazy self); destruct (String.eqb (pattern self) "ARP"); lia.
Qed.

(** The measure loop, one block per index, with the detail of each. *)
Lemma loop_detail (self : GeneratorWorker) (ks : string) (measures : Z) (idxs : list Z)
    (s : state) (r : result unit) (s' : state) :
  for_each idxs (measure self ks measures) s = (r, s') ->
  exists blocks,
    extends s s' (loop_trace measures idxs blocks) /\
    drawn s' = (drawn s + sum_list (map (draws_of self) blocks))%nat /\
    match r with
    | Ok _ => List.length blocks = List.length idxs /\
              Forall (measure_detail self ks (Ok tt)) blocks
    | Raise e => exists played, blocks = played ++ [[]] /\
                 (List.length played < List.length idxs)%nat /\
                 Forall (measure_detail self ks (Ok tt)) played /\
                 measure_detail self ks (Raise e) []
    end.
Proof.
  revert s. induction idxs as [| i idxs IH]; intros s H.
  - cbn in H. injection H as <- <-. exists []. split; [apply extends_refl | ].
    split; [cbn; lia | ]. split; [reflexivity | constructor].
  - cbn [for_each] in H. apply bind_inv in H as [([] & s1 & H1 & H) | (e & H1 & ->)].
    + apply measure_detail_spec in H1 as (evs & X1 & E1 & N1).
      apply IH in H as (blocks & X2 & N2 & Hr).
      exists (evs :: blocks). split; [ | split].
      * unfold loop_trace. cbn [zip_with concat]. exact (extends_trans _ _ _ _ _ X1 X2).
      * cbn [map]. change (sum_list (?x :: ?l)) with (x + sum_list l)%nat. lia.
      * destruct r as [[] | e].
        -- destruct Hr as [L F]. split; [cbn; congruence | constructor; assumption].
        -- destruct Hr as (played & -> & L & F & D). exists (evs :: played).
           split; [reflexivity | ]. split; [cbn; lia | ]. split; [ | exact D].
           constructor; assumption.
    + apply measure_detail_spec in H1 as (evs & X1 & E1 & N1).
      assert (evs = []) by (inversion E1; reflexivity). subst evs.
      exists [[]]. split; [ | split].
      * unfold loop_trace. cbn [zip_with]. rewrite zip_with_nil_r. cbn [concat].
        rewrite app_nil_r. exact X1.
      * cbn. cbn in N1. lia.
      * exists []. split; [reflexivity | ]. split; [cbn; lia | ]. split; [constructor | exact E1].
Qed.

(** The control flow of [run]: the header, then one of four ends. *)
Lemma run_cases (self : GeneratorWorker) (s : state) :
  exists ks sh,
    ks ∈ possible_keys /\
    ks = key_of_draw (rand s (drawn s)) /\
    drawn sh = S (drawn s) /\
    extends (set_part [] s) sh (header self ks) /\
    ((measure_count self = None /\
      run self s = log (Emit (error "int too large to convert to float")) sh)
     \/ (exists measures e s1,
           measure_count self = Some measures /\
           for_each (range measures) (measure self ks measures) sh = (Raise e, s1) /\
           run self s = log (Emit (error (exc_str e))) s1)
     \/ (exists measures s1 e s2,
           measure_count self = Some measures /\
           for_each (range measures) (measure self ks measures) sh = (Ok tt, s1) /\
           export self (log (Emit (progress_changed 100)) s1) = (Raise e, s2) /\
           run self s = log (Emit (error (exc_str e))) s2)
     \/ (exists measures s1 s2,
           measure_count self = Some measures /\
           for_each (range measures) (measure self ks measures) sh = (Ok tt, s1) /\
           export self (log (Emit (progress_changed 100)) s1) = (Ok tt, s2) /\
           run self s = log (Emit (finished (save_path self))) s2)).
Proof.
  unfold run. destruct (generate self s) as [r s'] eqn:H. unfold generate in H.
  apply bind_inv in H as [([] & s1 & H1 & H) | (e & H1 & _)]; [ | discriminate].
  injection H1 as <-.
  apply bind_inv in H as [([] & s2 & H2 & H) | (e & H2 & _)]; [ | discriminate].
  unfold part_append in H2. injection H2 as <-.
  pose proof (extends_append (MetronomeMark (tempo self)) (set_part [] s)) as X2.
  assert (N2 : drawn (log (Append (MetronomeMark (tempo self)))
                        (set_part (part (set_part [] s) ++ [MetronomeMark (tempo self)])
                           (set_part [] s))) = drawn s) by reflexivity.
  set (s2 := log _ _) in *. clearbody s2.
  apply bind_inv in H as [([] & s3 & H3 & H) | (e & H3 & _)]; [ | discriminate].
  unfold part_append in H3. injection H3 as <-.
  pose proof (extends_append (TimeSignature "4/4") s2) as X3.
  assert (N3 : drawn (log (Append (TimeSignature "4/4"))
                        (set_part (part s2 ++ [TimeSignature "4/4"]) s2)) = drawn s2)
    by reflexivity.
  set (s3 := log _ _) in *. clearbody s3.
  apply bind_inv in H as [(ks & s4 & H4 & H) | (e & H4 & _)].
  2:{ apply random_choice_spec in H4 as [_ C]. discriminate. }
  assert (K4 : ks = key_of_draw (rand s3 (drawn s3)) /\ drawn s4 = S (drawn s3)).
  { unfold random_choice, possible_keys, bind, draw, ret in H4. injection H4 as <- <-.
    split; reflexivity. }
  destruct K4 as [K4 N4].
  rewrite (ext_rand _ _ _ X3), (ext_rand _ _ _ X2), N3, N2 in K4. cbn [rand set_part] in K4.
  rewrite N3, N2 in N4.
  apply random_choice_spec in H4 as [X4 Hks].
  apply bind_inv in H as [([] & s5 & H5 & H) | (e & H5 & _)]; [ | discriminate].
  unfold part_append in H5. injection H5 as <-.
  pose proof (extends_trans _ _ _ _ _ X2
                (extends_trans _ _ _ _ _ X3
                   (extends_trans _ _ _ _ _ X4 (extends_append (Key ks "major") s4)))) as Xh.
  change ([Append (MetronomeMark (tempo self))] ++ [Append (TimeSignature "4/4")] ++ [] ++
          [Append (Key ks "major")]) with (header self ks) in Xh.
  assert (N5 : drawn (log (Append (Key ks "major"))
                        (set_part (part s4 ++ [Key ks "major"]) s4)) = S (drawn s))
    by exact N4.
  set (s5 := log _ _) in *. clearbody s5. clear X2 X3 X4 N2 N3 N4 s2 s3 s4.
  exists ks, s5. split; [exact Hks | ]. split; [exact K4 | ]. split; [exact N5 | ].
  split; [exact Xh | ].
  destruct (measure_count self) as [measures |] eqn:HM.
  - right.
    apply bind_inv in H as [(m & s6 & H6 & H) | (e & H6 & _)]; [ | discriminate].
    injection H6 as <- <-.
    apply bind_inv in H as [([] & s7 & H7 & H) | (e & H7 & ->)].
    + right.
      apply bind_inv in H as [([] & s8 & H8 & H) | (e & H8 & _)]; [ | discriminate].
      unfold emit in H8. injection H8 as <-.
      apply bind_inv in H as [([] & s9 & H9 & H) | (e & H9 & ->)].
      * right. unfold emit in H. injection H as <- <-.
        exists measures, s7, s9. repeat split; assumption.
      * left. exists measures, s7, e, s'. repeat split; assumption.
    + left. exists measures, e, s'. repeat split; assumption.
  - left. apply bind_inv in H as [(m & s6 & H6 & H) | (e & H6 & ->)]; [discriminate | ].
    injection H6 as <- <-. split; reflexivity.
Qed.

Lemma run_blocks_with (self : GeneratorWorker) (s : state)
    (P : string -> list (element pitch) -> Prop) :
  (forall ks evs, ks ∈ possible_keys -> measure_events self ks (Ok tt) evs -> P ks evs) ->
  exists ks measures blocks tail,
    ks ∈ possible_keys /\
    since s (run self s) = header self ks ++ loop_trace measures (range measures) blocks ++ tail /\
    elements_of tail = [] /\
    Forall (fun evs => evs = [] \/ P ks evs) blocks.
Proof.
  intros HP. destruct (run_blocks self s) as (ks & m & blocks & tail & Hks & T & _ & F & E).
  exists ks, m, blocks, tail. repeat split; try assumption.
  eapply Forall_impl; [exact F | ]. intros evs [-> | H]; [left; reflexivity | right].
  apply HP; assumption.
Qed.

(** ** Durations of a worker made by [__init__] *)

Lemma clamp_range (c : Z) : -10 <= Z.max (-10) (Z.min 10 c) <= 10.
Proof. lia. Qed.

Lemma chord_quarterLength_range (pat : string) (c : Z) :
  -10 <= c <= 10 ->
  chord_quarterLength pat c = fmul (inject_Z (base_len pat)) (length_factor c) /\
  (1 # 2 <= chord_quarterLength pat c <= 6)%Q.
Proof.
  intros Hc. unfold chord_quarterLength. rewrite base_len_spec.
  assert (T : forallb (fun c => forallb (fun b =>
             let x := fmul (inject_Z b) (length_factor c) in
             match Qlt_le_dec (1 # 4) x with left _ => true | right _ => false end
             && Qle_bool (1 # 2) x && Qle_bool x 6) [1; 2; 4]) crazy_values = true)
    by (vm_compute; reflexivity).
  rewrite forallb_forall in T. specialize (T c (crazy_values_complete c Hc)).
  rewrite forallb_forall in T.
  assert (B : In (spec_base_length pat) [1; 2; 4]).
  { destruct (spec_base_length_cases pat) as [-> | [-> | ->]]; cbn; tauto. }
  specialize (T _ B). cbv zeta in T.
  apply andb_prop in T as [T T3]. apply andb_prop in T as [T1 T2].
  apply Qle_bool_iff in T2, T3. unfold py_max.
  destruct (Qlt_le_dec (1 # 4) _); [ | discriminate]. split; [reflexivity | split; assumption].
Qed.

Lemma note_quarterLength_range (c : Z) :
  -10 <= c <= 10 ->
  note_quarterLength c = note_duration c /\ (1 # 2 <= note_quarterLength c <= 2)%Q.
Proof.
  intros Hc. unfold note_quarterLength.
  assert (T : forallb (fun c =>
             let x := note_duration c in
             match Qlt_le_dec (1 # 8) x with left _ => true | right _ => false end
             && Qle_bool (1 # 2) x && Qle_bool x 2) crazy_values = true)
    by (vm_compute; reflexivity).
  rewrite forallb_forall in T. specialize (T c (crazy_values_complete c Hc)). cbv zeta in T.
  apply andb_prop in T as [T T3]. apply andb_prop in T as [T1 T2].
  apply Qle_bool_iff in T2, T3. unfold py_max.
  destruct (Qlt_le_dec (1 # 8) _); [ | discriminate]. split; [reflexivity | split; assumption].
Qed.

Lemma measure_events_range (self : GeneratorWorker) (ks : string) (evs : list (element pitch)) :
  -10 <= crazy self <= 10 ->
  measure_events self ks (Ok tt) evs -> Forall duration_range evs.
Proof.
  intros Hc H. inversion H as [| root acc count ps Hroot Hacc Hcount Hps]; subst.
  constructor; [apply chord_quarterLength_range, Hc | ]. apply Forall_app. split.
  - destruct Hacc as [-> | [_ ->]]; repeat constructor; cbn; lra.
  - apply Forall_forall. intros e He. apply list_elem_of_fmap in He as (p & -> & _).
    apply note_quarterLength_range, Hc.
Qed.

(** X1. Whatever craziness [__init__] is given, the worker's craziness lies
    in [-10, 10] and is the given one when that lies there already; for such
    a worker the floors 0.25 and 0.125 of the two [max] never apply, and
    every chord the run appends lasts between 0.5 and 6 quarter notes, every
    note between 0.5 and 2. *)
Theorem durations_in_range (tempo_bpm : Z) (pattern_type : string) (length_sec : Z)
    (save_to : string) (craziness : Z) (s : state) :
  let g := init tempo_bpm pattern_type length_sec save_to craziness in
  -10 <= crazy g <= 10 /\
  (-10 <= craziness <= 10 -> crazy g = craziness) /\
  chord_quarterLength (pattern g) (crazy g)
    = fmul (inject_Z (base_len (pattern g))) (length_factor (crazy g)) /\
  note_quarterLength (crazy g) = note_duration (crazy g) /\
  Forall duration_range (elements_of (since s (run g s))).
Proof.
  intros g. assert (Hc : -10 <= crazy g <= 10) by apply clamp_range.
  split; [exact Hc | ]. split; [cbn; lia | ].
  split; [apply chord_quarterLength_range, Hc | ].
  split; [apply note_quarterLength_range, Hc | ].
  destruct (run_elements g s) as (ks & blocks & -> & F).
  apply Forall_app. split; [repeat constructor | ].
  apply Forall_concat. eapply Forall_impl; [exact F | ].
  intros evs [-> | E]; [constructor | ]. exact (measure_events_range g ks evs Hc E).
Qed.

(** ** The anatomy of a measure *)

Lemma range_length (n : Z) : List.length (range n) = Z.to_nat n.
Proof. unfold range. rewrite length_map, length_seq. reflexivity. Qed.

Lemma note_count_size (pat : string) (count : Z) :
  note_count_ok pat count -> melody_size_ok pat (Z.to_nat count).
Proof.
  intros (r & Hr & ->). unfold melody_size_ok, dict_get.
  destruct (String.eqb_spec pat "ARP") as [-> | N1]; [reflexivity | ].
  destruct (String.eqb_spec pat "PLUCK") as [-> | N2]; [reflexivity | ].
  destruct (String.eqb_spec pat "RAND") as [-> | N3].
  - rewrite lookup_insert_ne, lookup_insert_ne, lookup_singleton by congruence. rewrite decide_True by reflexivity. cbn. lia.
  - rewrite !lookup_insert_ne, lookup_singleton_ne by congruence. reflexivity.
Qed.

(** X2. Every measure a run generates is a chord, then nothing or one copy
    of that chord lasting 0.5, and then nothing but the melody notes: three
    for ARP, four for PLUCK, two to six for RAND and two for every other
    pattern; so a measure appends from 3 to 8 elements. *)
Theorem melody_sizes (self : GeneratorWorker) (s : state) :
  exists ks measures blocks tail,
    since s (run self s)
      = header self ks ++ loop_trace measures (range measures) blocks ++ tail /\
    elements_of tail = [] /\
    Forall (fun evs => evs = [] \/
              exists root acc ps,
                evs = Chord (triad root) (chord_quarterLength (pattern self) (crazy self))
                        :: acc ++ map (fun p => Note p (note_quarterLength (crazy self))) ps /\
                (acc = [] \/ acc = [Chord (triad root) (1 # 2)%Q]) /\
                melody_size_ok (pattern self) (List.length ps) /\
                (3 <= List.length evs <= 8)%nat)
           blocks.
Proof.
  destruct (run_blocks_with self s (fun ks evs =>
              exists root acc ps,
                evs = Chord (triad root) (chord_quarterLength (pattern self) (crazy self))
                        :: acc ++ map (fun p => Note p (note_quarterLength (crazy self))) ps /\
                (acc = [] \/ acc = [Chord (triad root) (1 # 2)%Q]) /\
                melody_size_ok (pattern self) (List.length ps) /\
                (3 <= List.length evs <= 8)%nat))
    as (ks & m & blocks & tail & _ & T & E & F).
  - intros ks evs _ H. inversion H as [| root acc count ps Hroot Hacc Hcount Hps]; subst.
    exists root, acc, ps.
    assert (Ha : acc = [] \/ acc = [Chord (triad root) (1 # 2)%Q])
      by (destruct Hacc as [-> | [_ ->]]; tauto).
    assert (La : (List.length acc <= 1)%nat) by (destruct Ha as [-> | ->]; cbn; lia).
    assert (Lp : List.length ps = Z.to_nat count).
    { rewrite <- (Forall2_length _ _ _ Hps). apply range_length. }
    pose proof (note_count_size _ _ Hcount) as Hs.
    split; [reflexivity | ]. split; [exact Ha | ].
    rewrite Lp. split; [exact Hs | ].
    cbn [List.length]. rewrite length_app, length_map, Lp.
    unfold melody_size_ok in Hs.
    destruct (String.eqb (pattern self) "ARP"); [lia | ].
    destruct (String.eqb (pattern self) "PLUCK"); [lia | ].
    destruct (String.eqb (pattern self) "RAND"); lia.
  - exists ks, m, blocks, tail. repeat split; assumption.
Qed.

Lemma pitch_ok_pool (self : GeneratorWorker) (ks : string) (root : pitch) (idx : Z) (p : pitch) :
  pitch_ok self ks (triad root) idx p -> p ∈ pitch_pool self ks root.
Proof.
  unfold pitch_ok, pitch_pool.
  destruct (String.eqb (pattern self) "ARP"); cbn [orb].
  - intros H. apply list_elem_of_In. eapply nth_error_In. exact H.
  - destruct (String.eqb (pattern self) "PLUCK"); intros H; exact H.
Qed.

(** X3. The root of every chord is a pitch of the scale of the key the run
    chose.  After the chord and its accent, if any, a measure holds its
    melody notes and nothing else; the pitches of an ARP or PLUCK melody are
    among the three tones of that measure's chord, and those of every other
    pattern are pitches of the scale. *)
Theorem melody_pitches (self : GeneratorWorker) (s : state) :
  exists ks measures blocks tail,
    ks ∈ possible_keys /\
    since s (run self s)
      = header self ks ++ loop_trace measures (range measures) blocks ++ tail /\
    elements_of tail = [] /\
    Forall (fun evs => evs = [] \/
              exists root acc ps,
                evs = Chord (triad root) (chord_quarterLength (pattern self) (crazy self))
                        :: acc ++ map (fun p => Note p (note_quarterLength (crazy self))) ps /\
                (acc = [] \/ acc = [Chord (triad root) (1 # 2)%Q]) /\
                root ∈ getPitches ks /\
                Forall (fun p => p ∈ pitch_pool self ks root) ps)
           blocks.
Proof.
  apply (run_blocks_with self s (fun ks evs =>
              exists root acc ps,
                evs = Chord (triad root) (chord_quarterLength (pattern self) (crazy self))
                        :: acc ++ map (fun p => Note p (note_quarterLength (crazy self))) ps /\
                (acc = [] \/ acc = [Chord (triad root) (1 # 2)%Q]) /\
                root ∈ getPitches ks /\
                Forall (fun p => p ∈ pitch_pool self ks root) ps)).
  intros ks evs _ H. inversion H as [| root acc count ps Hroot Hacc Hcount Hps]; subst.
  exists root, acc, ps. split; [reflexivity | ].
  split; [destruct Hacc as [-> | [_ ->]]; tauto | ]. split; [exact Hroot | ].
  clear - Hps. induction Hps as [| i p idxs ps Hp _ IH]; constructor.
  - exact (pitch_ok_pool _ _ _ _ _ Hp).
  - exact IH.
Qed.

(** X4. An accent is a second copy of the measure's chord, 0.5 quarter notes
    long, placed right after the chord and before the melody; a measure has
    at most one, and none unless the craziness is above 5. *)
Theorem accent_above_five (self : GeneratorWorker) (s : state) :
  exists ks measures blocks tail,
    since s (run self s)
      = header self ks ++ loop_trace measures (range measures) blocks ++ tail /\
    elements_of tail = [] /\
    Forall (fun evs => evs = [] \/
              exists root melody,
                Forall is_note melody /\
                (evs = Chord (triad root) (chord_quarterLength (pattern self) (crazy self))
                         :: melody \/
                 (5 < crazy self /\
                  evs = Chord (triad root) (chord_quarterLength (pattern self) (crazy self))
                          :: Chord (triad root) (1 # 2)%Q :: melody)))
           blocks.
Proof.
  destruct (run_blocks_with self s (fun ks evs =>
              exists root melody,
                Forall is_note melody /\
                (evs = Chord (triad root) (chord_quarterLength (pattern self) (crazy self))
                         :: melody \/
                 (5 < crazy self /\
                  evs = Chord (triad root) (chord_quarterLength (pattern self) (crazy self))
                          :: Chord (triad root) (1 # 2)%Q :: melody))))
    as (ks & m & blocks & tail & _ & T & E & F).
  - intros ks evs _ H. inversion H as [| root acc count ps Hroot Hacc Hcount Hps]; subst.
    exists root, (map (fun p => Note p (note_quarterLength (crazy self))) ps). split.
    { apply Forall_forall. intros e He. apply list_elem_of_fmap in He as (p & -> & _). exact I. }
    destruct Hacc as [-> | [H5 ->]]; [left; reflexivity | right]. split; [exact H5 | reflexivity].
  - exists ks, m, blocks, tail. repeat split; assumption.
Qed.

(** ** The degree of a chord and the failure of a measure *)

Lemma nth_error_None_degree {A : Type} (l : list A) (degree : Z) :
  1 <= degree ->
  nth_error l (Z.to_nat (degree - 1)) = None -> Z.of_nat (List.length l) < degree.
Proof. intros Hd H. apply nth_error_None in H. lia. Qed.

Lemma degree_positive (degree : Z) : degree ∈ [1; 4; 5] -> 1 <= degree <= 5.
Proof.
  intros Hd. apply elem_of_cons in Hd as [-> | Hd]; [lia | ].
  apply elem_of_cons in Hd as [-> | Hd]; [lia | ].
  apply list_elem_of_singleton in Hd as ->. lia.
Qed.

(** The course of a run, with the degree of each chord. *)
Lemma run_detail (self : GeneratorWorker) (s : state) :
  exists ks measures blocks tail,
    ks ∈ possible_keys /\
    since s (run self s) = header self ks ++ loop_trace measures (range measures) blocks ++ tail /\
    elements_of tail = [] /\
    ks = key_of_draw (rand s (drawn s)) /\
    drawn (run self s) = (drawn s + 1 + sum_list (map (draws_of self) blocks))%nat /\
    ((measure_count self = None /\ blocks = [] /\
      tail = [Emit (error "int too large to convert to float")])
     \/ (measure_count self = Some measures /\
         (exists played, blocks = played ++ [[]] /\
            (List.length played < List.length (range measures))%nat /\
            Forall (measure_detail self ks (Ok tt)) played) /\
         tail = [Emit (error "list index out of range")] /\
         exists degree, degree ∈ [1; 4; 5] /\ Z.of_nat (List.length (getPitches ks)) < degree)
     \/ (measure_count self = Some measures /\
         List.length blocks = List.length (range measures) /\
         Forall (measure_detail self ks (Ok tt)) blocks /\
         exists n last, tail = Emit (progress_changed 100)
                                 :: map Sys (take n (export_calls self s)) ++ [Emit last] /\
                        (last = finished (save_path self) \/ exists msg, last = error msg))).
Proof.
  destruct (run_cases self s) as (ks & sh & Hks & Kd & Nh & Xh & C).
  pose proof (ext_trace _ _ _ Xh) as Th. pose proof (ext_tempdir _ _ _ Xh) as Eh.
  cbn [trace tempdir set_part] in Th, Eh.
  destruct C as [(HM & R) | [(m & e & s1 & HM & L & R) | [(m & s1 & e & s2 & HM & L & Ex & R)
                | (m & s1 & s2 & HM & L & Ex & R)]]].
  - exists ks, 0, [], [Emit (error "int too large to convert to float")].
    split; [exact Hks | ]. split.
    { apply since_trace. rewrite R. cbn [trace log]. rewrite Th, <- app_assoc. reflexivity. }
    split; [reflexivity | ]. split; [exact Kd | ].
    split; [rewrite R; cbn [drawn log sum_list map]; rewrite Nh; cbn; lia | ]. left. tauto.
  - apply loop_detail in L as (blocks & X & Nd & played & -> & Lp & F & D).
    inversion D as [degree Hd N | ]; subst e.
    exists ks, m, (played ++ [[]]), [Emit (error "list index out of range")].
    split; [exact Hks | ]. split.
    { apply since_trace. rewrite R. cbn [trace log]. rewrite (ext_trace _ _ _ X), Th.
      rewrite <- !app_assoc. reflexivity. }
    split; [reflexivity | ]. split; [exact Kd | ].
    split; [rewrite R; cbn [drawn log]; rewrite Nd, Nh; lia | ].
    right. left. split; [exact HM | ]. split.
    { exists played. tauto. }
    split; [reflexivity | ]. exists degree. split; [exact Hd | ].
    apply nth_error_None_degree; [apply degree_positive, Hd | exact N].
  - apply loop_detail in L as (blocks & X & Nd & Lb & F).
    apply export_spec in Ex as (n & Xe & _).
    assert (E1 : tempdir (log (Emit (progress_changed 100)) s1) = tempdir s).
    { cbn [tempdir log]. rewrite (ext_tempdir _ _ _ X). exact Eh. }
    rewrite (export_calls_tempdir self _ s E1) in Xe.
    exists ks, m, blocks, (Emit (progress_changed 100)
                             :: map Sys (take n (export_calls self s))
                             ++ [Emit (error (exc_str e))]).
    split; [exact Hks | ]. split.
    { apply since_trace. rewrite R. cbn [trace log]. rewrite (io_trace _ _ _ Xe).
      cbn [trace log]. rewrite (ext_trace _ _ _ X), Th. rewrite <- !app_assoc. reflexivity. }
    split.
    { change (elements_of (Emit ?x :: ?l)) with (elements_of l).
      rewrite elements_of_app, elements_of_Sys. reflexivity. }
    split; [exact Kd | ].
    split; [rewrite R; cbn [drawn log]; rewrite (io_drawn _ _ _ Xe); cbn [drawn log];
            rewrite Nd, Nh; lia | ].
    right. right. split; [exact HM | ]. split; [exact Lb | ]. split; [exact F | ].
    exists n, (error (exc_str e)). split; [reflexivity | ]. right. exists (exc_str e). reflexivity.
  - apply loop_detail in L as (blocks & X & Nd & Lb & F).
    apply export_spec in Ex as (n & Xe & _).
    assert (E1 : tempdir (log (Emit (progress_changed 100)) s1) = tempdir s).
    { cbn [tempdir log]. rewrite (ext_tempdir _ _ _ X). exact Eh. }
    rewrite (export_calls_tempdir self _ s E1) in Xe.
    exists ks, m, blocks, (Emit (progress_changed 100)
                             :: map Sys (take n (export_calls self s))
                             ++ [Emit (finished (save_path self))]).
    split; [exact Hks | ]. split.
    { apply since_trace. rewrite R. cbn [trace log]. rewrite (io_trace _ _ _ Xe).
      cbn [trace log]. rewrite (ext_trace _ _ _ X), Th. rewrite <- !app_assoc. reflexivity. }
    split.
    { change (elements_of (Emit ?x :: ?l)) with (elements_of l).
      rewrite elements_of_app, elements_of_Sys. reflexivity. }
    split; [exact Kd | ].
    split; [rewrite R; cbn [drawn log]; rewrite (io_drawn _ _ _ Xe); cbn [drawn log];
            rewrite Nd, Nh; lia | ].
    right. right. split; [exact HM | ]. split; [exact Lb | ]. split; [exact F | ].
    exists n, (finished (save_path self)). split; [reflexivity | ]. left. reflexivity.
Qed.

(** X5. The chord of a measure is the triad on the scale pitch at index
    [degree - 1] for a degree among 1, 4 and 5: the root, the pitch a major
    third above and the pitch a perfect fifth above.  A measure fails only
    where the scale has no such index; it then appends nothing and the run
    ends with the error [list index out of range]. *)
Theorem chord_roots (self : GeneratorWorker) (s : state) :
  exists ks measures blocks tail,
    ks ∈ possible_keys /\
    since s (run self s)
      = header self ks ++ loop_trace measures (range measures) blocks ++ tail /\
    elements_of tail = [] /\
    Forall (fun evs =>
              (evs = [] /\ tail = [Emit (error "list index out of range")] /\
               exists degree, degree ∈ [1; 4; 5] /\
                              Z.of_nat (List.length (getPitches ks)) < degree)
              \/ exists degree root rest,
                   degree ∈ [1; 4; 5] /\
                   nth_error (getPitches ks) (Z.to_nat (degree - 1)) = Some root /\
                   evs = Chord [root; transpose root "M3"; transpose root "P5"]
                           (chord_quarterLength (pattern self) (crazy self)) :: rest)
           blocks.
Proof.
  destruct (run_detail self s) as (ks & m & blocks & tail & Hks & T & E & Kd & Nd & C).
  exists ks, m, blocks, tail. split; [exact Hks | ]. split; [exact T | ]. split; [exact E | ].
  assert (P : forall evs, measure_detail self ks (Ok tt) evs ->
            exists degree root rest,
              degree ∈ [1; 4; 5] /\
              nth_error (getPitches ks) (Z.to_nat (degree - 1)) = Some root /\
              evs = Chord [root; transpose root "M3"; transpose root "P5"]
                      (chord_quarterLength (pattern self) (crazy self)) :: rest).
  { intros evs D. inversion D as [| degree root rest Hd N _]; subst.
    exists degree, root, rest. split; [exact Hd | ]. split; [exact N | reflexivity]. }
  destruct C as [(_ & -> & _) | [(_ & (played & -> & _ & F) & -> & D) | (_ & _ & F & _)]].
  - constructor.
  - apply Forall_app. split.
    + eapply Forall_impl; [exact F | ]. intros evs Hd. right. exact (P evs Hd).
    + constructor; [ | constructor]. left. split; [reflexivity | ]. split; [reflexivity | exact D].
  - eapply Forall_impl; [exact F | ]. intros evs Hd. right. exact (P evs Hd).
Qed.

(** X6. When the scale of every key the run can choose has at least five
    pitches, no measure fails: a run that has a measure count M generates
    all M measures, each with at least three elements, reports the progress
    of each and then 100, and goes on to the export. *)
Theorem all_measures_played (self : GeneratorWorker) (s : state) (measures : Z) :
  (forall ks, ks ∈ possible_keys -> (5 <= List.length (getPitches ks))%nat) ->
  measure_count self = Some measures ->
  exists ks blocks n last,
    since s (run self s)
      = header self ks ++ loop_trace measures (range measures) blocks
        ++ Emit (progress_changed 100) :: map Sys (take n (export_calls self s)) ++ [Emit last] /\
    (last = finished (save_path self) \/ exists msg, last = error msg) /\
    List.length blocks = Z.to_nat measures /\
    Forall (fun evs => evs <> []) blocks /\
    progress_of (since s (run self s))
      = map (fun i => percent_of i measures) (range measures) ++ [100].
Proof.
  intros Hscale HM.
  destruct (run_detail self s) as (ks & m & blocks & tail & Hks & T & E & Kd & Nd & C).
  destruct C as [(HN & _) | [(_ & _ & _ & degree & Hd & Hlt)
                | (HM' & L & F & n & last & -> & Hlast)]].
  - congruence.
  - specialize (Hscale ks Hks). apply degree_positive in Hd. lia.
  - assert (m = measures) by congruence. subst m.
    exists ks, blocks, n, last. split; [exact T | ]. split; [exact Hlast | ].
    split; [rewrite L; apply range_length | ]. split.
    + eapply Forall_impl; [exact F | ]. intros evs D. inversion D. discriminate.
    + rewrite T, !progress_of_app, progress_of_loop, L, firstn_all.
      change (progress_of (header self ks)) with (@nil Z). cbn [app].
      f_equal. change (progress_of (Emit (progress_changed 100) :: ?l)) with (100 :: progress_of l).
      f_equal. rewrite progress_of_app.
      assert (Z0 : forall cs, progress_of (map Sys cs) = []).
      { intros cs. unfold progress_of. rewrite signals_of_Sys. reflexivity. }
      rewrite Z0. destruct Hlast as [-> | [msg ->]]; reflexivity.
Qed.

(** ** The export, step by step *)

Lemma export_ok (self : GeneratorWorker) (s : state) (data : list Byte.byte) :
  streamToMidiFile (part s) = Ok data ->
  io_fault s = None ->
  exists s', export self s = (Ok tt, s') /\
             io_extends s s' (export_calls self s) /\
             files s' = exported (entry_at s (tmp_path s)) (entry_at s (save_path self))
                          (file_at s (tmp_path s)) data (files s).
Proof.
  intros Hd Hf. destruct (export self s) as [r s'] eqn:E.
  pose proof E as E'. apply export_spec in E' as (n & X & R).
  destruct r as [[] | e].
  - destruct R as (-> & _ & data' & Hd' & F). exists s'.
    split; [reflexivity | ]. split; [exact X | ]. congruence.
  - destruct R as [_ [(C & _) | (d & step & _ & C & _)]]; congruence.
Qed.

Lemma export_fault (self : GeneratorWorker) (s : state) (data : list Byte.byte)
    (step : io_step) (msg : string) :
  streamToMidiFile (part s) = Ok data ->
  io_fault s = Some (step, msg) ->
  exists e s', export self s = (Raise e, s') /\
               exc_str e = msg /\
               io_extends s s' (take (calls_until step) (export_calls self s)) /\
               files s' = left_behind step (entry_at s (tmp_path s)) (file_at s (tmp_path s))
                            (spill s) data (files s).
Proof.
  intros Hd Hf. destruct (export self s) as [r s'] eqn:E.
  pose proof E as E'. apply export_spec in E' as (n & X & R).
  destruct r as [[] | e].
  - destruct R as (_ & C & _). congruence.
  - destruct R as [_ [(C & _) | (d & step' & Hd' & Hf' & -> & F)]]; [congruence | ].
    rewrite Hf in Hf'. injection Hf' as <- ->.
    exists e, s'. split; [reflexivity | ]. split; [reflexivity | ]. split; [exact X | ].
    congruence.
Qed.

Lemma export_unserializable (self : GeneratorWorker) (s : state) (e : exception) :
  streamToMidiFile (part s) = Raise e -> export self s = (Raise e, s).
Proof. intros H. unfold export. rewrite H. reflexivity. Qed.

(** A run whose measures all succeed, up to the export. *)
Lemma run_export_link (self : GeneratorWorker) (s : state) (measures : Z) :
  (forall ks, ks ∈ possible_keys -> (5 <= List.length (getPitches ks))%nat) ->
  measure_count self = Some measures ->
  exists ks blocks se,
    ks ∈ possible_keys /\
    List.length blocks = List.length (range measures) /\
    files se = files s /\ entry_at se = entry_at s /\ new_file se = new_file s /\
    io_fault se = io_fault s /\ spill se = spill s /\ tempdir se = tempdir s /\
    part se = elements_of (header self ks ++ loop_trace measures (range measures) blocks) /\
    part (run self s) = part se /\
    entry_at (run self s) = entry_at s /\
    trace se = trace s ++ header self ks ++ loop_trace measures (range measures) blocks
                 ++ [Emit (progress_changed 100)] /\
    run self s = match export self se with
                 | (Ok _, s2) => log (Emit (finished (save_path self))) s2
                 | (Raise e, s2) => log (Emit (error (exc_str e))) s2
                 end.
Proof.
  intros Hscale HM. destruct (run_cases self s) as (ks & sh & Hks & Kd & Nh & Xh & C).
  assert (K : forall s1, for_each (range measures) (measure self ks measures) sh = (Ok tt, s1) ->
            exists blocks,
              List.length blocks = List.length (range measures) /\
              files (log (Emit (progress_changed 100)) s1) = files s /\
              entry_at (log (Emit (progress_changed 100)) s1) = entry_at s /\
              new_file (log (Emit (progress_changed 100)) s1) = new_file s /\
              io_fault (log (Emit (progress_changed 100)) s1) = io_fault s /\
              spill (log (Emit (progress_changed 100)) s1) = spill s /\
              tempdir (log (Emit (progress_changed 100)) s1) = tempdir s /\
              part (log (Emit (progress_changed 100)) s1)
                = elements_of (header self ks ++ loop_trace measures (range measures) blocks) /\
              trace (log (Emit (progress_changed 100)) s1)
                = trace s ++ header self ks ++ loop_trace measures (range measures) blocks
                    ++ [Emit (progress_changed 100)]).
  { intros s1 L. apply loop_spec in L as (blocks & X & Lb & _).
    pose proof (extends_trans _ _ _ _ _ Xh X) as Xg.
    destruct Xg as [G1 G2 G3 G4 G5 G6 G7 G8 G9 G10].
    cbn [dirs files entry_at new_file spill io_fault tempdir part trace set_part log] in *.
    exists blocks. split; [exact Lb | ]. repeat split; try assumption.
    rewrite G6, <- !app_assoc. reflexivity. }
  assert (P : forall se r s2, export self se = (r, s2) ->
                part s2 = part se /\ entry_at s2 = entry_at se).
  { intros se r s2 Ex. apply export_spec in Ex as (n & X & _).
    split; [exact (io_part _ _ _ X) | exact (io_entry_at _ _ _ X)]. }
  destruct C as [(HN & _) | [(m & e & s1 & HM' & L & R) | [(m & s1 & e & s2 & HM' & L & Ex & R)
                | (m & s1 & s2 & HM' & L & Ex & R)]]].
  - congruence.
  - assert (m = measures) by congruence. subst m.
    apply loop_detail in L as (blocks & _ & _ & played & _ & _ & _ & D).
    inversion D as [degree Hd N | ]; subst e.
    specialize (Hscale ks Hks). apply degree_positive in Hd.
    apply nth_error_None in N. lia.
  - assert (m = measures) by congruence. subst m.
    destruct (K s1 L) as (blocks & K1 & K2 & K3 & K4 & K5 & K6 & K7 & K8 & K9).
    destruct (P _ _ _ Ex) as [P1 P2].
    exists ks, blocks, (log (Emit (progress_changed 100)) s1).
    repeat (split; [assumption | ]).
    split; [rewrite R; cbn [part log]; exact P1 | ].
    split; [rewrite R; cbn [entry_at log]; congruence | ].
    split; [assumption | ]. rewrite Ex. exact R.
  - assert (m = measures) by congruence. subst m.
    destruct (K s1 L) as (blocks & K1 & K2 & K3 & K4 & K5 & K6 & K7 & K8 & K9).
    destruct (P _ _ _ Ex) as [P1 P2].
    exists ks, blocks, (log (Emit (progress_changed 100)) s1).
    repeat (split; [assumption | ]).
    split; [rewrite R; cbn [part log]; exact P1 | ].
    split; [rewrite R; cbn [entry_at log]; congruence | ].
    split; [assumption | ]. rewrite Ex. exact R.
Qed.

Ltac link_facts self s Hscale HM :=
  destruct (run_export_link self s _ Hscale HM)
    as (ks & blocks & se & Hks & Lb & Ef & Ea & En & Eo & Es & Et & Ep & Epr & Ear & Etr & R);
  pose proof (tmp_path_tempdir se s Et) as Etmp;
  pose proof (file_at_ext se s (tmp_path s) Ef Ea En) as Efa.

(** X7. When no scale is short, no step of the export is refused and the
    serialization of the part the run built succeeds, the run ends in
    [finished]: it performs open, write, close and replace in that order,
    and the part serialized is exactly the header and the measures of this
    run.  When the destination does not lead to the staging file, the
    destination then has the name it had, now of the staging file, and
    reads the serialization, the staging path reads nothing, and no other
    name has changed. *)
Theorem run_succeeds (self : GeneratorWorker) (s : state) (measures : Z)
    (data : list Byte.byte) :
  (forall ks, ks ∈ possible_keys -> (5 <= List.length (getPitches ks))%nat) ->
  measure_count self = Some measures ->
  io_fault s = None ->
  streamToMidiFile (part (run self s)) = Ok data ->
  exists ks blocks,
    since s (run self s)
      = header self ks ++ loop_trace measures (range measures) blocks
        ++ Emit (progress_changed 100) :: map Sys (export_calls self s)
        ++ [Emit (finished (save_path self))] /\
    List.length blocks = Z.to_nat measures /\
    part (run self s)
      = elements_of (header self ks ++ loop_trace measures (range measures) blocks) /\
    (file_at s (save_path self) <> file_at s (tmp_path s) ->
     names (files (run self s))
       = <[entry_at s (save_path self) := file_at s (tmp_path s)]>
           (delete (entry_at s (tmp_path s)) (names (files s))) /\
     read_file (run self s) (save_path self) = Some data /\
     read_file (run self s) (tmp_path s) = None).
Proof.
  intros Hscale HM Hf Hd. link_facts self s Hscale HM. rewrite Epr in Hd.
  destruct (export_ok self se data Hd) as (s2 & Ex & X & Fs); [congruence | ].
  rewrite Ex in R. exists ks, blocks. split.
  { apply since_trace. rewrite R. cbn [trace log]. rewrite (io_trace _ _ _ X), Etr.
    rewrite (export_calls_tempdir self se s Et), <- !app_assoc. reflexivity. }
  split; [rewrite Lb; apply range_length | ].
  split; [rewrite Epr; exact Ep | ].
  intros Hne.
  assert (Fr : files (run self s)
               = exported (entry_at s (tmp_path s)) (entry_at s (save_path self))
                   (file_at s (tmp_path s)) data (files s)).
  { rewrite R. cbn [files log]. rewrite Fs, Etmp, Efa, Ea, Ef. reflexivity. }
  destruct (read_file_exported s (run self s) (save_path self) data Ear Fr) as [R1 R2].
  split; [rewrite Fr; reflexivity | ]. split; [exact R1 | ].
  apply R2. intros C. apply Hne. apply file_at_entry. exact C.
Qed.

(** X10. When no scale is short, the serialization of the part the run
    built succeeds and a step of the export is refused, the run ends with
    [str] of that refusal as its error and begins no further file
    operation.  Refused at [gettempdir] or at the opening, it leaves every
    name and every file as it was; refused at the writing or the closing,
    it leaves the staging path with its file, which holds the part of the
    data that had reached the disk, possibly none; refused at the
    replacing, it leaves the staging path with the complete data.  A
    destination that does not lead to the staging file reads what it read
    before. *)
Theorem os_refusal_reported (self : GeneratorWorker) (s : state) (measures : Z)
    (step : io_step) (msg : string) (data : list Byte.byte) :
  (forall ks, ks ∈ possible_keys -> (5 <= List.length (getPitches ks))%nat) ->
  measure_count self = Some measures ->
  io_fault s = Some (step, msg) ->
  streamToMidiFile (part (run self s)) = Ok data ->
  exists ks blocks,
    since s (run self s)
      = header self ks ++ loop_trace measures (range measures) blocks
        ++ Emit (progress_changed 100)
        :: map Sys (take (calls_until step) (export_calls self s)) ++ [Emit (error msg)] /\
    files (run self s)
      = left_behind step (entry_at s (tmp_path s)) (file_at s (tmp_path s))
          (spill s) data (files s) /\
    (file_at s (save_path self) <> file_at s (tmp_path s) ->
     read_file (run self s) (save_path self) = read_file s (save_path self)).
Proof.
  intros Hscale HM Hf Hd. link_facts self s Hscale HM. rewrite Epr in Hd.
  destruct (export self se) as [r s2] eqn:Ex.
  pose proof Ex as Ex'. apply export_spec in Ex' as (n & _ & Rx).
  destruct (export_fault self se data step msg Hd) as (e & s2' & Ex2 & He & X & Fs);
    [congruence | ].
  rewrite Ex in Ex2. injection Ex2 as -> <-. destruct Rx as [So _].
  exists ks, blocks.
  assert (Fr : files (run self s)
               = left_behind step (entry_at s (tmp_path s)) (file_at s (tmp_path s))
                   (spill s) data (files s)).
  { rewrite R. cbn [files log]. rewrite Fs, Etmp, Efa, Ea, Es, Ef. reflexivity. }
  split.
  { apply since_trace. rewrite R. cbn [trace log]. rewrite He, (io_trace _ _ _ X), Etr.
    rewrite (export_calls_tempdir self se s Et), <- !app_assoc. reflexivity. }
  split; [exact Fr | ].
  intros Hne. apply (read_file_kept s (run self s) (save_path self) Ear); [ | exact Hne].
  apply (staging_only_ext se s _ Ef Ea En Et). rewrite R.
  destruct So as [S1 S2]. split; cbn [files log]; assumption.
Qed.

(** ** Measure counts below one *)

Lemma measure_count_negative (self : GeneratorWorker) (measures : Z) :
  length self * tempo self < 0 ->
  measure_count self = Some measures -> measures <= 0.
Proof.
  intros Hp. unfold measure_count, beats_needed, float_of_int.
  destruct (_ <? _); [ | discriminate]. cbn [option_map]. intros H. injection H as <-.
  unfold measures_of, float_floordiv. rewrite int_of_float_Z.
  assert (B1 : (b64 (inject_Z (length self * tempo self)) <= -1)%Q).
  { assert (E : b64 (-1) = (-1)%Q) by (vm_compute; reflexivity). rewrite <- E.
    apply b64_mono. change (-1)%Q with (inject_Z (-1)). rewrite <- Zle_Qle. lia. }
  assert (B2 : (fdiv (b64 (inject_Z (length self * tempo self))) 60 <= b64 (-1 / 60))%Q).
  { unfold fdiv. apply b64_mono. unfold Qdiv. apply Qmult_le_compat_r; [exact B1 | ].
    unfold Qle. cbn. lia. }
  assert (B3 : (b64 (-1 / 60) < 0)%Q) by (vm_compute; reflexivity).
  set (x := fdiv _ _) in *. clearbody x.
  assert (B4 : (x / 4 < 0)%Q).
  { apply Qlt_shift_div_r; [reflexivity | ]. lra. }
  pose proof (Qfloor_le (x / 4)) as F.
  assert (F' : (inject_Z (Qfloor (x / 4)) < inject_Z 0)%Q).
  { eapply Qle_lt_trans; [exact F | exact B4]. }
  rewrite <- Zlt_Qlt in F'. lia.
Qed.

(** X11. A worker whose product of length and tempo is negative (a negative
    tempo passes the window's checks) has a measure count of zero or less,
    so the loop body never runs: the part is the header alone, the only
    progress reported is 100, and the run goes straight to the export. *)
Theorem no_measure_below_zero (self : GeneratorWorker) (s : state) (measures : Z) :
  length self * tempo self < 0 ->
  measure_count self = Some measures ->
  measures <= 0 /\
  exists ks n last,
    since s (run self s)
      = header self ks
        ++ Emit (progress_changed 100) :: map Sys (take n (export_calls self s)) ++ [Emit last] /\
    (last = finished (save_path self) \/ exists msg, last = error msg) /\
    elements_of (since s (run self s))
      = [MetronomeMark (tempo self); TimeSignature "4/4"; Key ks "major"].
Proof.
  intros Hp HM. pose proof (measure_count_negative self measures Hp HM) as Hle.
  split; [exact Hle | ].
  assert (R0 : forall m, measure_count self = Some m -> range m = []).
  { intros m Hm. assert (m = measures) by congruence. subst m.
    unfold range. replace (Z.to_nat measures) with 0%nat by lia. reflexivity. }
  destruct (run_detail self s) as (ks & m & blocks & tail & Hks & T & E & Kd & Nd & C).
  destruct C as [(HN & _) | [(HM' & (played & _ & L & _) & _)
                | (HM' & L & F & n & last & -> & Hlast)]].
  - congruence.
  - rewrite (R0 m HM') in L. cbn in L. lia.
  - rewrite (R0 m HM') in L, T. destruct blocks; [ | discriminate].
    exists ks, n, last. split; [exact T | ]. split; [exact Hlast | ].
    rewrite T. cbn [loop_trace zip_with concat app].
    rewrite elements_of_app. change (elements_of (Emit ?x :: ?l)) with (elements_of l).
    rewrite elements_of_app, elements_of_Sys. reflexivity.
Qed.

(** ** What a run leaves alone *)

(** X12. A run leaves the directories, the temporary directory, the random
    stream and the name each path stands for as they were.  It changes no
    name other than those of the staging path and of the destination, and
    no file other than the staging file: a path that does not lead to the
    staging file and is not a spelling of the destination reads what it
    read before. *)
Theorem files_frame (self : GeneratorWorker) (s : state) :
  dirs (run self s) = dirs s /\
  tempdir (run self s) = tempdir s /\
  rand (run self s) = rand s /\
  entry_at (run self s) = entry_at s /\
  (forall name, name <> entry_at s (tmp_path s) -> name <> entry_at s (save_path self) ->
                names (files (run self s)) !! name = names (files s) !! name) /\
  (forall p, file_at s p <> file_at s (tmp_path s) ->
             entry_at s p <> entry_at s (save_path self) ->
             read_file (run self s) p = read_file s p).
Proof.
  destruct (run_cases self s) as (ks & sh & Hks & Kd & Nh & Xh & C).
  destruct Xh as [Rh Dh Fh _ Th _ _ Ah _ Nwh].
  cbn [rand dirs files entry_at new_file tempdir set_part] in Rh, Dh, Fh, Th, Ah, Nwh.
  assert (Same : forall s', rand s' = rand s -> dirs s' = dirs s -> tempdir s' = tempdir s ->
                   entry_at s' = entry_at s -> files s' = files s ->
                   dirs s' = dirs s /\ tempdir s' = tempdir s /\ rand s' = rand s /\
                   entry_at s' = entry_at s /\
                   (forall name, name <> entry_at s (tmp_path s) ->
                                 name <> entry_at s (save_path self) ->
                                 names (files s') !! name = names (files s) !! name) /\
                   (forall p, file_at s p <> file_at s (tmp_path s) ->
                              entry_at s p <> entry_at s (save_path self) ->
                              read_file s' p = read_file s p)).
  { intros s' H1 H2 H3 H4 H5. repeat (split; [assumption | ]). split.
    - intros name _ _. rewrite H5. reflexivity.
    - intros p _ _. apply read_file_ext; assumption. }
  destruct C as [(HM & R) | [(m & e & s1 & HM & L & R) | [(m & s1 & e & s2 & HM & L & Ex & R)
                | (m & s1 & s2 & HM & L & Ex & R)]]].
  - rewrite R. apply Same; cbn [rand dirs files entry_at tempdir log]; assumption.
  - apply loop_spec in L as (blocks & [R1 D1 F1 _ T1 _ _ A1 _ _] & _).
    rewrite R. apply Same; cbn [rand dirs files entry_at tempdir log]; congruence.
  - apply loop_spec in L as (blocks & [R1 D1 F1 _ T1 _ _ A1 _ N1] & _).
    apply export_spec in Ex as (n & [R2 _ D2 _ T2 _ _ A2 _ _] & So & _).
    cbn [rand dirs files entry_at tempdir log] in R2, D2, T2, A2.
    assert (So' : staging_only s (run self s)).
    { apply (staging_only_ext (log (Emit (progress_changed 100)) s1) s);
        cbn [files entry_at new_file tempdir log]; try congruence.
      rewrite R. destruct So as [S1 S2]. split; cbn [files log]; assumption. }
    assert (Ar : entry_at (run self s) = entry_at s).
    { rewrite R. cbn [entry_at log]. congruence. }
    rewrite R at 1 2 3. cbn [rand dirs files entry_at tempdir log].
    split; [congruence | ]. split; [congruence | ]. split; [congruence | ].
    split; [exact Ar | ]. split.
    + intros name H1 _. apply So'. exact H1.
    + intros p H1 _. apply read_file_kept; assumption.
  - apply loop_spec in L as (blocks & [R1 D1 F1 _ T1 _ _ A1 _ N1] & _).
    apply export_spec in Ex as (n & [R2 _ D2 _ T2 _ _ A2 _ _] & _ & _ & data & _ & Fe).
    cbn [rand dirs files entry_at tempdir log] in R2, D2, T2, A2, Fe.
    assert (Et : tmp_path (log (Emit (progress_changed 100)) s1) = tmp_path s).
    { apply tmp_path_tempdir. cbn [tempdir log]. congruence. }
    assert (Ef : files (log (Emit (progress_changed 100)) s1) = files s)
      by (cbn [files log]; congruence).
    assert (Ea : entry_at (log (Emit (progress_changed 100)) s1) = entry_at s)
      by (cbn [entry_at log]; congruence).
    assert (En : new_file (log (Emit (progress_changed 100)) s1) = new_file s)
      by (cbn [new_file log]; congruence).
    rewrite Et, (file_at_ext _ s (tmp_path s) Ef Ea En), F1, Fh, A1, Ah in Fe.
    rewrite R. cbn [rand dirs files entry_at tempdir log].
    split; [congruence | ]. split; [congruence | ]. split; [congruence | ].
    split; [congruence | ]. split.
    + intros name H1 H2. rewrite Fe. unfold exported. cbn [names].
      rewrite lookup_insert_ne, lookup_delete_ne by congruence. reflexivity.
    + intros p H1 H2.
      assert (H3 : entry_at s p <> entry_at s (tmp_path s)).
      { intros C. apply H1. apply file_at_entry. exact C. }
      unfold read_file. cbn [files entry_at log]. rewrite A2. cbn [entry_at log].
      rewrite A1, Ah, Fe. unfold exported. cbn [names contents].
      rewrite lookup_insert_ne, lookup_delete_ne by congruence.
      destruct (names (files s) !! entry_at s p) as [file |] eqn:N; [ | reflexivity].
      apply lookup_insert_ne. intros <-. apply H1. unfold file_at at 1. rewrite N.
      reflexivity.
Qed.

(** X13. When no scale is short and the serialization of the part the run
    built fails, the run reports [str] of that failure right after the
    progress 100 and begins no file operation; no file is created or
    changed. *)
Theorem serialization_failure (self : GeneratorWorker) (s : state) (measures : Z)
    (e : exception) :
  (forall ks, ks ∈ possible_keys -> (5 <= List.length (getPitches ks))%nat) ->
  measure_count self = Some measures ->
  streamToMidiFile (part (run self s)) = Raise e ->
  exists ks blocks,
    since s (run self s)
      = header self ks ++ loop_trace measures (range measures) blocks
        ++ [Emit (progress_changed 100); Emit (error (exc_str e))] /\
    part (run self s)
      = elements_of (header self ks ++ loop_trace measures (range measures) blocks) /\
    syscalls_of (since s (run self s)) = [] /\
    files (run self s) = files s.
Proof.
  intros Hscale HM Hd. link_facts self s Hscale HM. rewrite Epr in Hd.
  rewrite (export_unserializable self se e Hd) in R.
  assert (T : since s (run self s)
              = header self ks ++ loop_trace measures (range measures) blocks
                ++ [Emit (progress_changed 100); Emit (error (exc_str e))]).
  { apply since_trace. rewrite R. cbn [trace log]. rewrite Etr, <- !app_assoc. reflexivity. }
  exists ks, blocks. split; [exact T | ]. split; [rewrite Epr; exact Ep | ]. split.
  - rewrite T, !syscalls_of_app, syscalls_of_loop. reflexivity.
  - rewrite R. exact Ef.
Qed.

(** X14. When the tempo itself fits a float but its product with the
    length does not (the product is [2^1024 - 2^970] or more in absolute
    value), the run appends the header and then fails at the beat count: it
    reports no progress at all, only the error [int too large to convert
    to float], and touches no file. *)
Theorem beat_count_overflow (self : GeneratorWorker) (s : state) :
  Z.abs (tempo self) < 2 ^ 1024 - 2 ^ 970 ->
  2 ^ 1024 - 2 ^ 970 <= Z.abs (length self * tempo self) ->
  measure_count self = None /\
  exists ks,
    ks ∈ possible_keys /\
    since s (run self s)
      = header self ks ++ [Emit (error "int too large to convert to float")] /\
    files (run self s) = files s.
Proof.
  intros _ Hbig.
  assert (HN : measure_count self = None).
  { unfold measure_count, beats_needed, float_of_int.
    destruct (Z.ltb_spec (Z.abs (length self * tempo self)) (2 ^ 1024 - 2 ^ 970));
      [lia | reflexivity]. }
  split; [exact HN | ].
  destruct (run_spec self s) as [ks Hks HM T F D _ | ks m played msg Hks HM L Fp T F D _
                                | ks m blocks n last Hks HM L Fb T P D _ R]; try congruence.
  exists ks. split; [exact Hks | ]. split; [apply since_trace; exact T | exact F].
Qed.

(** ** The random source *)

(** X15. The key of a run is the one its first call to [random] selects
    among the seven tonics.  The run makes exactly one call for the key and
    then, for every measure it generates, one for the degree, one for the
    accent if the craziness is above 5, one for [randint(2, 6)] whatever the
    pattern, and one per melody note unless the pattern is ARP; a measure
    that fails made the call for its degree only.  The measures counted are
    the ones of the run: at most as many as the measure count, each opened
    by its progress signal, and followed by nothing but the error of a
    failed measure or by the progress 100 and the export. *)
Theorem draws_consumed (self : GeneratorWorker) (s : state) :
  exists measures blocks tail,
    since s (run self s)
      = header self (key_of_draw (rand s (drawn s)))
        ++ loop_trace measures (range measures) blocks ++ tail /\
    key_of_draw (rand s (drawn s)) ∈ possible_keys /\
    (List.length blocks <= List.length (range measures))%nat /\
    ((measure_count self = None /\ blocks = [])
     \/ measure_count self = Some measures) /\
    ((exists msg, tail = [Emit (error msg)])
     \/ (List.length blocks = List.length (range measures) /\
         exists n last,
           tail = Emit (progress_changed 100)
                    :: map Sys (take n (export_calls self s)) ++ [Emit last] /\
           (last = finished (save_path self) \/ exists msg, last = error msg))) /\
    drawn (run self s) = (drawn s + 1 + sum_list (map (draws_of self) blocks))%nat /\
    (pattern self = "ARP"%string -> crazy self <= 5 ->
     Forall (fun evs => evs <> []) blocks ->
     drawn (run self s) = (drawn s + 1 + 2 * List.length blocks)%nat).
Proof.
  destruct (run_detail self s) as (ks & m & blocks & tail & Hks & T & E & Kd & Nd & C).
  subst ks. exists m, blocks, tail. split; [exact T | ]. split; [exact Hks | ].
  split.
  { destruct C as [(_ & -> & _) | [(_ & (played & -> & Lp & _) & _) | (_ & L & _)]].
    - cbn. lia.
    - rewrite length_app. cbn. lia.
    - lia. }
  split.
  { destruct C as [(HN & -> & _) | [(HM & _) | (HM & _)]]; tauto. }
  split.
  { destruct C as [(_ & _ & ->) | [(_ & _ & -> & _) | (_ & L & _ & n & last & -> & Hl)]].
    - left. eexists. reflexivity.
    - left. eexists. reflexivity.
    - right. split; [exact L | ]. exists n, last. split; [reflexivity | exact Hl]. }
  split; [exact Nd | ].
  intros HP HC HF. rewrite Nd. f_equal. clear - HP HC HF.
  induction HF as [| evs blocks Hne _ IH]; [reflexivity | ].
  cbn [map List.length]. change (sum_list (?x :: ?l)) with (x + sum_list l)%nat.
  rewrite IH. destruct evs as [| e evs]; [contradiction | ]. cbn [draws_of].
  rewrite HP. cbn [String.eqb Ascii.eqb Bool.eqb].
  destruct (Z.ltb_spec 5 (crazy self)); lia.
Qed.

(** ** The chance of an accent *)

Lemma below_threshold (n : Z) (t : Q) :
  (Qred (n # 2 ^ 53) < t)%Q <-> n < Qceiling (t * inject_Z (2 ^ 53)).
Proof.
  assert (P : (0 < inject_Z (2 ^ 53))%Q) by reflexivity.
  assert (E : (Qred (n # 2 ^ 53) == inject_Z n / inject_Z (2 ^ 53))%Q).
  { rewrite Qred_correct. apply Qmake_Qdiv. }
  rewrite E. split; intros H.
  - apply (Qmult_lt_r _ _ _ P) in H. unfold Qdiv in H.
    rewrite <- Qmult_assoc, (Qmult_comm (/ _)), Qmult_inv_r, Qmult_1_r in H by discriminate.
    pose proof (Qle_ceiling (t * inject_Z (2 ^ 53))) as C.
    rewrite Zlt_Qlt. eapply Qlt_le_trans; [exact H | exact C].
  - apply Qlt_shift_div_r; [exact P | ].
    pose proof (Qceiling_lt (t * inject_Z (2 ^ 53))) as C.
    eapply Qle_lt_trans; [ | exact C]. rewrite <- Zle_Qle. lia.
Qed.

(** X16. With a craziness above 5 the accent is decided by one draw: of the
    [2 ^ 53] values [random.random()] can take, the accent chord is appended
    for exactly the [accent_threshold] lowest and for no other.  For a
    craziness up to 10 that number is within one of [2 ^ 53 * (crazy - 5) /
    10], so the chance of an accent is [(crazy - 5) / 10] up to [2 ^ -53];
    at craziness 10 it is one half exactly. *)
Theorem accent_chance (self : GeneratorWorker) (chord_notes : list pitch) (s : state) :
  5 < crazy self ->
  let n := Z.of_N (rand s (drawn s)) mod 2 ^ 53 in
  0 <= n < 2 ^ 53 /\
  fst (accent self chord_notes s) = Ok tt /\
  part (snd (accent self chord_notes s))
    = (if n <? accent_threshold (crazy self)
       then part s ++ [Chord chord_notes (1 # 2)%Q] else part s) /\
  (crazy self <= 10 ->
   0 < accent_threshold (crazy self) <= 2 ^ 52 /\
   (Qabs (inject_Z (accent_threshold (crazy self)) / inject_Z (2 ^ 53)
          - inject_Z (crazy self - 5) / 10) < 1 # 2 ^ 53)%Q) /\
  accent_threshold 10 = 2 ^ 52.
Proof.
  intros H5 n. split; [apply Z.mod_pos_bound; lia | ].
  assert (A : fst (accent self chord_notes s) = Ok tt /\
              part (snd (accent self chord_notes s))
              = (if n <? accent_threshold (crazy self)
                 then part s ++ [Chord chord_notes (1 # 2)%Q] else part s)).
  { unfold accent. apply Z.ltb_lt in H5. rewrite H5.
    unfold random_random, bind, draw, ret. cbv beta iota.
    match goal with |- context [Qlt_le_dec ?a ?b] => destruct (Qlt_le_dec a b) as [L | L] end.
    - apply below_threshold in L. fold n in L. apply Z.ltb_lt in L.
      unfold accent_threshold. rewrite L. split; reflexivity.
    - assert (L' : ~ n < accent_threshold (crazy self)).
      { intros C. apply below_threshold in C. fold n in L. apply (Qlt_not_le _ _ C). exact L. }
      apply Z.ltb_nlt in L'. rewrite L'. split; reflexivity. }
  split; [apply A | ]. split; [apply A | ]. split; [ | vm_compute; reflexivity].
  intros H10.
  assert (T : forallb (fun c =>
             (0 <? accent_threshold c) && (accent_threshold c <=? 2 ^ 52)
             && match Qcompare (Qabs (inject_Z (accent_threshold c) / inject_Z (2 ^ 53)
                                      - inject_Z (c - 5) / 10)) (1 # 2 ^ 53) with
                | Lt => true | _ => false end) [6; 7; 8; 9; 10] = true)
    by (vm_compute; reflexivity).
  rewrite forallb_forall in T.
  assert (I : In (crazy self) [6; 7; 8; 9; 10]) by (cbn; lia).
  specialize (T _ I). apply andb_prop in T as [T T3]. apply andb_prop in T as [T1 T2].
  apply Z.ltb_lt in T1. apply Z.leb_le in T2. split; [lia | ].
  apply Qlt_alt. revert T3.
  destruct (Qcompare _ _); [discriminate | reflexivity | discriminate].
Qed.

(** ** The window *)

(** The signals of a run: progress reports, then one terminal signal. *)
Lemma run_signals (self : GeneratorWorker) (s : state) :
  exists vs final,
    signals_of (since s (run self s)) = map progress_changed vs ++ [final] /\
    ((final = finished (save_path self) /\ last vs = Some 100)
     \/ exists msg, final = error msg).
Proof.
  destruct (run_detail self s) as (ks & m & blocks & tail & Hks & T & E & Kd & Nd & C).
  assert (S0 : signals_of (since s (run self s))
               = map progress_changed
                   (map (fun i => percent_of i m) (take (List.length blocks) (range m)))
                 ++ signals_of tail).
  { rewrite T, !signals_of_app, signals_of_loop, map_map. reflexivity. }
  destruct C as [(_ & _ & ->) | [(_ & _ & -> & _) | (_ & _ & _ & n & last & -> & Hlast)]].
  - do 2 eexists. split; [exact S0 | ]. right. eexists. reflexivity.
  - do 2 eexists. split; [exact S0 | ]. right. eexists. reflexivity.
  - exists (map (fun i => percent_of i m) (take (List.length blocks) (range m)) ++ [100]), last.
    split.
    + rewrite S0, map_app, <- app_assoc. f_equal.
      change (signals_of (Emit ?x :: ?l)) with (x :: signals_of l).
      rewrite signals_of_app, signals_of_Sys. reflexivity.
    + destruct Hlast as [-> | [msg ->]]; [left | right; exists msg; reflexivity].
      split; [reflexivity | apply last_snoc].
Qed.

Lemma deliver_progress (vs : list Z) (w : MainWindow) :
  foldl (fun w sg => deliver sg w) w (map progress_changed vs)
  = match last vs with
    | Some v => set_progress v w
    | None => w
    end.
Proof.
  induction vs as [| v vs IH] using rev_ind; [reflexivity | ].
  rewrite map_app, foldl_app, IH, last_snoc. cbn [map foldl deliver].
  destruct (last vs); reflexivity.
Qed.

(** [start_generation] on valid inputs. *)
Lemma start_valid (w : MainWindow) (s : state) (t l : Z) :
  int_str (tempo_input w) = inl t ->
  int_str (length_input w) = inl l ->
  1 <= l <= 60 ->
  save_path_edit w <> ""%string ->
  exists vs final,
    signals_of (since s (run (init t (type_combo w) l (save_path_edit w) (crazy_slider w)) s))
      = map progress_changed vs ++ [final] /\
    ((final = finished (save_path_edit w) /\ last vs = Some 100)
     \/ exists msg, final = error msg) /\
    start_generation w s
    = (deliver final
         (match last vs with
          | Some v => set_progress v
                        (set_worker (init t (type_combo w) l (save_path_edit w) (crazy_slider w))
                           (set_enabled false w))
          | None => set_worker (init t (type_combo w) l (save_path_edit w) (crazy_slider w))
                      (set_enabled false w)
          end),
       run (init t (type_combo w) l (save_path_edit w) (crazy_slider w)) s).
Proof.
  intros Ht Hl Hr Hp.
  destruct (run_signals (init t (type_combo w) l (save_path_edit w) (crazy_slider w)) s)
    as (vs & final & Sg & Hfinal).
  exists vs, final. split; [exact Sg | ]. split; [exact Hfinal | ].
  unfold start_generation, read_inputs. rewrite Ht, Hl.
  assert (B1 : (l <? 1) || (60 <? l) = false).
  { apply orb_false_iff. split; apply Z.ltb_ge; lia. }
  assert (B2 : String.eqb (save_path_edit w) "" = false) by (apply String.eqb_neq; exact Hp).
  rewrite B1, B2. cbv zeta. rewrite Sg, foldl_app, deliver_progress. reflexivity.
Qed.

(** X17. [start_generation] rejects its input exactly when [int] raises on
    the tempo field or on the length field, the length it reads is outside
    1 to 60, or the save path is empty.  It then shows one warning titled
    [Input Error] and changes nothing else, neither in the window nor in
    the world.  The tempo is read first, so when [int] raises on it the
    warning is [str] of that error whatever the other fields hold; then
    comes the length, then its range, then the save path. *)
Theorem input_errors_reported (w : MainWindow) (s : state) :
  (forall msg, int_str (tempo_input w) = inr msg ->
   start_generation w s = (show (warning "Input Error" msg) w, s)) /\
  (forall t msg, int_str (tempo_input w) = inl t -> int_str (length_input w) = inr msg ->
   start_generation w s = (show (warning "Input Error" msg) w, s)) /\
  (forall t l, int_str (tempo_input w) = inl t -> int_str (length_input w) = inl l ->
               1 <= l <= 60 -> save_path_edit w = ""%string ->
   start_generation w s = (show (warning "Input Error" "No save path specified") w, s)) /\
  ((exists msg, start_generation w s = (show (warning "Input Error" msg) w, s)) <->
   ~ (exists t l, int_str (tempo_input w) = inl t /\ int_str (length_input w) = inl l /\
                  1 <= l <= 60 /\ save_path_edit w <> ""%string)).
Proof.
  assert (P1 : forall msg, int_str (tempo_input w) = inr msg ->
               start_generation w s = (show (warning "Input Error" msg) w, s)).
  { intros msg H. unfold start_generation, read_inputs. rewrite H. reflexivity. }
  assert (P2 : forall t msg, int_str (tempo_input w) = inl t ->
               int_str (length_input w) = inr msg ->
               start_generation w s = (show (warning "Input Error" msg) w, s)).
  { intros t msg H1 H2. unfold start_generation, read_inputs. rewrite H1, H2. reflexivity. }
  assert (P3 : forall t l, int_str (tempo_input w) = inl t -> int_str (length_input w) = inl l ->
               1 <= l <= 60 -> save_path_edit w = ""%string ->
               start_generation w s
               = (show (warning "Input Error" "No save path specified") w, s)).
  { intros t l Ht Hl Hr Hp. unfold start_generation, read_inputs. rewrite Ht, Hl, Hp.
    assert (B1 : (l <? 1) || (60 <? l) = false).
    { apply orb_false_iff. split; apply Z.ltb_ge; lia. }
    rewrite B1. reflexivity. }
  split; [exact P1 | ]. split; [exact P2 | ]. split; [exact P3 | ]. split.
  - intros [msg E] (t & l & Ht & Hl & Hr & Hp).
    destruct (start_valid w s t l Ht Hl Hr Hp) as (vs & final & _ & Hfinal & E').
    rewrite E' in E. injection E as E _. apply (f_equal dialogs) in E.
    destruct Hfinal as [[-> _] | [m ->]]; destruct (last vs); cbn in E;
      apply app_inv_head in E; discriminate.
  - intros Hn. destruct (int_str (tempo_input w)) as [t | m1] eqn:Ht;
      [ | eexists; apply P1; reflexivity].
    destruct (int_str (length_input w)) as [l | m2] eqn:Hl;
      [ | eexists; apply (P2 t); reflexivity].
    destruct (Z_lt_dec l 1) as [L1 | L1]; [ | destruct (Z_lt_dec 60 l) as [L2 | L2]].
    + eexists. unfold start_generation, read_inputs. rewrite Ht, Hl.
      apply Z.ltb_lt in L1. rewrite L1. reflexivity.
    + eexists. unfold start_generation, read_inputs. rewrite Ht, Hl.
      apply Z.ltb_lt in L2. rewrite L2, orb_true_r. reflexivity.
    + destruct (String.eqb_spec (save_path_edit w) "") as [Hp | Hp].
      * eexists. apply (P3 t l); [reflexivity | reflexivity | lia | exact Hp].
      * exfalso. apply Hn. exists t, l. repeat split; try reflexivity; try lia. exact Hp.
Qed.

(** X18. When [int] reads an integer from the tempo field and from the
    length field, the length is from 1 to 60 and the save path is not
    empty, [start_generation] makes the worker from the fields (the length
    as read, since it is at most 60) and runs it, and when the run is over
    the button is enabled again and exactly one message box was added:
    [Done] with the save path when the run ended in [finished], the
    progress bar then standing at 100 and the label at [100%]; [Error] with
    the message when it ended in [error].  The input fields are not
    touched. *)
Theorem generation_reported (w : MainWindow) (s : state) (t l : Z) :
  int_str (tempo_input w) = inl t ->
  int_str (length_input w) = inl l ->
  1 <= l <= 60 ->
  save_path_edit w <> ""%string ->
  let g := init t (type_combo w) l (save_path_edit w) (crazy_slider w) in
  let w' := fst (start_generation w s) in
  snd (start_generation w s) = run g s /\
  worker w' = Some g /\
  length g = l /\
  btn_generate_enabled w' = true /\
  (tempo_input w', type_combo w', length_input w', crazy_slider w', save_path_edit w')
    = (tempo_input w, type_combo w, length_input w, crazy_slider w, save_path_edit w) /\
  ((last (signals_of (since s (run g s))) = Some (finished (save_path_edit w)) /\
    dialogs w' = dialogs w ++ [information "Done"
                                 ("MIDI saved to:" +:+ String "010" (save_path_edit w))] /\
    progress_bar w' = 100 /\ percent_label w' = "100%"%string)
   \/ (exists msg,
         last (signals_of (since s (run g s))) = Some (error msg) /\
         dialogs w' = dialogs w ++ [critical "Error" msg])).
Proof.
  intros Ht Hl Hr Hp g w'.
  destruct (start_valid w s t l Ht Hl Hr Hp) as (vs & final & Sg & Hfinal & E).
  fold g in Sg, E. subst w'. rewrite E, Sg, last_snoc. cbn [fst snd].
  split; [reflexivity | ].
  assert (Lg : length g = l) by (cbn; lia).
  destruct Hfinal as [[-> Hv] | [msg ->]].
  - rewrite Hv. cbn. repeat (split; [first [reflexivity | exact Lg] | ]).
    left. repeat split; reflexivity.
  - destruct (last vs); cbn; repeat (split; [first [reflexivity | exact Lg] | ]);
      right; exists msg; split; reflexivity.
Qed.

(** ** [browse_file] *)

Lemma list_ascii_of_string_app (a b : string) :
  list_ascii_of_string (a +:+ b) = list_ascii_of_string a ++ list_ascii_of_string b.
Proof.
  induction a as [| c a IH]; [reflexivity | ].
  change (String c a +:+ b) with (String c (a +:+ b)).
  cbn [list_ascii_of_string]. rewrite IH. reflexivity.
Qed.

Lemma endswith_mid_app (a : string) : endswith (lower (a +:+ ".mid")) ".mid" = true.
Proof.
  unfold endswith, lower.
  rewrite list_ascii_of_string_of_list_ascii, list_ascii_of_string_app, map_app, rev_app_distr.
  set (x := rev (map ascii_lower (list_ascii_of_string a))). clearbody x.
  cbn. destruct x; reflexivity.
Qed.

Lemma app_mid_nonempty (a : string) : a +:+ ".mid" <> ""%string.
Proof. destruct a; discriminate. Qed.

(** X19. [browse_file] leaves the window as it is when the dialog is
    cancelled.  Otherwise it changes the save path and nothing else: to the
    chosen path when that ends in [.mid] in any mix of cases, and to the
    chosen path followed by [.mid] when not.  Either way the new save path
    is not empty and ends in [.mid] up to case, so choosing it again
    changes nothing. *)
Theorem browse_file_suffix (chosen : string) (w : MainWindow) :
  browse_file "" w = w /\
  (chosen <> ""%string ->
   browse_file chosen w = set_save_path (save_path_edit (browse_file chosen w)) w /\
   (endswith (lower chosen) ".mid" = true -> save_path_edit (browse_file chosen w) = chosen) /\
   (endswith (lower chosen) ".mid" = false ->
    save_path_edit (browse_file chosen w) = chosen +:+ ".mid") /\
   save_path_edit (browse_file chosen w) <> ""%string /\
   endswith (lower (save_path_edit (browse_file chosen w))) ".mid" = true /\
   browse_file (save_path_edit (browse_file chosen w)) (browse_file chosen w)
   = browse_file chosen w).
Proof.
  split; [reflexivity | ]. intros Hne.
  assert (B : String.eqb chosen "" = false) by (apply String.eqb_neq; exact Hne).
  assert (E0 : browse_file chosen w
               = set_save_path (if endswith (lower chosen) ".mid" then chosen
                                else chosen +:+ ".mid") w).
  { unfold browse_file. rewrite B. reflexivity. }
  rewrite !E0. cbn [save_path_edit set_save_path].
  destruct (endswith (lower chosen) ".mid") eqn:E.
  - split; [reflexivity | ]. split; [reflexivity | ]. split; [discriminate | ].
    split; [exact Hne | ]. split; [exact E | ].
    unfold browse_file. rewrite B, E. reflexivity.
  - split; [reflexivity | ]. split; [discriminate | ]. split; [reflexivity | ].
    split; [apply app_mid_nonempty | ]. split; [apply endswith_mid_app | ].
    unfold browse_file.
    assert (B' : String.eqb (chosen +:+ ".mid") "" = false).
    { apply String.eqb_neq, app_mid_nonempty. }
    rewrite B', endswith_mid_app. reflexivity.
Qed.

(** ** From the button to the file *)

Lemma validated_measure_count (t l : Z) (pat save_to : string) (c : Z) :
  1 <= l <= 60 -> Z.abs t < 2 ^ 1000 ->
  exists measures, measure_count (init t pat l save_to c) = Some measures.
Proof.
  intros Hl Ht. unfold measure_count, beats_needed, float_of_int. cbn [length tempo init].
  assert (B : Z.abs (Z.min l 60 * t) < 2 ^ 1024 - 2 ^ 970).
  { rewrite Z.abs_mul, Z.min_l by lia. rewrite (Z.abs_eq l) by lia.
    apply Z.le_lt_trans with (60 * Z.abs t).
    - apply Z.mul_le_mono_nonneg_r; [apply Z.abs_nonneg | lia].
    - apply Z.lt_le_trans with (60 * 2 ^ 1000); [lia | ].
      apply Z.leb_le. vm_compute. reflexivity. }
  apply Z.ltb_lt in B. rewrite B. eexists. reflexivity.
Qed.

(** X20. From the button to the file.  When [int] reads from the tempo
    field an integer below [2 ^ 1000] in size, of any sign, and from the
    length field one from 1 to 60, the save path is not empty and does not
    lead to the staging file, no scale is short, no step of the export is
    refused and the serialization of the part the run built succeeds, then
    [start_generation] ends with the message box [Done], the button
    enabled, the progress bar at 100, the four file operations done and
    the save path reading the MIDI data. *)
Theorem generation_end_to_end (w : MainWindow) (s : state) (t l : Z)
    (data : list Byte.byte) :
  int_str (tempo_input w) = inl t ->
  int_str (length_input w) = inl l ->
  1 <= l <= 60 ->
  save_path_edit w <> ""%string ->
  file_at s (save_path_edit w) <> file_at s (tmp_path s) ->
  Z.abs t < 2 ^ 1000 ->
  (forall ks, ks ∈ possible_keys -> (5 <= List.length (getPitches ks))%nat) ->
  io_fault s = None ->
  streamToMidiFile
    (part (run (init t (type_combo w) l (save_path_edit w) (crazy_slider w)) s)) = Ok data ->
  let w' := fst (start_generation w s) in
  let s' := snd (start_generation w s) in
  dialogs w' = dialogs w ++ [information "Done"
                               ("MIDI saved to:" +:+ String "010" (save_path_edit w))] /\
  btn_generate_enabled w' = true /\
  progress_bar w' = 100 /\
  syscalls_of (since s s') = export_calls (init t (type_combo w) l (save_path_edit w)
                                              (crazy_slider w)) s /\
  read_file s' (save_path_edit w) = Some data.
Proof.
  intros Ht Hl Hr Hp Hne Hsize Hscale Hf Hd w' s'.
  set (g := init t (type_combo w) l (save_path_edit w) (crazy_slider w)) in *.
  destruct (validated_measure_count t l (type_combo w) (save_path_edit w) (crazy_slider w)
              Hr Hsize) as [measures HM]. fold g in HM.
  link_facts g s Hscale HM. rewrite Epr in Hd.
  destruct (export_ok g se data Hd) as (s2 & Ex & X & Fs); [congruence | ].
  rewrite Ex in R.
  assert (T : since s (run g s)
              = (header g ks ++ loop_trace measures (range measures) blocks
                 ++ Emit (progress_changed 100) :: map Sys (export_calls g s))
                ++ [Emit (finished (save_path_edit w))]).
  { apply since_trace. rewrite R. cbn [trace log]. rewrite (io_trace _ _ _ X), Etr.
    rewrite (export_calls_tempdir g se s Et), <- !app_assoc. reflexivity. }
  destruct (start_valid w s t l Ht Hl Hr Hp) as (vs & final & Sg & Hfinal & E).
  fold g in Sg, E.
  assert (Hlast : final = finished (save_path_edit w)).
  { assert (L1 : last (signals_of (since s (run g s))) = Some final)
      by (rewrite Sg; apply last_snoc).
    rewrite T, signals_of_app in L1.
    change (signals_of [Emit (finished (save_path_edit w))])
      with [finished (save_path_edit w)] in L1.
    rewrite last_snoc in L1. congruence. }
  destruct Hfinal as [[_ Hv] | [msg Hm]]; [ | congruence].
  subst w' s'. rewrite E, Hlast, Hv. cbn [fst snd].
  split; [reflexivity | ]. split; [reflexivity | ]. split; [reflexivity | ].
  split.
  { rewrite T, !syscalls_of_app, syscalls_of_loop.
    change (syscalls_of (header g ks)) with (@nil syscall).
    change (syscalls_of (Emit ?x :: ?l)) with (syscalls_of l).
    rewrite syscalls_of_Sys. cbn [app syscalls_of omap]. apply app_nil_r. }
  assert (Fr : files (run g s)
               = exported (entry_at s (tmp_path s)) (entry_at s (save_path g))
                   (file_at s (tmp_path s)) data (files s)).
  { rewrite R. cbn [files log]. rewrite Fs, Etmp, Efa, Ea, Ef. reflexivity. }
  exact (proj1 (read_file_exported s (run g s) (save_path g) data Ear Fr)).
Qed.

(** ** The measures against the beats *)

Lemma measure_count_exact (self : GeneratorWorker) :
  0 <= length self * tempo self < 2 ^ 51 ->
  measure_count self = Some (length self * tempo self / 240 + 1).
Proof.
  intros Hp. unfold measure_count, beats_needed, float_of_int.
  assert (B : Z.abs (length self * tempo self) < 2 ^ 1024 - 2 ^ 970).
  { rewrite Z.abs_eq by lia. apply Z.lt_trans with (2 ^ 51); [lia | ].
    apply Z.ltb_lt. vm_compute. reflexivity. }
  apply Z.ltb_lt in B. rewrite B. cbn [option_map]. rewrite measures_of_exact by exact Hp.
  reflexivity.
Qed.

(** X21. For a product of length and tempo from 0 up (and below 2^51) the
    measure count M is at least 1 and is the least number of four-beat
    measures that lasts strictly longer than the beats asked for:
    [4 * (M - 1) <= length * tempo / 60 < 4 * M], so the music overshoots
    by one measure at most, and by a whole measure when the beats fill
    their measures exactly.  A larger product never gives fewer
    measures. *)
Theorem measures_cover_beats (self : GeneratorWorker) :
  0 <= length self * tempo self < 2 ^ 51 ->
  exists measures,
    measure_count self = Some measures /\
    1 <= measures /\
    240 * (measures - 1) <= length self * tempo self < 240 * measures /\
    (length self * tempo self mod 240 = 0 ->
     240 * measures = length self * tempo self + 240) /\
    (forall other measures',
        0 <= length other * tempo other <= length self * tempo self ->
        measure_count other = Some measures' -> measures' <= measures).
Proof.
  intros Hp. exists (length self * tempo self / 240 + 1).
  split; [apply measure_count_exact, Hp | ].
  pose proof (Z.div_mod (length self * tempo self) 240 ltac:(lia)) as D.
  pose proof (Z.mod_pos_bound (length self * tempo self) 240 ltac:(lia)) as M.
  pose proof (Z.div_pos (length self * tempo self) 240 ltac:(lia) ltac:(lia)) as Q.
  split; [lia | ]. split; [lia | ]. split; [lia | ].
  intros other m' Ho Hm'. rewrite measure_count_exact in Hm' by lia.
  injection Hm' as <-.
  pose proof (Z.div_le_mono (length other * tempo other) (length self * tempo self) 240
                ltac:(lia) ltac:(lia)).
  lia.
Qed.

End Coverage.

(** * The further properties at work on concrete runs *)

Lemma demo_scales (ks : string) :
  ks ∈ possible_keys -> (5 <= List.length (@getPitches demo_music21 ks))%nat.
Proof. intros _. cbn. lia. Defined.

Lemma all_measures_played_witness :
  measure_count (init 120 "RAND" 10 "/home/u/out.mid" 7) = Some 6 /\
  progress_of (since (demo_state demo_draws)
                 (@run demo_music21 (init 120 "RAND" 10 "/home/u/out.mid" 7)
                    (demo_state demo_draws)))
  = map (fun i => percent_of i 6) (range 6) ++ [100].
Proof.
  split; [vm_compute; reflexivity | ].
  destruct (@all_measures_played demo_music21 (init 120 "RAND" 10 "/home/u/out.mid" 7)
              (demo_state demo_draws) 6 demo_scales ltac:(vm_compute; reflexivity))
    as (ks & blocks & n & last & _ & _ & _ & _ & P).
  exact P.
Defined.

Lemma run_succeeds_witness :
  measure_count (init 120 "RAND" 10 "/home/u/out.mid" 7) = Some 6 /\
  io_fault (demo_state demo_draws) = None /\
  exists ks blocks,
    part (@run demo_music21 (init 120 "RAND" 10 "/home/u/out.mid" 7) (demo_state demo_draws))
    = elements_of (header (init 120 "RAND" 10 "/home/u/out.mid" 7) ks
                   ++ loop_trace 6 (range 6) blocks).
Proof.
  split; [vm_compute; reflexivity | ]. split; [reflexivity | ].
  destruct (@run_succeeds demo_music21 (init 120 "RAND" 10 "/home/u/out.mid" 7)
              (demo_state demo_draws) 6
              (map element_tag
                 (part (@run demo_music21 (init 120 "RAND" 10 "/home/u/out.mid" 7)
                          (demo_state demo_draws))))
              demo_scales ltac:(vm_compute; reflexivity) eq_refl eq_refl)
    as (ks & blocks & _ & _ & P & _).
  exists ks, blocks. exact P.
Defined.

Lemma os_refusal_reported_witness :
  measure_count (init 120 "ARP" 1 "/home/u/out.mid" 0) = Some 1 /\
  io_fault clobber_state = Some (AtWrite, "[Errno 28] No space left on device"%string) /\
  files (@run demo_music21 (init 120 "ARP" 1 "/home/u/out.mid" 0) clobber_state)
  = FileSystem {[ "/tmp/midgen_temp.mid"%string := "/tmp/midgen_temp.mid"%string ]}
               {[ "/tmp/midgen_temp.mid"%string := [] ]}.
Proof.
  split; [vm_compute; reflexivity | ]. split; [reflexivity | ].
  destruct (@os_refusal_reported demo_music21 (init 120 "ARP" 1 "/home/u/out.mid" 0)
              clobber_state 1 AtWrite "[Errno 28] No space left on device"
              (map element_tag
                 (part (@run demo_music21 (init 120 "ARP" 1 "/home/u/out.mid" 0)
                          clobber_state)))
              demo_scales ltac:(vm_compute; reflexivity) eq_refl eq_refl)
    as (ks & blocks & _ & F & _).
  rewrite F. vm_compute. reflexivity.
Defined.

Lemma no_measure_below_zero_witness :
  length (init (-120) "ARP" 10 "/home/u/out.mid" 0)
    * tempo (init (-120) "ARP" 10 "/home/u/out.mid" 0) < 0 /\
  measure_count (init (-120) "ARP" 10 "/home/u/out.mid" 0) = Some (-4) /\
  -4 <= 0.
Proof.
  split; [cbn; lia | ]. split; [vm_compute; reflexivity | ].
  destruct (@no_measure_below_zero demo_music21 (init (-120) "ARP" 10 "/home/u/out.mid" 0)
              (demo_state demo_draws) (-4) ltac:(cbn; lia) ltac:(vm_compute; reflexivity))
    as [L _].
  exact L.
Defined.

Lemma serialization_failure_witness :
  measure_count (init 120 "PAD" 10 "/home/u/out.mid" 0) = Some 6 /\
  @streamToMidiFile mute_music21
    (part (@run mute_music21 (init 120 "PAD" 10 "/home/u/out.mid" 0) mute_state))
  = Raise (Exception "MidiException" "cannot translate stream") /\
  files (@run mute_music21 (init 120 "PAD" 10 "/home/u/out.mid" 0) mute_state)
  = files mute_state.
Proof.
  split; [vm_compute; reflexivity | ]. split; [reflexivity | ].
  destruct (@serialization_failure mute_music21 (init 120 "PAD" 10 "/home/u/out.mid" 0)
              mute_state 6 (Exception "MidiException" "cannot translate stream")
              demo_scales ltac:(vm_compute; reflexivity) eq_refl)
    as (ks & blocks & _ & _ & _ & F).
  exact F.
Defined.

Lemma beat_count_overflow_witness :
  Z.abs (tempo (init (2 ^ 1023) "ARP" 2 "/home/u/out.mid" 0)) < 2 ^ 1024 - 2 ^ 970 /\
  2 ^ 1024 - 2 ^ 970
    <= Z.abs (length (init (2 ^ 1023) "ARP" 2 "/home/u/out.mid" 0)
              * tempo (init (2 ^ 1023) "ARP" 2 "/home/u/out.mid" 0)) /\
  measure_count (init (2 ^ 1023) "ARP" 2 "/home/u/out.mid" 0) = None.
Proof.
  assert (A : Z.abs (tempo (init (2 ^ 1023) "ARP" 2 "/home/u/out.mid" 0))
              < 2 ^ 1024 - 2 ^ 970).
  { apply Z.ltb_lt. vm_compute. reflexivity. }
  assert (B : 2 ^ 1024 - 2 ^ 970
              <= Z.abs (length (init (2 ^ 1023) "ARP" 2 "/home/u/out.mid" 0)
                        * tempo (init (2 ^ 1023) "ARP" 2 "/home/u/out.mid" 0))).
  { apply Z.leb_le. vm_compute. reflexivity. }
  split; [exact A | ]. split; [exact B | ].
  destruct (@beat_count_overflow demo_music21 (init (2 ^ 1023) "ARP" 2 "/home/u/out.mid" 0)
              (demo_state demo_draws) A B) as [N _].
  exact N.
Defined.

Lemma accent_chance_witness :
  5 < crazy (init 120 "ARP" 10 "/home/u/out.mid" 10) /\
  accent_threshold 10 = 2 ^ 52.
Proof.
  split; [cbn; lia | ].
  pose proof (@accent_chance demo_music21 (init 120 "ARP" 10 "/home/u/out.mid" 10)
                [60; 64; 67] (demo_state demo_draws) ltac:(cbn; lia)) as H.
  cbv zeta in H. destruct H as (_ & _ & _ & _ & T). exact T.
Defined.

Lemma generation_reported_witness :
  @int_str demo_builtins (tempo_input demo_window) = inl 120 /\
  @int_str demo_builtins (length_input demo_window) = inl 10 /\
  1 <= 10 <= 60 /\
  save_path_edit demo_window <> ""%string /\
  btn_generate_enabled
    (fst (@start_generation demo_music21 demo_builtins demo_window (demo_state demo_draws)))
  = true.
Proof.
  split; [reflexivity | ]. split; [reflexivity | ]. split; [lia | ].
  split; [discriminate | ].
  pose proof (@generation_reported demo_music21 demo_builtins demo_window
                (demo_state demo_draws) 120 10
                eq_refl eq_refl ltac:(lia) ltac:(discriminate)) as H.
  cbv zeta in H. destruct H as (_ & _ & _ & B & _). exact B.
Defined.

Lemma generation_end_to_end_witness :
  @int_str demo_builtins (tempo_input demo_window) = inl 120 /\
  @int_str demo_builtins (length_input demo_window) = inl 10 /\
  file_at (demo_state demo_draws) (save_path_edit demo_window)
    <> file_at (demo_state demo_draws) (tmp_path (demo_state demo_draws)) /\
  Z.abs 120 < 2 ^ 1000 /\
  io_fault (demo_state demo_draws) = None /\
  dialogs (fst (@start_generation demo_music21 demo_builtins demo_window
                  (demo_state demo_draws)))
  = dialogs demo_window
    ++ [information "Done" ("MIDI saved to:" +:+ String "010" (save_path_edit demo_window))].
Proof.
  split; [reflexivity | ]. split; [reflexivity | ].
  assert (N : file_at (demo_state demo_draws) (save_path_edit demo_window)
              <> file_at (demo_state demo_draws) (tmp_path (demo_state demo_draws)))
    by (vm_compute; discriminate).
  split; [exact N | ].
  assert (B : Z.abs 120 < 2 ^ 1000) by (apply Z.ltb_lt; vm_compute; reflexivity).
  split; [exact B | ]. split; [reflexivity | ].
  pose proof (@generation_end_to_end demo_music21 demo_builtins demo_window
                (demo_state demo_draws) 120 10
                (map element_tag
                   (part (@run demo_music21 (init 120 "RAND" 10 "/home/u/out.mid" 7)
                            (demo_state demo_draws))))
                eq_refl eq_refl ltac:(lia) ltac:(discriminate) N B
                demo_scales eq_refl eq_refl) as H.
  cbv zeta in H. destruct H as (D & _). exact D.
Defined.

Lemma measures_cover_beats_witness :
  0 <= length (init 120 "ARP" 10 "/home/u/out.mid" 0)
       * tempo (init 120 "ARP" 10 "/home/u/out.mid" 0) < 2 ^ 51 /\
  exists measures,
    measure_count (init 120 "ARP" 10 "/home/u/out.mid" 0) = Some measures /\ 1 <= measures.
Proof.
  assert (B : 0 <= length (init 120 "ARP" 10 "/home/u/out.mid" 0)
                   * tempo (init 120 "ARP" 10 "/home/u/out.mid" 0) < 2 ^ 51) by (cbn; lia).
  split; [exact B | ].
  destruct (measures_cover_beats (init 120 "ARP" 10 "/home/u/out.mid" 0) B)
    as (measures & HM & H1 & _).
  exists measures. split; [exact HM | exact H1].
Defined.
